(** * WalkSAT (Knuth's Algorithm W): a shallow embedding of [walk.cc]

    The development follows the source file top to bottom: the coin [flip],
    the [Cnf] structure with its accessors, the two stack operations and the
    dumps, the assignment printer, the DIMACS clause reader, the [solve] loop
    with its steps W1 to W5, and [main].

    Conventions.
    - [types.h], [flags.h] and [logging.h] are not among the sources.  The
      integer types [lit_t] and [clause_t] are read as integers wide enough
      for the sizes of the formula (the reader checks this for the declared
      counts with CHECK_NO_OVERFLOW): clause indices, positions and sizes are
      [nat], literals, counters and the entries of [w] (a position or the
      sentinel) are [Z].  The
      sentinels, [RAND_MAX] and the two PARAM values are fields of
      [Platform].
    - The counters [numtrue] and [cost] are [Z] with no wrap-around.  At the
      loop boundary [numtrue] is a count, and so is [cost] when no clause
      holds two literals over one variable; with such a clause an entry of
      [cost] can go below 0, where the program wraps around.
    - A vector is a list read with [!!!] and written with [<[ _ := _ ]>].
      An access outside the vector has no meaning in C++; the model reads the
      default value and writes nothing there, and the well-formedness
      predicate [wf_cnf] keeps every access of [solve] inside its vector.
    - [rand()] reads a fixed sequence of draws [nat -> Z] at a position that
      is threaded through the code; in the statements about runs from one
      seed the sequence comes from the state of the generator, which [srand]
      sets.
    - [float] arithmetic in [flip] is written with exact rationals.  What is
      proved about the distribution of the choice of W4 is proved for every
      function that gives the result of [flip(1.0/k)] on a draw, so that it
      does not depend on the rounding. *)

From Stdlib Require Import ZArith QArith Lia String Ascii DecimalString.
From stdpp Require Import base list numbers.

Set Default Proof Using "Type".
Close Scope Q_scope.

(** ** Platform constants and parameters *)

Record Platform := {
  RAND_MAX : Z;                    (* <cstdlib> *)
  lit_nil : Z;                     (* types.h *)
  clause_nil : Z;                  (* types.h *)
  lit_max : Z;                     (* std::numeric_limits<lit_t>::max() *)
  PARAM_initial_bias : Q;          (* DEFINE_PARAM(initial_bias, 0.1, ...) *)
  PARAM_non_greedy_choice : Q      (* DEFINE_PARAM(non_greedy_choice, 0.65, ...) *)
}.

(** Modelled from the spec: [var] is declared in types.h, which is missing;
    the spec says "var(l) denotes |l|". *)
Definition var (l : Z) : nat := Z.abs_nat l.

(** [static bool flip(float p)], applied to the draw [r] that [rand()]
    returns. *)
Definition flip (P : Platform) (p : Q) (r : Z) : bool :=
  Qle_bool (inject_Z r / inject_Z (RAND_MAX P)) p.

(** ** The [Cnf] structure *)

Record Cnf := {
  clauses : list Z;
  start : list nat;
  val : list bool;
  cost : list Z;
  invclause_storage : list (list nat);
  f : list nat;
  numtrue : list Z;
  w : list Z;
  nvars : nat;
  nclauses : nat
}.

Definition set_clauses (x : list Z) (c : Cnf) : Cnf :=
  {| clauses := x; start := start c; val := val c; cost := cost c;
     invclause_storage := invclause_storage c; f := f c;
     numtrue := numtrue c; w := w c; nvars := nvars c;
     nclauses := nclauses c |}.

Definition set_start (x : list nat) (c : Cnf) : Cnf :=
  {| clauses := clauses c; start := x; val := val c; cost := cost c;
     invclause_storage := invclause_storage c; f := f c;
     numtrue := numtrue c; w := w c; nvars := nvars c;
     nclauses := nclauses c |}.

Definition set_val (x : list bool) (c : Cnf) : Cnf :=
  {| clauses := clauses c; start := start c; val := x; cost := cost c;
     invclause_storage := invclause_storage c; f := f c;
     numtrue := numtrue c; w := w c; nvars := nvars c;
     nclauses := nclauses c |}.

Definition set_cost (x : list Z) (c : Cnf) : Cnf :=
  {| clauses := clauses c; start := start c; val := val c; cost := x;
     invclause_storage := invclause_storage c; f := f c;
     numtrue := numtrue c; w := w c; nvars := nvars c;
     nclauses := nclauses c |}.

Definition set_invclause_storage (x : list (list nat)) (c : Cnf) : Cnf :=
  {| clauses := clauses c; start := start c; val := val c; cost := cost c;
     invclause_storage := x; f := f c;
     numtrue := numtrue c; w := w c; nvars := nvars c;
     nclauses := nclauses c |}.

Definition set_f (x : list nat) (c : Cnf) : Cnf :=
  {| clauses := clauses c; start := start c; val := val c; cost := cost c;
     invclause_storage := invclause_storage c; f := x;
     numtrue := numtrue c; w := w c; nvars := nvars c;
     nclauses := nclauses c |}.

Definition set_numtrue (x : list Z) (c : Cnf) : Cnf :=
  {| clauses := clauses c; start := start c; val := val c; cost := cost c;
     invclause_storage := invclause_storage c; f := f c;
     numtrue := x; w := w c; nvars := nvars c;
     nclauses := nclauses c |}.

Definition set_w (x : list Z) (c : Cnf) : Cnf :=
  {| clauses := clauses c; start := start c; val := val c; cost := cost c;
     invclause_storage := invclause_storage c; f := f c;
     numtrue := numtrue c; w := x; nvars := nvars c;
     nclauses := nclauses c |}.

(** The constructor [Cnf(nvars, nclauses)].  Seeding the generator is part of
    [main] below, where the draws are chosen. *)
Definition Cnf_new (P : Platform) (nv nc : nat) : Cnf :=
  {| clauses := []; start := [];
     val := replicate (nv + 1) false;
     cost := replicate (nv + 1) 0%Z;
     invclause_storage := replicate (2 * nv + 1) [];
     f := [];
     numtrue := replicate nc 0%Z;
     w := replicate nc (clause_nil P);
     nvars := nv; nclauses := nc |}.

(** [invclause] points at [invclause_storage[nvars]], so [invclause[l]] is
    the entry [nvars + l] of the storage. *)
Definition inv_index (c : Cnf) (l : Z) : nat := Z.to_nat (Z.of_nat (nvars c) + l).

Definition invclause (c : Cnf) (l : Z) : list nat :=
  invclause_storage c !!! inv_index c l.

Definition clause_begin (c : Cnf) (k : nat) : nat := start c !!! k.

(** [c == start.size() - 1] is written [k + 1 = start.size()]: the two agree
    whenever [start] is not empty, and no clause exists when it is. *)
Definition clause_end (c : Cnf) (k : nat) : nat :=
  if decide (S k = length (start c)) then length (clauses c)
  else start c !!! (S k).

(** The literals visited by
    [for (itr = clause_begin(k); itr < clause_end(k); ++itr)], that is
    [clauses[itr]] for each [itr]; the loops of the source use [itr] for
    nothing else. *)
Definition clause_lits (c : Cnf) (k : nat) : list Z :=
  (λ itr, clauses c !!! itr) <$>
    seq (clause_begin c k) (clause_end c k - clause_begin c k).

Definition is_true (c : Cnf) (l : Z) : bool :=
  let tv := val c !!! var l in
  (tv && (0 <? l)%Z) || (negb tv && (l <? 0)%Z).

Definition is_satisfied (c : Cnf) (k : nat) : bool :=
  existsb (is_true c) (clause_lits c k).

Definition register_satisfied (P : Platform) (k : nat) (c : Cnf) : Cnf :=
  if decide (w c !!! k = clause_nil P) then c else
  let back := length (f c) - 1 in
  (* w[f[f.size()-1]] = w[c]; *)
  let w1 := <[f c !!! back := w c !!! k]> (w c) in
  (* std::swap(f[w[c]], f[f.size()-1]); *)
  let i := Z.to_nat (w1 !!! k) in
  let f1 := <[back := f c !!! i]> (<[i := f c !!! back]> (f c)) in
  (* w[c] = clause_nil; *)
  let w2 := <[k := clause_nil P]> w1 in
  (* f.resize(f.size()-1); *)
  set_f (take back f1) (set_w w2 c).

Definition register_unsatisfied (P : Platform) (k : nat) (c : Cnf) : Cnf :=
  if decide (w c !!! k = clause_nil P) then
    set_f (f c ++ [k]) (set_w (<[k := Z.of_nat (length (f c))]> (w c)) c)
  else c.

(** ** [print_assignment] *)

Definition endl : string := String (ascii_of_nat 10) EmptyString.

(** [PRINT << i] for an [int] between 1 and [nvars]. *)
Definition print_int (i : nat) : string := NilEmpty.string_of_uint (Nat.to_uint i).

(** One turn of the loop of [print_assignment]; the state is [j] and the
    text printed so far. *)
Definition print_var (c : Cnf) (st : nat * string) (i : nat) : nat * string :=
  let '(j, out) := st in
  let out := if decide (j mod 10 = 0) then append out "v"%string else out in
  let out := append out (append (if (val c !!! i : bool) then " -"%string else " "%string) (print_int i)) in
  let j := S j in
  let out :=
    if decide (i = nvars c) then append out (append " 0"%string endl)
    else if decide (0 < j ∧ j mod 10 = 0) then append out endl
    else out in
  (j, out).

Definition print_assignment (c : Cnf) : string :=
  snd (fold_left (print_var c) (seq 1 (nvars c)) (0, EmptyString)).

(** ** [parse]

    The input is what the two [fscanf] loops see: the counts [nv] and [nc] of
    the problem line, and the integers [toks] that [fscanf(f, " %i ", &lit)]
    reads after it, up to the end of the file. *)

Inductive parse_result :=
  | ParseOk (c : Cnf)
  | UNSAT_EXIT
  | CHECK_failed
  | ParseFuel.

(** The inner [while (true)] loop.  The result is [nc == EOF], the integers
    left in the file, the structure, and [read_lit]. *)
Fixpoint read_clause (toks : list Z) (c : Cnf) (read_lit : bool)
  : bool * list Z * Cnf * bool :=
  match toks with
  | [] => (true, [], c, read_lit)
  | lit :: rest =>
      if decide (lit = 0%Z) then (false, rest, c, read_lit)
      else read_clause rest (set_clauses (clauses c ++ [lit]) c) true
  end.

(** The [do ... while (nc != EOF)] loop. *)
Fixpoint parse_clauses (fuel : nat) (toks : list Z) (c : Cnf) : parse_result :=
  match fuel with
  | 0 => ParseFuel
  | S fuel' =>
      let st := length (clauses c) in
      let '(eof, rest, c1, read_lit) := read_clause toks c false in
      if decide (eof = false ∧ st = length (clauses c1)) then UNSAT_EXIT
      else if negb read_lit then ParseOk c1
      else
        let c2 := set_start (start c1 ++ [st]) c1 in
        if eof then ParseOk c2 else parse_clauses fuel' rest c2
  end.

(** Modelled from the spec: CHECK_NO_OVERFLOW is a macro of logging.h, which
    is missing; the spec asks for counts "representable in the platform's
    literal/clause integer type". *)
Definition CHECK_NO_OVERFLOW (max x : Z) : bool := (x <=? max)%Z.

Definition parse (P : Platform) (clause_max : Z) (nv nc : Z) (toks : list Z)
  : parse_result :=
  if negb (0 <=? nv)%Z then CHECK_failed
  else if negb (0 <=? nc)%Z then CHECK_failed
  else if negb (CHECK_NO_OVERFLOW (lit_max P) nv) then CHECK_failed
  else if negb (CHECK_NO_OVERFLOW clause_max nc) then CHECK_failed
  else
    match parse_clauses (S (length toks)) toks
            (Cnf_new P (Z.to_nat nv) (Z.to_nat nc)) with
    | ParseOk c =>
        if decide (length (start c) = nclauses c) then ParseOk c
        else CHECK_failed
    | r => r
    end.

(** ** [solve] *)

(** The state of a run: the structure, the number of draws taken from
    [rand()] so far, and (for the statements about runs) the variables
    flipped so far. *)
Record run := { cnf : Cnf; drawn : nat; flipped : list nat }.

(** Code that calls [rand()]: it is given the position in the sequence of
    draws and returns the next position. *)
Definition Rand (A : Type) : Type := nat → A * nat.

Definition rand_ret {A} (x : A) : Rand A := λ n, (x, n).
Definition rand_bind {A B} (m : Rand A) (g : A → Rand B) : Rand B :=
  λ n, let '(x, n') := m n in g x n'.
Definition rand (draws : nat → Z) : Rand Z := λ n, (draws n, S n).

(** [flip(p)] as a computation. *)
Definition rand_flip (P : Platform) (draws : nat → Z) (p : Q) : Rand bool :=
  rand_bind (rand draws) (λ r, rand_ret (flip P p r)).

(** *** W1 *)

Definition W1_val (P : Platform) (draws : nat → Z) (st : Cnf * nat) (i : nat)
  : Cnf * nat :=
  let '(c, n) := st in
  let '(b, n') := rand_flip P draws (PARAM_initial_bias P) n in
  (set_val (<[i := b]> (val c)) c, n').

Definition push_invclause (l : Z) (i : nat) (c : Cnf) : Cnf :=
  set_invclause_storage
    (<[inv_index c l := invclause c l ++ [i]]> (invclause_storage c)) c.

Definition add_numtrue (i : nat) (d : Z) (c : Cnf) : Cnf :=
  set_numtrue (<[i := (numtrue c !!! i + d)%Z]> (numtrue c)) c.

Definition add_cost (v : nat) (d : Z) (c : Cnf) : Cnf :=
  set_cost (<[v := (cost c !!! v + d)%Z]> (cost c)) c.

(** The body of the loop over the literals of clause [i]; the state is the
    structure and [tl]. *)
Definition W1_lit (i : nat) (st : Cnf * Z) (l : Z) : Cnf * Z :=
  let '(c, tl) := st in
  let c := push_invclause l i c in
  if is_true c l then (add_numtrue i 1 c, Z.of_nat (var l)) else (c, tl).

Definition W1_clause (P : Platform) (c : Cnf) (i : nat) : Cnf :=
  let '(c, tl) := fold_left (W1_lit i) (clause_lits c i) (c, lit_nil P) in
  if decide (numtrue c !!! i = 0%Z) then
    set_f (f c ++ [i]) (set_w (<[i := Z.of_nat (length (f c))]> (w c)) c)
  else if decide (numtrue c !!! i = 1%Z) then add_cost (Z.to_nat tl) 1 c
  else c.

Definition W1 (P : Platform) (draws : nat → Z) (c : Cnf) (n : nat) : Cnf * nat :=
  let '(c, n) := fold_left (W1_val P draws) (seq 1 (nvars c)) (c, n) in
  (fold_left (W1_clause P) (seq 0 (nclauses c)) c, n).

(** *** W3 *)

(** [do { q = std::rand() / divisor; } while (q >= c->f.size());] *)
Fixpoint W3_loop (fuel : nat) (draws : nat → Z) (divisor : Z) (size : nat)
  (n : nat) : option (nat * nat) :=
  match fuel with
  | 0 => None
  | S fuel' =>
      let '(r, n') := rand draws n in
      let q := (r / divisor)%Z in
      if decide (Z.of_nat size ≤ q)%Z then W3_loop fuel' draws divisor size n'
      else Some (Z.to_nat q, n')
  end.

Definition W3_divisor (P : Platform) (size : nat) : Z :=
  ((RAND_MAX P + 1) / Z.of_nat size)%Z.

(** *** W4 *)

Record W4_state := { min_cost : Z; k : Z; choice : Z }.

(** The scan of W4 is written once, over any way [coin] of flipping the coin
    [flip(1.0/k)]; it is run on the draws of [rand()] in [solve], and on
    weighted outcomes to read off the distribution of [choice]. *)
Section W4_scan.
Context {M : Type → Type}.
Variable ret : ∀ A, A → M A.
Variable bind : ∀ A B, M A → (A → M B) → M B.
Variable coin : Z → M bool.

Definition W4_lit (c : Cnf) (all : bool) (st : W4_state) (l : Z) : M W4_state :=
  let cost := cost c !!! var l in
  let st :=
    if decide (cost < min_cost st)%Z then
      {| min_cost := cost;
         k := if decide (all = false ∨ cost = 0%Z) then 1%Z else k st;
         choice := choice st |}
    else st in
  if decide ((all = true ∧ 0 < min_cost st)%Z ∨ cost = min_cost st) then
    bind _ _ (coin (k st)) (λ heads,
      ret _ {| min_cost := min_cost st;
               k := (k st + 1)%Z;
               choice := if heads then l else choice st |})
  else ret _ st.

Fixpoint W4_scan (c : Cnf) (all : bool) (ls : list Z) (st : W4_state)
  : M W4_state :=
  match ls with
  | [] => ret _ st
  | l :: ls' => bind _ _ (W4_lit c all st l) (W4_scan c all ls')
  end.
End W4_scan.

Definition W4_init (P : Platform) : W4_state :=
  {| min_cost := lit_max P; k := 1; choice := lit_nil P |}.

(** The scan on the draws of [rand()]: the coin is [flip(1.0/k)]. *)
Definition W4_draws (P : Platform) (draws : nat → Z) (c : Cnf) (all : bool)
  (ls : list Z) (st : W4_state) : Rand W4_state :=
  W4_scan (@rand_ret) (@rand_bind) (λ k, rand_flip P draws (1 / inject_Z k))
    c all ls st.

Definition W4 (P : Platform) (draws : nat → Z) (c : Cnf) (all : bool) (K : nat)
  : Rand W4_state :=
  W4_draws P draws c all (clause_lits c K) (W4_init P).

(** *** W5 *)

(** The body of the loop over [invclause[pos]]. *)
Definition W5_lost (P : Platform) (v : nat) (c : Cnf) (i : nat) : Cnf :=
  let c := add_numtrue i (-1) c in
  if decide (numtrue c !!! i = 0%Z) then
    add_cost v (-1) (register_unsatisfied P i c)
  else if decide (numtrue c !!! i = 1%Z) then
    match List.find (is_true c) (clause_lits c i) with
    | Some l => add_cost (var l) 1 c
    | None => c
    end
  else c.

(** The body of the loop over [invclause[neg]]. *)
Definition W5_gained (P : Platform) (v : nat) (neg : Z) (c : Cnf) (i : nat) : Cnf :=
  let c := add_numtrue i 1 c in
  if decide (numtrue c !!! i = 1%Z) then
    add_cost v 1 (register_satisfied P i c)
  else if decide (numtrue c !!! i = 2%Z) then
    match List.find (λ l, bool_decide (l ≠ neg) && is_true c l) (clause_lits c i) with
    | Some l => add_cost (var l) (-1) c
    | None => c
    end
  else c.

Definition W5 (P : Platform) (c : Cnf) (choice : Z) : Cnf :=
  let v := var choice in
  let pos := if decide (val c !!! v = (0 <? choice)%Z) then choice else (- choice)%Z in
  let neg := (- pos)%Z in
  let c := set_val (<[v := negb (val c !!! v)]> (val c)) c in
  let c := fold_left (W5_lost P v) (invclause c pos) c in
  fold_left (W5_gained P v neg) (invclause c neg) c.

(** *** The loop *)

Inductive step_result :=
  | Done (s : run)          (* W2: return true *)
  | Next (s : run)          (* back to W2 *)
  | Check_failure           (* CHECK(choice != lit_nil) *)
  | Division_by_zero        (* divisor == 0 *)
  | Fuel.                   (* the loop of W3 is still running *)

(** One turn of [while (true)], from W2 to the end of W5. *)
Definition W2_W5 (P : Platform) (draws : nat → Z) (fuel : nat) (s : run)
  : step_result :=
  let c := cnf s in
  if decide (f c = []) then Done s else
  let divisor := W3_divisor P (length (f c)) in
  if decide (divisor = 0%Z) then Division_by_zero else
  match W3_loop fuel draws divisor (length (f c)) (drawn s) with
  | None => Fuel
  | Some (q, n) =>
      let '(all, n) := rand_flip P draws (PARAM_non_greedy_choice P) n in
      let '(st, n) := W4 P draws c all (f c !!! q) n in
      if decide (choice st = lit_nil P) then Check_failure else
      Next {| cnf := W5 P c (choice st); drawn := n;
              flipped := flipped s ++ [var (choice st)] |}
  end.

Inductive outcome :=
  | Returned (b : bool) (s : run)
  | Aborted
  | Undefined
  | OutOfFuel.

Fixpoint solve_loop (P : Platform) (draws : nat → Z) (fuel : nat) (s : run)
  : outcome :=
  match fuel with
  | 0 => OutOfFuel
  | S fuel' =>
      match W2_W5 P draws fuel' s with
      | Done s' => Returned true s'
      | Next s' => solve_loop P draws fuel' s'
      | Check_failure => Aborted
      | Division_by_zero => Undefined
      | Fuel => OutOfFuel
      end
  end.

Definition solve_init (P : Platform) (draws : nat → Z) (c : Cnf) : run :=
  let '(c, n) := W1 P draws c 0 in {| cnf := c; drawn := n; flipped := [] |}.

Definition solve (P : Platform) (draws : nat → Z) (fuel : nat) (c : Cnf) : outcome :=
  solve_loop P draws fuel (solve_init P draws c).

(** The state at the [i]-th arrival at W2 (the loop boundary), when the run
    gets there. *)
Fixpoint loop_head (P : Platform) (draws : nat → Z) (fuel : nat) (i : nat)
  (s : run) : option run :=
  match i with
  | 0 => Some s
  | S i' =>
      match W2_W5 P draws fuel s with
      | Next s' => loop_head P draws fuel i' s'
      | _ => None
      end
  end.

(** ** [main] *)

Inductive exit_status :=
  | SAT_EXIT (c : Cnf)       (* SAT_EXIT(&c) *)
  | Exit_UNSAT               (* UNSAT_EXIT in parse *)
  | Exit_CHECK               (* a CHECK failed *)
  | Exit_undefined
  | Exit_0                   (* main runs to its end *)
  | Still_running.

(** [srand_rand seed] is the sequence that [rand()] returns after
    [srand(seed)]; [now] is [time(NULL)]. *)
Definition seed_draws (srand_rand : Z → nat → Z) (FLAGS_seed now : Z) : nat → Z :=
  srand_rand (if decide (FLAGS_seed = 0%Z) then now else FLAGS_seed).

Definition main (P : Platform) (clause_max : Z) (srand_rand : Z → nat → Z)
  (FLAGS_seed now : Z) (nv nc : Z) (toks : list Z) (fuel : nat) : exit_status :=
  match parse P clause_max nv nc toks with
  | UNSAT_EXIT => Exit_UNSAT
  | CHECK_failed => Exit_CHECK
  | ParseFuel => Still_running
  | ParseOk c =>
      if decide (clauses c = []) then SAT_EXIT c
      else
        match solve P (seed_draws srand_rand FLAGS_seed now) fuel c with
        | Returned true s => SAT_EXIT (cnf s)
        | Returned false _ => Exit_0
        | Aborted => Exit_CHECK
        | Undefined => Exit_undefined
        | OutOfFuel => Still_running
        end
  end.

(** ** The invariants of the data model *)

(** Number of true literals of clause [k], counting multiplicity. *)
Definition count_true (c : Cnf) (k : nat) : nat :=
  length (List.filter (is_true c) (clause_lits c k)).

(** A literal of the formula: not zero, over a declared variable. *)
Definition lit_ok (c : Cnf) (l : Z) : Prop := l ≠ 0%Z ∧ var l ≤ nvars c.

(** The sizes [solve] relies on: every vector as the constructor sized it,
    [start] as the reader's last CHECK leaves it, literals as the data model
    asks, and no position of [f] equal to the sentinel. *)
Record wf_cnf (P : Platform) (c : Cnf) : Prop := {
  wf_start : length (start c) = nclauses c;
  wf_lits : ∀ k l, k < nclauses c → l ∈ clause_lits c k → lit_ok c l;
  wf_val : length (val c) = nvars c + 1;
  wf_cost : length (cost c) = nvars c + 1;
  wf_inv : length (invclause_storage c) = 2 * nvars c + 1;
  wf_numtrue : length (numtrue c) = nclauses c;
  wf_w : length (w c) = nclauses c;
  wf_nil : ∀ i, i < nclauses c → Z.of_nat i ≠ clause_nil P
}.

(** The structure as [main] hands it to [solve]: the constructor's vectors
    around a formula. *)
Definition Cnf_of (P : Platform) (nv : nat) (cls : list Z) (st : list nat) : Cnf :=
  set_start st (set_clauses cls (Cnf_new P nv (length st))).

Definition numtrue_ok (c : Cnf) : Prop :=
  ∀ k, k < nclauses c → numtrue c !!! k = Z.of_nat (count_true c k).

(** [f] and [w] as an indexed set: [w] gives the position in [f]. *)
Record stack_ok (P : Platform) (c : Cnf) : Prop := {
  stack_f : ∀ i k, f c !! i = Some k → k < nclauses c ∧ w c !!! k = Z.of_nat i;
  stack_w : ∀ k, k < nclauses c → w c !!! k ≠ clause_nil P →
            (0 ≤ w c !!! k)%Z ∧ f c !! Z.to_nat (w c !!! k) = Some k
}.

Definition unsat_ok (P : Platform) (c : Cnf) : Prop :=
  ∀ k, k < nclauses c → w c !!! k ≠ clause_nil P ↔ numtrue c !!! k = 0%Z.

(** [invclause[l]] holds clause [k] once for each occurrence of [l] in it. *)
Definition inv_ok (c : Cnf) : Prop :=
  ∀ l, lit_ok c l → ∀ k,
    count_occ Nat.eq_dec (invclause c l) k =
    if decide (k < nclauses c) then count_occ Z.eq_dec (clause_lits c k) l else 0.

(** Clause [k] has [numtrue[k] = 1] and its one true literal is over [v]. *)
Definition critical (c : Cnf) (v : nat) (k : nat) : bool :=
  bool_decide (numtrue c !!! k = 1%Z) &&
  bool_decide (var <$> List.filter (is_true c) (clause_lits c k) = [v]).

Definition break_count (c : Cnf) (v : nat) : nat :=
  length (List.filter (critical c v) (seq 0 (nclauses c))).

Definition cost_ok (c : Cnf) : Prop :=
  ∀ v, v ≤ nvars c → cost c !!! v = Z.of_nat (break_count c v).

(** No clause holds two literals over one variable. *)
Definition distinct_vars (c : Cnf) : Prop :=
  ∀ k, k < nclauses c → NoDup (var <$> clause_lits c k).

(** The formula and the sizes are the same in [c] and [c']. *)
Definition same_formula (c c' : Cnf) : Prop :=
  clauses c' = clauses c ∧ start c' = start c ∧
  nvars c' = nvars c ∧ nclauses c' = nclauses c.

(** What holds at a loop boundary. *)
Record Inv (P : Platform) (c : Cnf) : Prop := {
  Inv_wf : wf_cnf P c;
  Inv_inv : inv_ok c;
  Inv_numtrue : numtrue_ok c;
  Inv_stack : stack_ok P c;
  Inv_unsat : unsat_ok P c
}.

(** ** The state inside W5

    While the two loops of W5 run, [val] is already flipped and [numtrue] is
    not yet the count of true literals.  The loops leave the formula, [val]
    and [invclause] alone. *)
Record same_static (c c' : Cnf) : Prop := {
  st_clauses : clauses c' = clauses c;
  st_start : start c' = start c;
  st_val : val c' = val c;
  st_inv : invclause_storage c' = invclause_storage c;
  st_nvars : nvars c' = nvars c;
  st_nclauses : nclauses c' = nclauses c
}.

(** True literals of clause [k] over variables other than [v]. *)
Definition other_true (c : Cnf) (v k : nat) : list Z :=
  List.filter (λ l, is_true c l && bool_decide (var l ≠ v)) (clause_lits c k).

(** Inside W5, [numtrue[k]] is the number of true literals over the other
    variables plus [extra k], the entries for [k] that the loop over
    [invclause[pos]] still has to take away, or that the loop over
    [invclause[neg]] has already added. *)
Record Mid (P : Platform) (c0 : Cnf) (v : nat) (extra : nat → nat) (c' : Cnf)
  : Prop := {
  mid_static : same_static c0 c';
  mid_wf : wf_cnf P c';
  mid_numtrue : ∀ k, k < nclauses c0 →
     numtrue c' !!! k = Z.of_nat (length (other_true c0 v k) + extra k);
  mid_stack : stack_ok P c';
  mid_unsat : unsat_ok P c'
}.

(** The variable that pays for clause [k] when [numtrue[k] = 1] inside W5:
    the one other true literal, or else the flipped variable [v]. *)
Definition mid_var (c0 : Cnf) (v k : nat) : nat :=
  match other_true c0 v k with
  | [l] => var l
  | _ => v
  end.

Definition mid_critical (c0 : Cnf) (v : nat) (c' : Cnf) (u k : nat) : bool :=
  bool_decide (numtrue c' !!! k = 1%Z) && bool_decide (mid_var c0 v k = u).

Definition mid_cost_ok (c0 : Cnf) (v : nat) (c' : Cnf) : Prop :=
  ∀ u, u ≤ nvars c0 →
    cost c' !!! u =
    Z.of_nat (length (List.filter (mid_critical c0 v c' u) (seq 0 (nclauses c0)))).

(** The structure as the constructor leaves it, apart from the formula. *)
Record fresh (P : Platform) (c : Cnf) : Prop := {
  fresh_val : val c = replicate (nvars c + 1) false;
  fresh_cost : cost c = replicate (nvars c + 1) 0%Z;
  fresh_inv : invclause_storage c = replicate (2 * nvars c + 1) [];
  fresh_f : f c = [];
  fresh_numtrue : numtrue c = replicate (nclauses c) 0%Z;
  fresh_w : w c = replicate (nclauses c) (clause_nil P)
}.

(** Every draw is a value that [rand()] can return. *)
Definition draws_ok (P : Platform) (draws : nat → Z) : Prop :=
  ∀ n, (0 ≤ draws n ≤ RAND_MAX P)%Z.

(** ** Auxiliary definitions for the proofs *)

(** The flip of [val[v]]. *)
Definition flip_val (c : Cnf) (v : nat) : Cnf :=
  set_val (<[v := negb (val c !!! v)]> (val c)) c.

(** What W1 leaves alone once [val] is drawn. *)
Record W1_frame (c c' : Cnf) : Prop := {
  fr_clauses : clauses c' = clauses c;
  fr_start : start c' = start c;
  fr_val : val c' = val c;
  fr_nvars : nvars c' = nvars c;
  fr_nclauses : nclauses c' = nclauses c
}.

(** Clause [k] has one true literal, and it is over [u]. *)
Definition sole_true (c : Cnf) (u k : nat) : bool :=
  bool_decide (var <$> List.filter (is_true c) (clause_lits c k) = [u]).

(** The state of W1 before clause [i]. *)
Record W1_inv (P : Platform) (cv : Cnf) (i : nat) (c' : Cnf) : Prop := {
  w1_frame : W1_frame cv c';
  w1_wf : wf_cnf P c';
  w1_inv : ∀ l, lit_ok cv l → ∀ k,
    count_occ Nat.eq_dec (invclause c' l) k =
    if decide (k < i) then count_occ Z.eq_dec (clause_lits cv k) l else 0;
  w1_numtrue : ∀ k, k < nclauses cv →
    numtrue c' !!! k = if decide (k < i) then Z.of_nat (count_true cv k) else 0%Z;
  w1_stack : stack_ok P c';
  w1_unsat : ∀ k, k < nclauses cv →
    w c' !!! k ≠ clause_nil P ↔ (k < i ∧ count_true cv k = 0);
  w1_cost : ∀ u, u ≤ nvars cv →
    cost c' !!! u = Z.of_nat (length (List.filter (sole_true cv u) (seq 0 i)))
}.

(** One literal of the scan, on draws. *)
Definition W4_pre (c : Cnf) (all : bool) (st : W4_state) (l : Z) : W4_state :=
  if decide (cost c !!! var l < min_cost st)%Z then
    {| min_cost := cost c !!! var l;
       k := if decide (all = false ∨ cost c !!! var l = 0%Z) then 1%Z else k st;
       choice := choice st |}
  else st.

Definition W4_candidate (c : Cnf) (all : bool) (st : W4_state) (l : Z) : Prop :=
  (all = true ∧ 0 < min_cost st)%Z ∨ cost c !!! var l = min_cost st.

(** ** Worked examples *)

(** A platform for the examples: 32-bit [lit_t] and [clause_t] with the
    largest value as [clause_nil], [RAND_MAX] as in glibc, the default
    parameters. *)
Definition example_platform : Platform :=
  {| RAND_MAX := 2147483647; lit_nil := 0; clause_nil := 4294967295;
     lit_max := 2147483647;
     PARAM_initial_bias := (1 # 10)%Q; PARAM_non_greedy_choice := (65 # 100)%Q |}.

(** The draws in [l], then zeros. *)
Definition draws_of (l : list Z) (n : nat) : Z := nth n l 0%Z.

(** Scenario S4 of the spec: (1 or 2) and (3) and (-2 or -3 or 4). *)
Definition S4 : Cnf := Cnf_of example_platform 4 [1; 2; 3; -2; -3; 4]%Z [0; 2; 3].

(** Draws under which S4 starts from 1, 2 true and 3, 4 false, and flips 3
    and then 4. *)
Definition S4_draws : nat → Z :=
  draws_of [0; 0; 2147483647; 2147483647; 5; 6; 2000000000; 7; 2147483647; 1000]%Z.

(** A decision procedure for [wf_cnf]. *)
Definition check_wf (P : Platform) (c : Cnf) : bool :=
  bool_decide (length (start c) = nclauses c) &&
  forallb (λ k, forallb (λ l, bool_decide (l ≠ 0%Z) && bool_decide (var l ≤ nvars c))
                  (clause_lits c k)) (seq 0 (nclauses c)) &&
  bool_decide (length (val c) = nvars c + 1) &&
  bool_decide (length (cost c) = nvars c + 1) &&
  bool_decide (length (invclause_storage c) = 2 * nvars c + 1) &&
  bool_decide (length (numtrue c) = nclauses c) &&
  bool_decide (length (w c) = nclauses c) &&
  forallb (λ i, bool_decide (Z.of_nat i ≠ clause_nil P)) (seq 0 (nclauses c)).

(** ** The printer and the reader as the spec words them *)

(** The printer of the spec: "positive variables as <v> and negative as
    -<v>", for a variable that is true and false.  It is [print_var] with
    the two signs the other way round. *)
Definition print_var_spec (c : Cnf) (st : nat * string) (i : nat) : nat * string :=
  let '(j, out) := st in
  let out := if decide (j mod 10 = 0) then append out "v"%string else out in
  let out := append out (append (if (val c !!! i : bool) then " "%string else " -"%string) (print_int i)) in
  let j := S j in
  let out :=
    if decide (i = nvars c) then append out (append " 0"%string endl)
    else if decide (0 < j ∧ j mod 10 = 0) then append out endl
    else out in
  (j, out).

Definition print_assignment_spec (c : Cnf) : string :=
  snd (fold_left (print_var_spec c) (seq 1 (nvars c)) (0, EmptyString)).

(** An empty clause in the integers after the problem line: a 0 that comes
    first, or right after another 0. *)
Definition has_empty_clause (toks : list Z) : Prop :=
  ∃ i, toks !! i = Some 0%Z ∧ (i = 0 ∨ toks !! (i - 1) = Some 0%Z).

(** A generator for the examples: [rand()] after [srand(seed)]. *)
Definition example_generator (seed : Z) (n : nat) : Z :=
  ((seed + Z.of_nat n) * 1103515245 + 12345) mod 2147483648.

(** ** The draws of [rand()] as a sample space *)

(** The values that one call of [rand()] can return, each as likely as the
    others. *)
Definition all_draws (P : Platform) : list Z :=
  Z.of_nat <$> seq 0 (Z.to_nat (RAND_MAX P + 1)).

(** The number of values of one draw that satisfy [p]. *)
Definition count_draws (P : Platform) (p : Z → bool) : nat :=
  length (List.filter p (all_draws P)).

(** The sequences of [t] draws, each as likely as the others. *)
Fixpoint draw_seqs (P : Platform) (t : nat) : list (list Z) :=
  match t with
  | 0 => [[]]
  | S t' => r ← all_draws P; (λ rs, r :: rs) <$> draw_seqs P t'
  end.

(** The loop of W3 on the draws [rs]: the index it picks, if it ends within
    these draws. *)
Definition W3_pick (P : Platform) (size : nat) (rs : list Z) : option nat :=
  fst <$> W3_loop (length rs) (draws_of rs) (W3_divisor P size) size 0.

(** The number of sequences of [t] draws on which W3 gives [r]. *)
Definition W3_count (P : Platform) (size t : nat) (r : option nat) : nat :=
  length (List.filter (λ rs, bool_decide (W3_pick P size rs = r)) (draw_seqs P t)).

(** ** The choice of W4 as a distribution *)

(** Outcomes with weights: a finite distribution up to its total weight. *)
Definition Dist (A : Type) : Type := list (A * Z).

Definition dist_ret {A} (x : A) : Dist A := [(x, 1%Z)].

Definition dist_scale {A} (p : Z) (d : Dist A) : Dist A :=
  (λ yq, (yq.1, (p * yq.2)%Z)) <$> d.

Definition dist_bind {A B} (m : Dist A) (g : A → Dist B) : Dist B :=
  flat_map (λ xp, dist_scale xp.2 (g xp.1)) m.

(** The coin [flip(1.0/k)] as the comment on [flip] describes it: "lands on
    heads with probability p", that is one part in [k] for heads. *)
Definition dist_coin (k : Z) : Dist bool := [(true, 1%Z); (false, (k - 1)%Z)].

(** The scan of W4 on weighted outcomes of the coin. *)
Definition W4_dist (c : Cnf) (all : bool) (ls : list Z) (st : W4_state)
  : Dist W4_state :=
  W4_scan (@dist_ret) (@dist_bind) dist_coin c all ls st.

(** The weight of the outcomes that satisfy [p]. *)
Fixpoint mass {A} (p : A → bool) (d : Dist A) : Z :=
  match d with
  | [] => 0%Z
  | (x, q) :: d' => ((if p x then q else 0) + mass p d')%Z
  end.

(** The literals of [ls] that attain the minimum cost. *)
Definition least_cost_lits (c : Cnf) (ls : list Z) : list Z :=
  List.filter
    (λ l, forallb (λ l', (cost c !!! var l <=? cost c !!! var l')%Z) ls) ls.

(** The literals among which W4 chooses: all of them when [all] is true and
    every cost is positive, those of minimum cost otherwise. *)
Definition W4_eligible (c : Cnf) (all : bool) (ls : list Z) : list Z :=
  if all && forallb (λ l, (0 <? cost c !!! var l)%Z) ls then ls
  else least_cost_lits c ls.

(** [min_cost] after the scan of [ls]. *)
Definition least (P : Platform) (c : Cnf) (ls : list Z) : Z :=
  fold_right (λ l m, Z.min (cost c !!! var l) m) (lit_max P) ls.

(** [W4_eligible] through [least]. *)
Definition eligible_upto (P : Platform) (c : Cnf) (all : bool) (ls : list Z)
  : list Z :=
  if all && (0 <? least P c ls)%Z then ls
  else List.filter (λ l, (cost c !!! var l =? least P c ls)%Z) ls.

(** The costs of the literals of [ls] are counts that fit in [lit_t]. *)
Definition costs_ok (P : Platform) (c : Cnf) (ls : list Z) : Prop :=
  ∀ l, l ∈ ls → (0 ≤ cost c !!! var l ≤ lit_max P)%Z.

(** A decision procedure for [distinct_vars]. *)
Definition check_distinct (c : Cnf) : bool :=
  forallb (λ k, bool_decide (NoDup (var <$> clause_lits c k))) (seq 0 (nclauses c)).

(** A clause with a literal twice: (1 or 1 or 2) and (-1). *)
Definition repeated_literal : Cnf :=
  Cnf_of example_platform 2 [1; 1; 2; -1]%Z [0; 3].

(** A clause with a literal and its complement: (1 or -1 or 2) and (-1). *)
Definition complementary_literals : Cnf :=
  Cnf_of example_platform 2 [1; -1; 2; -1]%Z [0; 3].

(** Draws under which W1 makes variable 1 true and variable 2 false. *)
Definition first_true_draws : nat → Z := draws_of [0; 2147483647]%Z.

(** [flip(1.0/k)] on the draw [r]. *)
Definition flip_coin (P : Platform) (k r : Z) : bool := flip P (1 / inject_Z k) r.

(** The scan of W4 on draws, with the coin as a parameter: [heads k r] is the
    result of [flip(1.0/k)] when [rand()] returns [r].  [W4_draws] is the
    scan with [flip_coin]; what is proved of [W4_with] for every [heads]
    does not depend on how the comparison in [flip] rounds. *)
Definition W4_with (heads : Z → Z → bool) (draws : nat → Z) (c : Cnf)
  (all : bool) (ls : list Z) (st : W4_state) : Rand W4_state :=
  W4_scan (@rand_ret) (@rand_bind)
    (λ k, rand_bind (rand draws) (λ r, rand_ret (heads k r))) c all ls st.

(** The literal that the scan ends on when [rand()] returns the values of
    [rs] one after the other. *)
Definition W4_pick (heads : Z → Z → bool) (c : Cnf) (all : bool) (ls : list Z)
  (st : W4_state) (rs : list Z) : Z :=
  choice (W4_with heads (draws_of rs) c all ls st 0).1.

(** The number of sequences of [t] draws on which the scan ends on [l]. *)
Definition W4_count (P : Platform) (heads : Z → Z → bool) (c : Cnf) (all : bool)
  (ls : list Z) (st : W4_state) (t : nat) (l : Z) : nat :=
  length (List.filter (λ rs, bool_decide (W4_pick heads c all ls st rs = l))
            (draw_seqs P t)).

(** The number of values of a draw on which [flip(1.0/k)] is heads. *)
Definition heads_count (P : Platform) (heads : Z → Z → bool) (k : Z) : Z :=
  Z.of_nat (count_draws P (heads k)).

(** The coin [flip(1.0/k)] with the weights that the draws give it. *)
Definition draw_coin (P : Platform) (heads : Z → Z → bool) (k : Z) : Dist bool :=
  [(true, heads_count P heads k);
   (false, (RAND_MAX P + 1 - heads_count P heads k)%Z)].

(** The scan of W4 on the outcomes of the coin weighted by the draws. *)
Definition W4_draw_dist (P : Platform) (heads : Z → Z → bool) (c : Cnf)
  (all : bool) (ls : list Z) (st : W4_state) : Dist W4_state :=
  W4_scan (@dist_ret) (@dist_bind) (draw_coin P heads) c all ls st.

(** Each [flip(1.0/k)], for [k] up to [m], is heads on one value of a draw
    in [k]. *)
Definition exact_coins (P : Platform) (heads : Z → Z → bool) (m : nat) : Prop :=
  ∀ k, (1 ≤ k ≤ Z.of_nat m)%Z → (heads_count P heads k * k = RAND_MAX P + 1)%Z.

(** [st] with another [choice]. *)
Definition with_choice (st : W4_state) (ch : Z) : W4_state :=
  {| min_cost := min_cost st; k := k st; choice := ch |}.

(** A platform with [RAND_MAX] at 32767, the smallest value that C allows.
    There every draw is exact in [float] and no quotient [r / RAND_MAX] is
    within rounding of 1/2, so that [flip(1.0/2)] is heads on the same draws
    in [float] as in exact arithmetic: on the 16384 draws up to 16383. *)
Definition rand15_platform : Platform :=
  {| RAND_MAX := 32767; lit_nil := 0; clause_nil := 4294967295;
     lit_max := 2147483647;
     PARAM_initial_bias := (1 # 10)%Q; PARAM_non_greedy_choice := (65 # 100)%Q |}.

(** The clause (1 or 2) after W1 has made both variables false. *)
Definition two_false : Cnf :=
  cnf (solve_init rand15_platform (draws_of [32767; 32767]%Z)
         (Cnf_of rand15_platform 2 [1; 2]%Z [0])).

(** The clause (1 or 2 or 3) after W1 has made the three variables false. *)
Definition three_false : Cnf :=
  cnf (solve_init example_platform
         (draws_of [2147483647; 2147483647; 2147483647]%Z)
         (Cnf_of example_platform 3 [1; 2; 3]%Z [0])).

(** The number of sequences of three draws on which the scan of the clause
    (1 or 2 or 3) ends on [l]. *)
Definition three_false_count (heads : Z → Z → bool) (l : Z) : nat :=
  W4_count example_platform heads three_false false [1; 2; 3]%Z
    (W4_init example_platform) 3 l.

(** [d'] gives the draws of [d] at the positions from [a] up to [b]. *)
Definition same_draws (d d' : nat → Z) (a b : nat) : Prop :=
  ∀ j, a ≤ j < b → d' j = d j.

(** ** The generator behind [rand()]

    [srand] and [rand] share a hidden state.  [G] is the type of that state,
    [srand seed] the state that [srand(seed)] leaves, [rand_next g] the value
    that [rand()] returns from the state [g] and the state it leaves. *)

(** What the process holds when [main] calls [parse]: [FLAGS_seed] as
    [parse_flags] set it, the state of the generator, and what [time(NULL)]
    returns. *)
Record process (G : Type) := {
  seed_flag : Z;
  generator : G;
  clock : Z
}.
Arguments seed_flag {G} _.
Arguments generator {G} _.
Arguments clock {G} _.

(** The two statements in the body of the constructor:
    [if (FLAGS_seed == 0) FLAGS_seed = time(NULL); srand(FLAGS_seed);] *)
Definition Cnf_seeds {G} (srand : Z → G) (e : process G) : process G :=
  let seed := if decide (seed_flag e = 0%Z) then clock e else seed_flag e in
  {| seed_flag := seed; generator := srand seed; clock := clock e |}.

(** The values that the calls of [rand()] return, one after the other, from
    the state [g]. *)
Fixpoint rand_stream {G} (rand_next : G → Z * G) (g : G) (n : nat) : Z :=
  match n with
  | 0 => (rand_next g).1
  | S n' => rand_stream rand_next (rand_next g).2 n'
  end.

(** [main] in a process: [parse] builds the structure, whose constructor
    seeds the generator; [solve] draws from the generator as the constructor
    left it. *)
Definition main_process {G} (srand : Z → G) (rand_next : G → Z * G)
  (P : Platform) (clause_max : Z) (e : process G) (nv nc : Z) (toks : list Z)
  (fuel : nat) : exit_status :=
  match parse P clause_max nv nc toks with
  | UNSAT_EXIT => Exit_UNSAT
  | CHECK_failed => Exit_CHECK
  | ParseFuel => Still_running
  | ParseOk c =>
      if decide (clauses c = []) then SAT_EXIT c
      else
        let e' := Cnf_seeds srand e in
        match solve P (rand_stream rand_next (generator e')) fuel c with
        | Returned true s => SAT_EXIT (cnf s)
        | Returned false _ => Exit_0
        | Aborted => Exit_CHECK
        | Undefined => Exit_undefined
        | OutOfFuel => Still_running
        end
  end.

(** A generator for the examples: the state is a counter. *)
Definition example_srand (seed : Z) : Z := seed.
Definition example_rand (g : Z) : Z * Z :=
  (((g * 1103515245 + 12345) mod 2147483648)%Z, (g + 1)%Z).

(** ** Formulas as lists of clauses *)

(** The integers of a DIMACS clause section: each clause, then 0. *)
Fixpoint dimacs_tokens (cls : list (list Z)) : list Z :=
  match cls with
  | [] => []
  | cl :: cls' => cl ++ 0%Z :: dimacs_tokens cls'
  end.

(** The positions at which the clauses of [cls] start when they are laid out
    one after the other from position [n]. *)
Fixpoint clause_starts (n : nat) (cls : list (list Z)) : list nat :=
  match cls with
  | [] => []
  | cl :: cls' => n :: clause_starts (n + length cl) cls'
  end.

(** A clause as the reader accepts it: not empty, no literal 0. *)
Definition clause_ok (cl : list Z) : Prop := cl ≠ [] ∧ Forall (λ l, l ≠ 0%Z) cl.

(** The structure that holds the clauses [cls] over [nv] variables. *)
Definition Cnf_of_clauses (P : Platform) (nv : nat) (cls : list (list Z)) : Cnf :=
  Cnf_of P nv (concat cls) (clause_starts 0 cls).

(** What a run of the loop asks of the formula and of the platform: the
    random index and the costs fit (no more clauses than [RAND_MAX + 1] and
    than the largest [lit_t]), no clause is empty, no literal is the sentinel,
    and no clause holds two literals over one variable. *)
Record loop_ready (P : Platform) (c : Cnf) : Prop := {
  ready_rand : (Z.of_nat (nclauses c) ≤ RAND_MAX P + 1)%Z;
  ready_cost : (Z.of_nat (nclauses c) ≤ lit_max P)%Z;
  ready_clause : ∀ k, k < nclauses c → clause_lits c k ≠ [];
  ready_lit : ∀ k l, k < nclauses c → l ∈ clause_lits c k → l ≠ lit_nil P;
  ready_distinct : distinct_vars c
}.

(** No assignment satisfies every clause of [c]. *)
Definition unsatisfiable (c : Cnf) : Prop :=
  ∀ v : list bool, ∃ k, k < nclauses c ∧ is_satisfied (set_val v c) k = false.

(** (1) and (-1). *)
Definition contradiction : Cnf := Cnf_of example_platform 1 [1; -1]%Z [0; 1].

(** A platform whose [rand()] returns 0 or 1. *)
Definition coin_platform : Platform :=
  {| RAND_MAX := 1; lit_nil := 0; clause_nil := 4294967295;
     lit_max := 2147483647;
     PARAM_initial_bias := (1 # 10)%Q; PARAM_non_greedy_choice := (65 # 100)%Q |}.

(** (1) and (2) and (3). *)
Definition three_units : Cnf := Cnf_of coin_platform 3 [1; 2; 3]%Z [0; 1; 2].

(** A decision procedure for [loop_ready]. *)
Definition check_ready (P : Platform) (c : Cnf) : bool :=
  (Z.of_nat (nclauses c) <=? RAND_MAX P + 1)%Z &&
  (Z.of_nat (nclauses c) <=? lit_max P)%Z &&
  forallb (λ k, bool_decide (clause_lits c k ≠ []) &&
                forallb (λ l, bool_decide (l ≠ lit_nil P)) (clause_lits c k))
    (seq 0 (nclauses c)) &&
  check_distinct c.

(** (1 or 2) and (-1 or 2), which the draws 0, 0 satisfy at once. *)
Definition two_true : Cnf := Cnf_of example_platform 2 [1; 2; -1; 2]%Z [0; 2].

(** The clauses that the flip of [l] breaks: satisfied before it,
    unsatisfied after it. *)
Definition broken (P : Platform) (c : Cnf) (l : Z) : list nat :=
  List.filter (λ k, is_satisfied c k && negb (is_satisfied (W5 P c l) k))
    (seq 0 (nclauses c)).

(** The unsatisfied clauses with a literal over [v]: the ones that a flip
    of [v] satisfies. *)
Definition made (c : Cnf) (v : nat) : list nat :=
  List.filter (λ k, negb (is_satisfied c k) &&
                    existsb (λ x, bool_decide (var x = v)) (clause_lits c k))
    (seq 0 (nclauses c)).

(** ** The dumps of the structure *)

(** [oss << l] for a literal. *)
Definition print_lit (l : Z) : string :=
  if (l <? 0)%Z then append "-"%string (print_int (Z.abs_nat l))
  else print_int (Z.abs_nat l).

(** One turn of the loop of [dump_clause]; [last] is [end]. *)
Definition dump_lit (c : Cnf) (last : nat) (out : string) (itr : nat) : string :=
  let out := append out (print_lit (clauses c !!! itr)) in
  let out := if is_true c (clauses c !!! itr) then append out "*"%string else out in
  if decide (itr < last - 1) then append out " "%string else out.

Definition dump_clause (c : Cnf) (k : nat) : string :=
  let last := clause_end c k in
  append
    (fold_left (dump_lit c last)
       (seq (clause_begin c k) (last - clause_begin c k)) "("%string)
    ")"%string.

Definition dump_unsat (c : Cnf) : string :=
  fold_left
    (λ out fi,
       append out
         (append "["%string
            (append (print_int fi)
               (append "] "%string (append (dump_clause c fi) ", "%string)))))
    (f c) EmptyString.

(** The number of stars in a text. *)
Fixpoint stars (s : string) : nat :=
  match s with
  | EmptyString => 0
  | String a s' => (if Ascii.eqb a "*"%char then 1 else 0) + stars s'
  end.

(** * Properties *)

Lemma stack_NoDup P c : stack_ok P c → NoDup (f c).
Proof.
  intros [Hf _]. apply NoDup_alt. intros i j x Hi Hj.
  destruct (Hf _ _ Hi) as [_ Ei]. destruct (Hf _ _ Hj) as [_ Ej]. lia.
Qed.

Lemma stack_position P c k :
  stack_ok P c → k < nclauses c → w c !!! k ≠ clause_nil P →
  ∃ i, w c !!! k = Z.of_nat i ∧ f c !! i = Some k ∧ i < length (f c).
Proof.
  intros [Hf Hw] Hk Hn. destruct (Hw k Hk Hn) as [H0 Hl].
  exists (Z.to_nat (w c !!! k)). split; [lia|]. split; [done|].
  by eapply lookup_lt_Some.
Qed.

Lemma register_satisfied_eq P c k i b :
  length (w c) = nclauses c → stack_ok P c → k < nclauses c →
  w c !!! k = Z.of_nat i → w c !!! k ≠ clause_nil P →
  f c !! i = Some k → f c !! (length (f c) - 1) = Some b →
  f (register_satisfied P k c) = take (length (f c) - 1) (<[i := b]> (f c)) ∧
  w (register_satisfied P k c) = <[k := clause_nil P]> (<[b := w c !!! k]> (w c)).
Proof.
  intros Hlen Hs Hk Hi Hn Hfi Hb. unfold register_satisfied.
  destruct (decide _) as [|_]; [done|]. simpl.
  rewrite (list_lookup_total_correct _ _ _ Hb).
  destruct (stack_f _ _ Hs _ _ Hb) as [Hbn Hwb].
  assert (Hw1 : <[b := w c !!! k]> (w c) !!! k = Z.of_nat i).
  { destruct (decide (b = k)) as [->|Hne].
    - rewrite list_lookup_total_insert_eq; [done|lia].
    - by rewrite list_lookup_total_insert_ne. }
  rewrite Hw1, Nat2Z.id. rewrite (list_lookup_total_correct _ _ _ Hfi).
  split; [|done].
  apply list_eq. intros j.
  destruct (decide (j < length (f c) - 1)) as [Hj|Hj].
  - rewrite !lookup_take_lt by done.
    rewrite list_lookup_insert_ne by lia. done.
  - rewrite !lookup_take_ge by lia. done.
Qed.

Lemma register_satisfied_spec P c k :
  length (w c) = nclauses c → stack_ok P c → k < nclauses c →
  w c !!! k ≠ clause_nil P →
  let c' := register_satisfied P k c in
  let b := f c !!! (length (f c) - 1) in
  length (f c') + 1 = length (f c) ∧
  (∀ j, j ∈ f c' ↔ j ∈ f c ∧ j ≠ k) ∧
  w c' = <[k := clause_nil P]> (<[b := w c !!! k]> (w c)) ∧
  (b ≠ k → f c' !! Z.to_nat (w c !!! k) = Some b) ∧
  stack_ok P c'.
Proof.
  intros Hlen Hs Hk Hn c' b.
  destruct (stack_position _ _ _ Hs Hk Hn) as (i & Hi & Hfi & Hil).
  assert (Hb : f c !! (length (f c) - 1) = Some b).
  { apply list_lookup_lookup_total_lt. lia. }
  destruct (register_satisfied_eq P c k i b Hlen Hs Hk Hi Hn Hfi Hb) as [Ef Ew].
  fold c' in Ef, Ew.
  destruct (stack_f _ _ Hs _ _ Hb) as [Hbn Hwb].
  pose proof (stack_NoDup _ _ Hs) as Hnd.
  assert (Hbk : b ≠ k → i < length (f c) - 1).
  { intros Hne. destruct (decide (i = length (f c) - 1)) as [->|]; [congruence|lia]. }
  assert (Hkb : b = k → i = length (f c) - 1).
  { intros ->. eapply NoDup_lookup; eauto. }
  assert (Hlk : ∀ j x, f c' !! j = Some x ↔
            j < length (f c) - 1 ∧ if decide (j = i) then x = b else f c !! j = Some x).
  { intros j x. rewrite Ef. destruct (decide (j < length (f c) - 1)) as [Hj|Hj].
    - rewrite lookup_take_lt by done. destruct (decide (j = i)) as [->|Hji].
      + rewrite list_lookup_insert_eq by done. split; [by intros [= ->]|by intros [_ ->]].
      + rewrite list_lookup_insert_ne by done. tauto.
    - rewrite lookup_take_ge by lia. split; [done|lia]. }
  split; [|split; [|split; [|split]]].
  - rewrite Ef, length_take, length_insert. lia.
  - intros j. rewrite !list_elem_of_lookup. split.
    + intros [p Hp]. apply Hlk in Hp as [Hp1 Hp2]. destruct (decide (p = i)) as [->|Hpi].
      * subst j. split; [eauto|]. intros ?. specialize (Hkb ltac:(done)). lia.
      * split; [eauto|]. intros ->. apply Hpi. eapply NoDup_lookup; eauto.
    + intros [[p Hp] Hjk]. destruct (decide (p = length (f c) - 1)) as [->|Hpl].
      * assert (j = b) as -> by congruence. exists i. apply Hlk.
        split; [by apply Hbk|]. by rewrite decide_True.
      * exists p. apply Hlk. apply lookup_lt_Some in Hp as Hp'. split; [lia|].
        rewrite decide_False; [done|]. intros ->. congruence.
  - by rewrite Ew, Hi.
  - intros Hne. rewrite Hi, Nat2Z.id. apply Hlk. split; [by apply Hbk|].
    by rewrite decide_True.
  - assert (Hnc : nclauses c' = nclauses c).
    { unfold c', register_satisfied. by destruct (decide _). }
    split.
    + intros j x Hj. rewrite Hnc. apply Hlk in Hj as [Hj1 Hj2].
      destruct (decide (j = i)) as [->|Hji].
      * subst x. split; [done|]. rewrite Ew.
        assert (b ≠ k) by (intros ?; specialize (Hkb ltac:(done)); lia).
        rewrite list_lookup_total_insert_ne by done.
        rewrite list_lookup_total_insert_eq by lia. done.
      * destruct (stack_f _ _ Hs _ _ Hj2) as [Hx Hwx]. split; [done|].
        rewrite Ew. rewrite !list_lookup_total_insert_ne; [done| |].
        -- intros ->. rewrite Hwx in Hwb. lia.
        -- intros ->. rewrite Hwx in Hi. lia.
    + intros x. rewrite Hnc. intros Hx Hwx.
      destruct (decide (x = k)) as [->|Hxk].
      { rewrite Ew, list_lookup_total_insert_eq in Hwx; [done|].
        rewrite length_insert. lia. }
      rewrite Ew, list_lookup_total_insert_ne in Hwx by done.
      rewrite Ew, list_lookup_total_insert_ne by done.
      destruct (decide (x = b)) as [->|Hxb].
      * rewrite list_lookup_total_insert_eq by lia. rewrite Hi, Nat2Z.id.
        split; [lia|]. apply Hlk. split; [by apply Hbk|]. by rewrite decide_True.
      * rewrite list_lookup_total_insert_ne in Hwx by done.
        rewrite list_lookup_total_insert_ne by done.
        destruct (stack_w _ _ Hs _ Hx Hwx) as [H0 Hp]. split; [done|].
        apply Hlk. apply lookup_lt_Some in Hp as Hp'.
        assert (Z.to_nat (w c !!! x) ≠ length (f c) - 1).
        { intros E. rewrite E in Hp. congruence. }
        split; [lia|]. rewrite decide_False; [done|].
        intros E. rewrite E in Hp. congruence.
Qed.

Lemma NoDup_bounded_length (l : list nat) n :
  NoDup l → (∀ x, x ∈ l → x < n) → length l ≤ n.
Proof.
  intros Hnd Hb. trans (length (seq 0 n)); [|by rewrite length_seq].
  apply submseteq_length.
  apply NoDup_submseteq; [done|]. intros x Hx. apply elem_of_seq. specialize (Hb x Hx). lia.
Qed.

Lemma stack_length P c : stack_ok P c → length (f c) ≤ nclauses c.
Proof.
  intros Hs. apply NoDup_bounded_length; [by eapply stack_NoDup|].
  intros x [i Hi]%list_elem_of_lookup. by destruct (stack_f _ _ Hs _ _ Hi).
Qed.

Lemma stack_elem_not_nil P c k :
  wf_cnf P c → stack_ok P c → k ∈ f c → w c !!! k ≠ clause_nil P.
Proof.
  intros Hwf Hs [i Hi]%list_elem_of_lookup.
  destruct (stack_f _ _ Hs _ _ Hi) as [Hk ->].
  apply (wf_nil _ _ Hwf). pose proof (stack_length _ _ Hs).
  apply lookup_lt_Some in Hi. lia.
Qed.

Lemma register_unsatisfied_spec P c k :
  wf_cnf P c → stack_ok P c → k < nclauses c → w c !!! k = clause_nil P →
  let c' := register_unsatisfied P k c in
  f c' = f c ++ [k] ∧ w c' = <[k := Z.of_nat (length (f c))]> (w c) ∧
  w c' !!! k ≠ clause_nil P ∧ stack_ok P c'.
Proof.
  intros Hwf Hs Hk Hn c'. unfold c', register_unsatisfied.
  rewrite decide_True by done. simpl.
  assert (Hnotin : k ∉ f c).
  { intros Hin. by apply (stack_elem_not_nil _ _ _ Hwf Hs) in Hin. }
  assert (Hlt : length (f c) < nclauses c).
  { assert (length (k :: f c) ≤ nclauses c); [|simpl in *; lia].
    apply NoDup_bounded_length.
    - constructor; [done|]. by eapply stack_NoDup.
    - intros x [->|[i Hi]%list_elem_of_lookup]%elem_of_cons; [done|].
      by destruct (stack_f _ _ Hs _ _ Hi). }
  pose proof (wf_w _ _ Hwf) as Hlw.
  split; [done|]. split; [done|]. split.
  { rewrite list_lookup_total_insert_eq by lia. by apply (wf_nil _ _ Hwf). }
  split; simpl.
  - intros i x Hi. apply lookup_app_Some in Hi as [Hi|[Hge Hi]].
    + destruct (stack_f _ _ Hs _ _ Hi) as [Hx Hwx]. split; [done|].
      rewrite list_lookup_total_insert_ne; [done|].
      intros ->. apply Hnotin. by eapply list_elem_of_lookup_2.
    + apply list_lookup_singleton_Some in Hi as [Hi ->]. split; [done|].
      rewrite list_lookup_total_insert_eq by lia. f_equal. lia.
  - intros x Hx Hwx. destruct (decide (x = k)) as [->|Hxk].
    + rewrite list_lookup_total_insert_eq by lia. rewrite Nat2Z.id.
      split; [lia|]. rewrite lookup_app_r by lia. by rewrite Nat.sub_diag.
    + rewrite list_lookup_total_insert_ne in Hwx by done.
      rewrite list_lookup_total_insert_ne by done.
      destruct (stack_w _ _ Hs _ Hx Hwx) as [H0 Hp]. split; [done|].
      by apply lookup_app_l_Some.
Qed.

Lemma same_static_refl c : same_static c c.
Proof. by split. Qed.

Lemma same_static_trans c1 c2 c3 :
  same_static c1 c2 → same_static c2 c3 → same_static c1 c3.
Proof. intros [] []. split; congruence. Qed.

Lemma static_clause_lits c c' k : same_static c c' → clause_lits c' k = clause_lits c k.
Proof.
  intros [Hc Hs _ _ _ _]. unfold clause_lits, clause_begin, clause_end.
  by rewrite Hc, Hs.
Qed.

Lemma static_is_true c c' l : same_static c c' → is_true c' l = is_true c l.
Proof. intros [_ _ Hv _ _ _]. unfold is_true. by rewrite Hv. Qed.

Lemma static_invclause c c' l : same_static c c' → invclause c' l = invclause c l.
Proof. intros [_ _ _ Hi Hn _]. unfold invclause, inv_index. by rewrite Hi, Hn. Qed.

Lemma static_add_numtrue i d c : same_static c (add_numtrue i d c).
Proof. by split. Qed.

Lemma static_add_cost v d c : same_static c (add_cost v d c).
Proof. by split. Qed.

Lemma static_register_unsatisfied P k c : same_static c (register_unsatisfied P k c).
Proof. unfold register_unsatisfied. destruct (decide _); by split. Qed.

Lemma static_register_satisfied P k c : same_static c (register_satisfied P k c).
Proof. unfold register_satisfied. destruct (decide _); by split. Qed.

Lemma wf_transport P c c' :
  same_static c c' → length (cost c') = length (cost c) →
  length (numtrue c') = length (numtrue c) → length (w c') = length (w c) →
  wf_cnf P c → wf_cnf P c'.
Proof.
  intros Hst Hc Hn Hw [H1 H2 H3 H4 H5 H6 H7 H8].
  pose proof Hst as [Ec Es Ev Ei Env Enc].
  split; rewrite ?Enc, ?Env, ?Es, ?Ev, ?Ei, ?Hc, ?Hn, ?Hw; try done.
  intros k l Hk. rewrite (static_clause_lits _ _ _ Hst). unfold lit_ok.
  rewrite Env. by apply H2.
Qed.

Lemma stack_transport P c c' :
  f c' = f c → w c' = w c → nclauses c' = nclauses c →
  stack_ok P c → stack_ok P c'.
Proof. intros Hf Hw Hn []. split; rewrite Hf, Hw, Hn; done. Qed.

Lemma W5_lost_static P v c i : same_static c (W5_lost P v c i).
Proof.
  unfold W5_lost. repeat case_decide.
  - eapply same_static_trans; [apply static_add_numtrue|].
    eapply same_static_trans; [apply static_register_unsatisfied|].
    apply static_add_cost.
  - destruct (List.find _ _).
    + eapply same_static_trans; [apply static_add_numtrue|apply static_add_cost].
    + apply static_add_numtrue.
  - apply static_add_numtrue.
Qed.

Lemma W5_gained_static P v neg c i : same_static c (W5_gained P v neg c i).
Proof.
  unfold W5_gained. repeat case_decide.
  - eapply same_static_trans; [apply static_add_numtrue|].
    eapply same_static_trans; [apply static_register_satisfied|].
    apply static_add_cost.
  - destruct (List.find _ _).
    + eapply same_static_trans; [apply static_add_numtrue|apply static_add_cost].
    + apply static_add_numtrue.
  - apply static_add_numtrue.
Qed.

(** The part of a W5 step that the stack invariants see. *)
Lemma Mid_ext P c0 v e1 e2 c' :
  (∀ k, k < nclauses c0 → e1 k = e2 k) → Mid P c0 v e1 c' → Mid P c0 v e2 c'.
Proof.
  intros He [? ? Hn ? ?]. split; try done.
  intros k Hk. rewrite <- He by done. by apply Hn.
Qed.

(** A state that differs from a [Mid] state in [numtrue[i]], [cost] and,
    through one of the two stack operations, [f] and [w]. *)
Lemma Mid_lost P c0 v extra c' i :
  Mid P c0 v extra c' → i < nclauses c0 → 1 ≤ extra i →
  Mid P c0 v (λ k, if decide (k = i) then extra k - 1 else extra k)
    (W5_lost P v c' i).
Proof.
  intros [Hst Hwf Hnum Hstk Hun] Hi He.
  pose proof (st_nclauses _ _ Hst) as Enc.
  pose proof (wf_numtrue _ _ Hwf) as Hln.
  pose proof (wf_w _ _ Hwf) as Hlw.
  set (c1 := add_numtrue i (-1) c').
  assert (Hn1 : ∀ k, k < nclauses c0 → numtrue c1 !!! k =
            Z.of_nat (length (other_true c0 v k) +
                      (if decide (k = i) then extra k - 1 else extra k))).
  { intros k Hk. unfold c1, add_numtrue; simpl. destruct (decide (k = i)) as [->|Hne].
    - rewrite list_lookup_total_insert_eq by lia. rewrite Hnum by done. lia.
    - rewrite list_lookup_total_insert_ne by done. by apply Hnum. }
  assert (Hwf1 : wf_cnf P c1).
  { eapply wf_transport; [apply static_add_numtrue| | | |exact Hwf]; try done.
    unfold c1, add_numtrue; simpl. by rewrite length_insert. }
  assert (Hwi : w c' !!! i = clause_nil P).
  { destruct (decide (w c' !!! i = clause_nil P)) as [|Hne]; [done|].
    apply Hun in Hne; [|lia]. rewrite Hnum in Hne by done. lia. }
  unfold W5_lost. fold c1. case_decide as H0.
  - (* newly unsatisfied *)
    assert (Hs1 : stack_ok P c1) by (by apply (stack_transport P c' c1)).
    destruct (register_unsatisfied_spec P c1 i Hwf1 Hs1 ltac:(simpl; lia) Hwi)
      as (Ef & Ew & Hnn & Hs2).
    set (c2 := register_unsatisfied P i c1) in *.
    assert (Hst2 : same_static c1 c2) by apply static_register_unsatisfied.
    assert (En2 : numtrue c2 = numtrue c1).
    { unfold c2, register_unsatisfied. by destruct (decide _). }
    assert (Ec2 : cost c2 = cost c1).
    { unfold c2, register_unsatisfied. by destruct (decide _). }
    split.
    + eapply same_static_trans; [exact Hst|].
      eapply same_static_trans; [apply static_add_numtrue|].
      eapply same_static_trans; [exact Hst2|apply static_add_cost].
    + eapply wf_transport; [| | | |exact Hwf1].
      * eapply same_static_trans; [exact Hst2|apply static_add_cost].
      * unfold add_cost; simpl. by rewrite length_insert, Ec2.
      * simpl. by rewrite En2.
      * simpl. rewrite Ew. by rewrite length_insert.
    + intros k Hk. simpl. rewrite En2. by apply Hn1.
    + by apply (stack_transport P c2).
    + intros k Hk. simpl. rewrite En2, Ew.
      simpl in Hk. rewrite (st_nclauses _ _ Hst2) in Hk. simpl in Hk.
      destruct (decide (k = i)) as [->|Hne].
      * rewrite list_lookup_total_insert_eq by (simpl; lia).
        split; [done|]. intros _. apply (wf_nil _ _ Hwf).
        pose proof (stack_length _ _ Hs2) as Hl. rewrite Ef in Hl.
        rewrite length_app in Hl. simpl in Hl.
        rewrite (st_nclauses _ _ Hst2) in Hl. unfold c1 in *. simpl in *. lia.
      * rewrite list_lookup_total_insert_ne by done.
        unfold c1, add_numtrue; simpl.
        rewrite list_lookup_total_insert_ne by done. by apply Hun.
  - (* f and w stay *)
    assert (HM : Mid P c0 v (λ k, if decide (k = i) then extra k - 1 else extra k) c1).
    { split; try done.
      - eapply same_static_trans; [exact Hst|apply static_add_numtrue].
      - by apply (stack_transport P c' c1).
      - intros k Hk. change (w c1) with (w c').
        destruct (decide (k = i)) as [->|Hne].
        + rewrite Hwi. split; [done|]. intros E. done.
        + unfold c1, add_numtrue; simpl.
          rewrite list_lookup_total_insert_ne by done. by apply Hun. }
    assert (HMc : ∀ u d, Mid P c0 v (λ k, if decide (k = i) then extra k - 1 else extra k)
                     (add_cost u d c1)).
    { intros u d. destruct HM as [? ? ? ? ?]. split; try done.
      - eapply same_static_trans; [eassumption|apply static_add_cost].
      - eapply wf_transport; [apply static_add_cost| | | |eassumption]; try done.
        unfold add_cost; simpl. by rewrite length_insert.
      - by apply (stack_transport P c1). }
    case_decide; [destruct (List.find _ _)|]; auto.
Qed.

Lemma Mid_gained P c0 v neg extra c' i :
  Mid P c0 v extra c' → i < nclauses c0 →
  Mid P c0 v (λ k, if decide (k = i) then extra k + 1 else extra k)
    (W5_gained P v neg c' i).
Proof.
  intros [Hst Hwf Hnum Hstk Hun] Hi.
  pose proof (st_nclauses _ _ Hst) as Enc.
  pose proof (wf_numtrue _ _ Hwf) as Hln.
  pose proof (wf_w _ _ Hwf) as Hlw.
  set (c1 := add_numtrue i 1 c').
  assert (Hn1 : ∀ k, k < nclauses c0 → numtrue c1 !!! k =
            Z.of_nat (length (other_true c0 v k) +
                      (if decide (k = i) then extra k + 1 else extra k))).
  { intros k Hk. unfold c1, add_numtrue; simpl. destruct (decide (k = i)) as [->|Hne].
    - rewrite list_lookup_total_insert_eq by lia. rewrite Hnum by done. lia.
    - rewrite list_lookup_total_insert_ne by done. by apply Hnum. }
  assert (Hwf1 : wf_cnf P c1).
  { eapply wf_transport; [apply static_add_numtrue| | | |exact Hwf]; try done.
    unfold c1, add_numtrue; simpl. by rewrite length_insert. }
  assert (Hs1 : stack_ok P c1) by (by apply (stack_transport P c' c1)).
  unfold W5_gained. fold c1. case_decide as H1.
  - (* newly satisfied *)
    assert (Hwi : w c1 !!! i ≠ clause_nil P).
    { change (w c1) with (w c'). apply Hun; [lia|].
      rewrite Hnum by done. rewrite Hn1 in H1 by done.
      rewrite decide_True in H1 by done. lia. }
    destruct (register_satisfied_spec P c1 i ltac:(done) Hs1 ltac:(simpl; lia) Hwi)
      as (Hlen & Hmem & Ew & _ & Hs2).
    set (c2 := register_satisfied P i c1) in *.
    set (b := f c1 !!! (length (f c1) - 1)) in *.
    assert (Hst2 : same_static c1 c2) by apply static_register_satisfied.
    assert (En2 : numtrue c2 = numtrue c1).
    { unfold c2, register_satisfied. by destruct (decide _). }
    assert (Ec2 : cost c2 = cost c1).
    { unfold c2, register_satisfied. by destruct (decide _). }
    assert (Hbf : b ∈ f c').
    { destruct (stack_position P c1 i Hs1 ltac:(simpl; lia) Hwi) as (p & _ & _ & Hp).
      change (f c') with (f c1). apply list_elem_of_lookup_total_2. lia. }
    split.
    + eapply same_static_trans; [exact Hst|].
      eapply same_static_trans; [apply static_add_numtrue|].
      eapply same_static_trans; [exact Hst2|apply static_add_cost].
    + eapply wf_transport; [| | | |exact Hwf1].
      * eapply same_static_trans; [exact Hst2|apply static_add_cost].
      * unfold add_cost; simpl. by rewrite length_insert, Ec2.
      * simpl. by rewrite En2.
      * simpl. rewrite Ew. by rewrite !length_insert.
    + intros k Hk. simpl. rewrite En2. by apply Hn1.
    + by apply (stack_transport P c2).
    + intros k Hk. simpl. rewrite En2, Ew.
      simpl in Hk. rewrite (st_nclauses _ _ Hst2) in Hk. simpl in Hk.
      destruct (decide (k = i)) as [->|Hne].
      * rewrite list_lookup_total_insert_eq by (rewrite length_insert; simpl; lia).
        rewrite H1. split; done.
      * rewrite list_lookup_total_insert_ne by done.
        unfold c1 at 3, add_numtrue; simpl.
        rewrite (list_lookup_total_insert_ne (numtrue c')) by done.
        destruct (decide (k = b)) as [->|Hkb].
        -- rewrite list_lookup_total_insert_eq by (simpl; lia).
           split; [|done]. intros _.
           apply Hun; [done|]. by eapply stack_elem_not_nil.
        -- rewrite list_lookup_total_insert_ne by done. by apply Hun.
  - (* f and w stay *)
    assert (Hwi : w c' !!! i = clause_nil P).
    { destruct (decide (w c' !!! i = clause_nil P)) as [|Hne]; [done|].
      apply Hun in Hne; [|lia]. rewrite Hn1 in H1 by done.
      rewrite decide_True in H1 by done. rewrite Hnum in Hne by done. lia. }
    assert (HM : Mid P c0 v (λ k, if decide (k = i) then extra k + 1 else extra k) c1).
    { split; try done.
      - eapply same_static_trans; [exact Hst|apply static_add_numtrue].
      - intros k Hk. change (w c1) with (w c').
        destruct (decide (k = i)) as [->|Hne].
        + rewrite Hwi. split; [done|]. intros E. rewrite Hn1 in E by done.
          rewrite decide_True in E by done. lia.
        + unfold c1, add_numtrue; simpl.
          rewrite list_lookup_total_insert_ne by done. by apply Hun. }
    assert (HMc : ∀ u d, Mid P c0 v (λ k, if decide (k = i) then extra k + 1 else extra k)
                     (add_cost u d c1)).
    { intros u d. destruct HM as [? ? ? ? ?]. split; try done.
      - eapply same_static_trans; [eassumption|apply static_add_cost].
      - eapply wf_transport; [apply static_add_cost| | | |eassumption]; try done.
        unfold add_cost; simpl. by rewrite length_insert.
      - by apply (stack_transport P c1). }
    case_decide; [destruct (List.find _ _)|]; auto.
Qed.

Lemma fold_lost_Mid P c0 v R : ∀ c' base,
  (∀ i, i ∈ R → i < nclauses c0) →
  Mid P c0 v (λ k, base k + count_occ Nat.eq_dec R k) c' →
  Mid P c0 v base (fold_left (W5_lost P v) R c').
Proof.
  induction R as [|i R IH]; intros c' base Hin HM; simpl.
  - eapply Mid_ext; [|exact HM]. intros k _. simpl. lia.
  - apply IH; [intros j Hj; apply Hin; by right|].
    eapply Mid_ext; [|apply Mid_lost; [exact HM|apply Hin; by left|]].
    + intros k _. simpl. destruct (Nat.eq_dec i k), (decide (k = i)); try congruence; lia.
    + simpl. destruct (Nat.eq_dec i i); [lia|done].
Qed.

Lemma fold_gained_Mid P c0 v neg R : ∀ c' base,
  (∀ i, i ∈ R → i < nclauses c0) →
  Mid P c0 v base c' →
  Mid P c0 v (λ k, base k + count_occ Nat.eq_dec R k) (fold_left (W5_gained P v neg) R c').
Proof.
  induction R as [|i R IH]; intros c' base Hin HM; simpl.
  - eapply Mid_ext; [|exact HM]. intros k _. simpl. lia.
  - eapply Mid_ext; [|apply IH; [intros j Hj; apply Hin; by right|]].
    2: { apply Mid_gained; [exact HM|apply Hin; by left]. }
    intros k _. simpl. destruct (Nat.eq_dec i k), (decide (k = i)); try congruence; lia.
Qed.

Lemma fold_lost_static P v R : ∀ c, same_static c (fold_left (W5_lost P v) R c).
Proof.
  induction R as [|i R IH]; intros c; simpl; [apply same_static_refl|].
  eapply same_static_trans; [apply W5_lost_static|apply IH].
Qed.

Lemma fold_gained_static P v neg R : ∀ c, same_static c (fold_left (W5_gained P v neg) R c).
Proof.
  induction R as [|i R IH]; intros c; simpl; [apply same_static_refl|].
  eapply same_static_trans; [apply W5_gained_static|apply IH].
Qed.

(** Literals over one variable. *)
Lemma var_eq_cases l x : var l = var x → l = x ∨ l = (- x)%Z.
Proof. unfold var. lia. Qed.

Lemma var_opp x : var (- x) = var x.
Proof. unfold var. lia. Qed.

Lemma is_true_opp c x : x ≠ 0%Z → is_true c (- x) = negb (is_true c x).
Proof.
  intros Hx. unfold is_true. rewrite var_opp.
  destruct (val c !!! var x); simpl;
    destruct (Z.ltb_spec 0 x), (Z.ltb_spec 0 (-x)), (Z.ltb_spec x 0),
      (Z.ltb_spec (-x) 0); simpl; try done; lia.
Qed.

Lemma count_true_split c v k x :
  (∀ l, l ∈ clause_lits c k → l ≠ 0%Z) → var x = v → is_true c x = true →
  count_true c k =
  length (other_true c v k) + count_occ Z.eq_dec (clause_lits c k) x.
Proof.
  intros Hnz Hv Hx. unfold count_true, other_true.
  assert (Hx0 : x ≠ 0%Z).
  { intros ->. unfold is_true in Hx. simpl in Hx.
    by destruct (val c !!! var 0%Z). }
  induction (clause_lits c k) as [|l ls IH]; [done|].
  assert (Hl : l ≠ 0%Z) by (apply Hnz; by left).
  specialize (IH (λ l' H, Hnz l' (list_elem_of_further _ _ _ H))).
  simpl. destruct (Z.eq_dec l x) as [->|Hne].
  - rewrite Hx. simpl. rewrite bool_decide_false by (by intros ?).
    simpl. rewrite IH. lia.
  - destruct (decide (var l = v)) as [Hvl|Hvl].
    + rewrite bool_decide_false by (by intros ?). rewrite andb_false_r.
      assert (l = (- x)%Z) as ->.
      { destruct (var_eq_cases l x); [congruence|done|done]. }
      rewrite is_true_opp, Hx by done. simpl. 
      destruct (Z.eq_dec x (- x)%Z); [lia|]. done.
    + rewrite bool_decide_true by done. rewrite andb_true_r.
      destruct (Z.eq_dec x l); [congruence|].
      destruct (is_true c l); simpl; rewrite IH; lia.
Qed.

Lemma is_true_flip_val c v l :
  v < length (val c) → l ≠ 0%Z →
  is_true (flip_val c v) l =
  if decide (var l = v) then negb (is_true c l) else is_true c l.
Proof.
  intros Hv Hl. unfold is_true, flip_val; simpl. destruct (decide (var l = v)) as [<-|Hne].
  - rewrite list_lookup_total_insert_eq by done.
    destruct (val c !!! var l); simpl;
      destruct (Z.ltb_spec 0 l), (Z.ltb_spec l 0); simpl; try done; lia.
  - by rewrite list_lookup_total_insert_ne.
Qed.

Lemma other_true_flip_val c v k :
  v < length (val c) → (∀ l, l ∈ clause_lits c k → l ≠ 0%Z) →
  other_true (flip_val c v) v k = other_true c v k.
Proof.
  intros Hv Hnz. unfold other_true.
  change (clause_lits (flip_val c v) k) with (clause_lits c k).
  induction (clause_lits c k) as [|l ls IH]; [done|].
  specialize (IH (λ l' H, Hnz l' (list_elem_of_further _ _ _ H))).
  assert (Hl : l ≠ 0%Z) by (apply Hnz; by left).
  simpl. rewrite is_true_flip_val by done. rewrite IH.
  destruct (decide (var l = v)) as [E|E].
  - rewrite bool_decide_false by (by intros ?). by rewrite !andb_false_r.
  - done.
Qed.

Lemma W5_pos_true c choice :
  choice ≠ 0%Z →
  let pos := if decide (val c !!! var choice = (0 <? choice)%Z) then choice
             else (- choice)%Z in
  is_true c pos = true ∧ var pos = var choice ∧ pos ≠ 0%Z.
Proof.
  intros Hc. simpl. case_decide as E.
  - split; [|done]. unfold is_true. rewrite E.
    destruct (Z.ltb_spec 0 choice), (Z.ltb_spec choice 0); simpl; try done; lia.
  - split; [|split; [apply var_opp|lia]].
    rewrite is_true_opp by done. unfold is_true.
    destruct (val c !!! var choice);
      destruct (Z.ltb_spec 0 choice), (Z.ltb_spec choice 0); simpl; try done; lia.
Qed.

Lemma inv_ok_bound c l i : inv_ok c → lit_ok c l → i ∈ invclause c l → i < nclauses c.
Proof.
  intros Hinv Hl Hi. specialize (Hinv l Hl i).
  apply list_elem_of_In, (count_occ_In Nat.eq_dec) in Hi.
  destruct (decide (i < nclauses c)); [done|lia].
Qed.

Lemma lit_ok_opp c l : lit_ok c l → lit_ok c (- l).
Proof. intros [H1 H2]. split; [lia|by rewrite var_opp]. Qed.

Lemma static_count_true c c' k : same_static c c' → count_true c' k = count_true c k.
Proof.
  intros Hst. unfold count_true. rewrite (static_clause_lits _ _ _ Hst).
  f_equal. apply filter_ext. intros l. by apply static_is_true.
Qed.

Lemma W5_Inv P c choice :
  Inv P c → lit_ok c choice →
  Inv P (W5 P c choice) ∧ same_formula c (W5 P c choice) ∧
  val (W5 P c choice) = <[var choice := negb (val c !!! var choice)]> (val c).
Proof.
  intros [Hwf Hinv Hnum Hstk Hun] [Hc0 Hcv].
  unfold W5.
  destruct (W5_pos_true c choice Hc0) as (Hpt & Hpv & Hp0).
  set (pos := if decide (val c !!! var choice = (0 <? choice)%Z) then choice
              else (- choice)%Z) in *.
  set (v := var choice) in *.
  fold (flip_val c v).
  set (c0 := flip_val c v).
  assert (Hvl : v < length (val c)) by (rewrite (wf_val _ _ Hwf); lia).
  assert (Hnz : ∀ k, k < nclauses c → ∀ l, l ∈ clause_lits c k → l ≠ 0%Z).
  { intros k Hk l Hl. by destruct (wf_lits _ _ Hwf k l Hk Hl). }
  assert (Hlp : lit_ok c pos) by (split; [done|by rewrite Hpv]).
  assert (Hln : lit_ok c (- pos)) by (by apply lit_ok_opp).
  assert (Hwf0 : wf_cnf P c0).
  { destruct Hwf as [H1 H2 H3 H4 H5 H6 H7 H8]. split; try done.
    all: unfold c0, flip_val; simpl; rewrite ?length_insert; done. }
  assert (HM0 : Mid P c0 v (λ k, 0 + count_occ Nat.eq_dec (invclause c0 pos) k) c0).
  { split; [apply same_static_refl|done| |by apply (stack_transport P c)|done].
    intros k Hk. change (numtrue c0) with (numtrue c).
    change (invclause c0 pos) with (invclause c pos).
    change (nclauses c0) with (nclauses c) in Hk.
    rewrite Hnum by done. f_equal.
    rewrite (count_true_split c v k pos (Hnz k Hk) Hpv Hpt).
    unfold c0. rewrite (other_true_flip_val c v k Hvl (Hnz k Hk)).
    rewrite (Hinv pos Hlp k). by rewrite decide_True. }
  apply fold_lost_Mid in HM0.
  2: { intros i Hi. exact (inv_ok_bound c pos i Hinv Hlp Hi). }
  set (c1 := fold_left (W5_lost P v) (invclause c0 pos) c0) in *.
  assert (Hst1 : same_static c0 c1) by apply fold_lost_static.
  apply (fold_gained_Mid P c0 v (- pos) (invclause c1 (- pos))) in HM0.
  2: { intros i. rewrite (static_invclause _ _ _ Hst1).
       intros Hi. exact (inv_ok_bound c (- pos) i Hinv Hln Hi). }
  set (c2 := fold_left (W5_gained P v (- pos)) (invclause c1 (- pos)) c1) in *.
  destruct HM0 as [Hst2 Hwf2 Hnum2 Hstk2 Hun2].
  split; [|split].
  - split; try done.
    + intros l Hl k. rewrite (static_invclause _ _ _ Hst2), (static_clause_lits _ _ _ Hst2).
      rewrite (st_nclauses _ _ Hst2). apply Hinv.
      destruct Hl as [Hl1 Hl2]. split; [done|].
      by rewrite (st_nvars _ _ Hst2) in Hl2.
    + intros k Hk. rewrite (st_nclauses _ _ Hst2) in Hk.
      rewrite Hnum2 by done. f_equal. rewrite (static_count_true _ _ _ Hst2).
      change (nclauses c0) with (nclauses c) in Hk.
      rewrite (count_true_split c0 v k (- pos)%Z); [| |by rewrite var_opp|].
      * rewrite (static_invclause _ _ _ Hst1).
        change (invclause c0 (- pos)) with (invclause c (- pos)).
        rewrite (Hinv _ Hln k). by rewrite decide_True.
      * apply (Hnz k Hk).
      * unfold c0. rewrite is_true_flip_val by (done || lia).
        rewrite decide_True by (by rewrite var_opp).
        rewrite is_true_opp, Hpt by done. done.
  - destruct Hst2. by split.
  - by rewrite (st_val _ _ Hst2).
Qed.

Lemma W1_frame_refl c : W1_frame c c.
Proof. by split. Qed.

Lemma W1_frame_trans c1 c2 c3 : W1_frame c1 c2 → W1_frame c2 c3 → W1_frame c1 c3.
Proof. intros [] []. split; congruence. Qed.

Lemma frame_clause_lits c c' k : W1_frame c c' → clause_lits c' k = clause_lits c k.
Proof.
  intros [Hc Hs _ _ _]. unfold clause_lits, clause_begin, clause_end.
  by rewrite Hc, Hs.
Qed.

Lemma frame_is_true c c' l : W1_frame c c' → is_true c' l = is_true c l.
Proof. intros [_ _ Hv _ _]. unfold is_true. by rewrite Hv. Qed.

Lemma frame_count_true c c' k : W1_frame c c' → count_true c' k = count_true c k.
Proof.
  intros Hfr. unfold count_true. rewrite (frame_clause_lits _ _ _ Hfr).
  f_equal. apply filter_ext. intros l. by apply frame_is_true.
Qed.

Lemma frame_lit_ok c c' l : W1_frame c c' → lit_ok c' l ↔ lit_ok c l.
Proof. intros [_ _ _ Hn _]. unfold lit_ok. by rewrite Hn. Qed.

(** The first loop of W1 writes [val] only. *)
Lemma W1_val_spec P draws ls : ∀ c n,
  let '(c', n') := fold_left (W1_val P draws) ls (c, n) in
  clauses c' = clauses c ∧ start c' = start c ∧ cost c' = cost c ∧
  invclause_storage c' = invclause_storage c ∧ f c' = f c ∧
  numtrue c' = numtrue c ∧ w c' = w c ∧ nvars c' = nvars c ∧
  nclauses c' = nclauses c ∧ length (val c') = length (val c).
Proof.
  induction ls as [|i ls IH]; intros c n; simpl; [done|].
  specialize (IH (set_val (<[i := flip P (PARAM_initial_bias P) (draws n)]> (val c)) c) (S n)).
  destruct (fold_left _ _ _) as [c' n']. simpl in IH.
  rewrite length_insert in IH. done.
Qed.

Lemma inv_index_lt c l : lit_ok c l → inv_index c l < 2 * nvars c + 1.
Proof. intros [_ H]. unfold inv_index, var in *. lia. Qed.

Lemma inv_index_inj c l l' :
  lit_ok c l → lit_ok c l' → inv_index c l = inv_index c l' → l = l'.
Proof. intros [_ H] [_ H']. unfold inv_index, var in *. lia. Qed.

Lemma invclause_push c l i l' :
  length (invclause_storage c) = 2 * nvars c + 1 → lit_ok c l → lit_ok c l' →
  invclause (push_invclause l i c) l' =
  if decide (l' = l) then invclause c l ++ [i] else invclause c l'.
Proof.
  intros Hlen Hl Hl'. unfold invclause at 1, push_invclause; simpl.
  change (inv_index (set_invclause_storage _ c) l') with (inv_index c l').
  destruct (decide (l' = l)) as [->|Hne].
  - rewrite list_lookup_total_insert_eq; [done|].
    rewrite Hlen. by apply inv_index_lt.
  - rewrite list_lookup_total_insert_ne; [done|].
    intros E. apply Hne. symmetry. by eapply inv_index_inj.
Qed.

Lemma last_cons_default {A} (xs : list A) a d d' :
  List.last (a :: xs) d = List.last (a :: xs) d'.
Proof. revert a. induction xs as [|x xs IH]; intros a; [done|]. simpl in *. apply IH. Qed.

(** The loop of W1 over the literals of clause [i]. *)
Lemma W1_lits_spec i ls : ∀ c tl,
  i < length (numtrue c) →
  length (invclause_storage c) = 2 * nvars c + 1 →
  (∀ l, l ∈ ls → lit_ok c l) →
  let '(c', tl') := fold_left (W1_lit i) ls (c, tl) in
  W1_frame c c' ∧ cost c' = cost c ∧ f c' = f c ∧ w c' = w c ∧
  length (invclause_storage c') = 2 * nvars c + 1 ∧
  numtrue c' =
    <[i := (numtrue c !!! i + Z.of_nat (length (List.filter (is_true c) ls)))%Z]>
      (numtrue c) ∧
  (∀ l, lit_ok c l → ∀ k,
     count_occ Nat.eq_dec (invclause c' l) k =
     count_occ Nat.eq_dec (invclause c l) k +
     if decide (k = i) then count_occ Z.eq_dec ls l else 0) ∧
  tl' = List.last ((λ l, Z.of_nat (var l)) <$> List.filter (is_true c) ls) tl.
Proof.
  induction ls as [|l ls IH]; intros c tl Hi Hlen Hok; simpl.
  - split; [apply W1_frame_refl|]. repeat split; try done.
    + rewrite Z.add_0_r. symmetry. apply list_insert_id.
      by apply list_lookup_lookup_total_lt.
    + intros l _ k. case_decide; lia.
  - assert (Hl : lit_ok c l) by (apply Hok; by left).
    set (c1 := push_invclause l i c).
    assert (Hfr1 : W1_frame c c1) by (by split).
    assert (Ht : is_true c1 l = is_true c l) by (by apply frame_is_true).
    rewrite Ht.
    set (st := if is_true c l then (add_numtrue i 1 c1, Z.of_nat (var l)) else (c1, tl)).
    assert (Hst : st = (if is_true c l then add_numtrue i 1 c1 else c1,
                        if is_true c l then Z.of_nat (var l) else tl)).
    { unfold st. by destruct (is_true c l). }
    rewrite Hst. clear Hst st.
    set (c2 := if is_true c l then add_numtrue i 1 c1 else c1).
    set (tl2 := if is_true c l then Z.of_nat (var l) else tl).
    assert (Hfr2 : W1_frame c c2) by (unfold c2; destruct (is_true c l); by split).
    assert (Hinv2 : invclause_storage c2 = invclause_storage c1)
      by (unfold c2; by destruct (is_true c l)).
    assert (Hn2 : numtrue c2 =
              <[i := (numtrue c !!! i + if is_true c l then 1 else 0)%Z]> (numtrue c)).
    { unfold c2. destruct (is_true c l); simpl; [done|].
      rewrite Z.add_0_r. symmetry. apply list_insert_id.
      by apply list_lookup_lookup_total_lt. }
    specialize (IH c2 tl2).
    destruct (fold_left (W1_lit i) ls (c2, tl2)) as [c' tl'].
    destruct IH as (Hfr & Hc & Hf & Hw & Hl' & Hn & Hiv & Htl).
    { rewrite Hn2. by rewrite length_insert. }
    { rewrite Hinv2. unfold c1, push_invclause; simpl.
      rewrite length_insert. by rewrite (fr_nvars _ _ Hfr2). }
    { intros l' Hl'. apply (frame_lit_ok _ _ _ Hfr2). apply Hok. by right. }
    assert (Hfilt : ∀ xs, List.filter (is_true c2) xs = List.filter (is_true c) xs).
    { intros xs. apply filter_ext. intros x. by apply frame_is_true. }
    rewrite Hfilt in Hn, Htl.
    split; [by eapply W1_frame_trans|].
    split; [rewrite Hc; unfold c2; by destruct (is_true c l)|].
    split; [rewrite Hf; unfold c2; by destruct (is_true c l)|].
    split; [rewrite Hw; unfold c2; by destruct (is_true c l)|].
    split; [by rewrite Hl', (fr_nvars _ _ Hfr2)|].
    split; [|split].
    + rewrite Hn, Hn2. rewrite list_lookup_total_insert_eq by done.
      rewrite list_insert_insert_eq. f_equal.
      destruct (is_true c l); simpl; lia.
    + intros l' Hl'2 k. rewrite Hiv by (by apply (frame_lit_ok _ _ _ Hfr2)).
      assert (E : invclause c2 l' = invclause c1 l').
      { unfold invclause, inv_index. by rewrite Hinv2, (fr_nvars _ _ Hfr2). }
      rewrite E. unfold c1. rewrite invclause_push by done.
      destruct (decide (l' = l)) as [->|Hne].
      * rewrite count_occ_app. simpl.
        destruct (Z.eq_dec l l); [|done].
        destruct (Nat.eq_dec i k), (decide (k = i)); try congruence; lia.
      * destruct (Z.eq_dec l l'); [congruence|]. done.
    + rewrite Htl. unfold tl2. destruct (is_true c l); simpl; [|done].
      destruct (List.filter (is_true c) ls) eqn:E; [done|].
      rewrite fmap_cons. apply last_cons_default.
Qed.

Lemma filter_seq_S (p : nat → bool) i :
  length (List.filter p (seq 0 (S i))) =
  length (List.filter p (seq 0 i)) + if p i then 1 else 0.
Proof.
  rewrite seq_S, List.filter_app, length_app. simpl.
  destruct (p i); simpl; lia.
Qed.

Lemma W1_clause_inv P cv i c' :
  W1_inv P cv i c' → i < nclauses cv → W1_inv P cv (S i) (W1_clause P c' i).
Proof.
  intros [Hfr Hwf Hinv Hnum Hstk Hun Hcost] Hi.
  pose proof (fr_nclauses _ _ Hfr) as Enc.
  pose proof (fr_nvars _ _ Hfr) as Env.
  unfold W1_clause.
  pose proof (W1_lits_spec i (clause_lits c' i) c' (lit_nil P)) as Hsp.
  destruct (fold_left (W1_lit i) (clause_lits c' i) (c', lit_nil P)) as [c2 tl].
  destruct Hsp as (Hfr2 & Hc2 & Hf2 & Hw2 & Hl2 & Hn2 & Hiv2 & Htl).
  { rewrite (wf_numtrue _ _ Hwf). lia. }
  { apply (wf_inv _ _ Hwf). }
  { intros l Hl. apply (wf_lits _ _ Hwf i); [lia|done]. }
  assert (Hfilt : List.filter (is_true c') (clause_lits c' i) =
                  List.filter (is_true cv) (clause_lits cv i)).
  { rewrite (frame_clause_lits _ _ _ Hfr). apply filter_ext.
    intros l. by apply frame_is_true. }
  rewrite Hfilt in Hn2, Htl.
  rewrite (Hnum i Hi), decide_False in Hn2 by lia. fold (count_true cv i) in Hn2.
  rewrite Z.add_0_l in Hn2.
  assert (Hni : numtrue c2 !!! i = Z.of_nat (count_true cv i)).
  { rewrite Hn2. rewrite list_lookup_total_insert_eq; [done|].
    rewrite (wf_numtrue _ _ Hwf). lia. }
  assert (Hnk : ∀ k, k ≠ i → numtrue c2 !!! k = numtrue c' !!! k).
  { intros k Hk. rewrite Hn2. by rewrite list_lookup_total_insert_ne. }
  assert (Hfr' : W1_frame cv c2) by (by eapply W1_frame_trans).
  assert (Hwf2 : wf_cnf P c2).
  { destruct Hwf as [H1 H2 H3 H4 H5 H6 H7 H8].
    pose proof (λ k, frame_clause_lits c' c2 k Hfr2) as Hcl.
    pose proof (λ l, frame_lit_ok c' c2 l Hfr2) as Hlo.
    destruct Hfr2 as [E1 E2 E3 E4 E5].
    split; rewrite ?E2, ?E3, ?E4, ?E5, ?Hc2, ?Hw2; try done.
    - intros k l Hk. rewrite Hcl. intros Hl. apply Hlo. by apply (H2 k).
    - rewrite Hn2. by rewrite length_insert. }
  assert (Hstk2 : stack_ok P c2).
  { apply (stack_transport P c' c2); try done. apply (fr_nclauses _ _ Hfr2). }
  assert (Hwi : w c2 !!! i = clause_nil P).
  { rewrite Hw2. destruct (decide (w c' !!! i = clause_nil P)) as [|Hne]; [done|].
    apply Hun in Hne; [|done]. lia. }
  assert (Hinv' : ∀ c3, invclause_storage c3 = invclause_storage c2 →
            nvars c3 = nvars c2 →
            ∀ l, lit_ok cv l → ∀ k,
            count_occ Nat.eq_dec (invclause c3 l) k =
            if decide (k < S i) then count_occ Z.eq_dec (clause_lits cv k) l else 0).
  { intros c3 E3 E4 l Hl k.
    replace (invclause c3 l) with (invclause c2 l)
      by (unfold invclause, inv_index; by rewrite E3, E4).
    rewrite Hiv2 by (by apply (frame_lit_ok _ _ _ Hfr)).
    rewrite (Hinv l Hl k). rewrite (frame_clause_lits _ _ _ Hfr).
    repeat case_decide; subst; try lia. }
  assert (Hnum' : ∀ c3, numtrue c3 = numtrue c2 → ∀ k, k < nclauses cv →
            numtrue c3 !!! k = if decide (k < S i) then Z.of_nat (count_true cv k) else 0%Z).
  { intros c3 E3 k Hk. rewrite E3. destruct (decide (k = i)) as [->|Hne].
    - rewrite Hni. by rewrite decide_True by lia.
    - rewrite Hnk, (Hnum k Hk) by done. repeat case_decide; try done; lia. }
  assert (Hsole : ∀ u, sole_true cv u i = true →
            ∃ l, List.filter (is_true cv) (clause_lits cv i) = [l] ∧ var l = u).
  { intros u Hu. unfold sole_true in Hu. apply bool_decide_eq_true in Hu.
    destruct (List.filter (is_true cv) (clause_lits cv i)) as [|l [|l' ls']];
      simpl in Hu; try done. exists l. split; [done|]. congruence. }
  case_decide as H0.
  - (* no true literal: onto the stack *)
    destruct (register_unsatisfied_spec P c2 i Hwf2 Hstk2
                ltac:(rewrite (fr_nclauses _ _ Hfr'); lia) Hwi)
      as (Ef & Ew & Hnn & Hs3).
    unfold register_unsatisfied in *. rewrite decide_True in * by done.
    set (c3 := set_f _ _) in *.
    split.
    + destruct Hfr' as [E1 E2 E3 E4 E5]. by split.
    + destruct Hwf2 as [H1 H2 H3 H4 H5 H6 H7 H8]. split; try done.
      unfold c3; simpl. by rewrite length_insert.
    + by apply Hinv'.
    + by apply Hnum'.
    + done.
    + intros k Hk. unfold c3; simpl. destruct (decide (k = i)) as [->|Hne].
      * split; [intros _; split; [lia|]|intros _; done]. lia.
      * rewrite list_lookup_total_insert_ne by done.
        rewrite Hw2, (Hun k Hk). split; intros [? ?]; split; auto; lia.
    + intros u Hu. rewrite filter_seq_S. change (cost c3) with (cost c2).
      rewrite Hc2, (Hcost u Hu).
      destruct (sole_true cv u i) eqn:E; [|lia].
      apply Hsole in E as (l & El & _). unfold count_true in Hni.
      rewrite El in Hni. simpl in Hni. lia.
  - case_decide as H1.
    + (* one true literal: its variable pays *)
      destruct (List.filter (is_true cv) (clause_lits cv i)) as [|l [|l' ls']] eqn:El;
        try (unfold count_true in Hni; rewrite El in Hni; simpl in Hni; lia).
      simpl in Htl. subst tl. rewrite Nat2Z.id.
      assert (Hlv : var l ≤ nvars cv).
      { assert (l ∈ clause_lits cv i) as Hin.
        { apply list_elem_of_In. eapply (proj1 (filter_In _ _ _)).
          rewrite El. by left. }
        rewrite <- (frame_clause_lits _ _ _ Hfr) in Hin.
        destruct (wf_lits _ _ Hwf i l ltac:(lia) Hin) as [_ Hv]. lia. }
      split.
      * destruct Hfr' as [E1 E2 E3 E4 E5]. by split.
      * destruct Hwf2 as [H1' H2 H3 H4 H5 H6 H7 H8]. split; try done.
        unfold add_cost; simpl. by rewrite length_insert.
      * by apply Hinv'.
      * by apply Hnum'.
      * by apply (stack_transport P c2).
      * intros k Hk. change (w (add_cost (var l) 1 c2)) with (w c2).
        destruct (decide (k = i)) as [->|Hne].
        -- rewrite Hwi. split; [done|]. intros [_ E0]. rewrite Hni in H0. lia.
        -- rewrite Hw2, (Hun k Hk). split; intros [? ?]; split; auto; lia.
      * intros u Hu. rewrite filter_seq_S. unfold add_cost; simpl.
        unfold sole_true at 2. rewrite El. simpl.
        destruct (decide (u = var l)) as [->|Hne].
        -- rewrite list_lookup_total_insert_eq
             by (rewrite (wf_cost _ _ Hwf2), (fr_nvars _ _ Hfr'); lia).
           rewrite Hc2, (Hcost _ Hu). rewrite bool_decide_true by done. lia.
        -- rewrite list_lookup_total_insert_ne by done.
           rewrite Hc2, (Hcost _ Hu). rewrite bool_decide_false by congruence. lia.
    + (* two or more *)
      split; try done.
      * by apply Hinv'.
      * by apply Hnum'.
      * intros k Hk. destruct (decide (k = i)) as [->|Hne].
        -- rewrite Hwi. split; [done|]. intros [_ E0]. rewrite Hni in H0. lia.
        -- rewrite Hw2, (Hun k Hk). split; intros [? ?]; split; auto; lia.
      * intros u Hu. rewrite filter_seq_S, Hc2, (Hcost u Hu).
        destruct (sole_true cv u i) eqn:E; [|lia].
        apply Hsole in E as (l & El & _). unfold count_true in Hni.
        rewrite El in Hni. simpl in Hni. lia.
Qed.

Lemma fold_W1_clause_inv P cv m : ∀ i c',
  W1_inv P cv i c' → i + m ≤ nclauses cv →
  W1_inv P cv (i + m) (fold_left (W1_clause P) (seq i m) c').
Proof.
  induction m as [|m IH]; intros i c' HI Hle; simpl.
  - by rewrite Nat.add_0_r.
  - replace (i + S m) with (S i + m) by lia. apply IH; [|lia].
    apply W1_clause_inv; [done|lia].
Qed.

Lemma critical_sole_true c u k :
  numtrue_ok c → k < nclauses c → critical c u k = sole_true c u k.
Proof.
  intros Hnum Hk. unfold critical, sole_true.
  destruct (bool_decide (var <$> _ = [u])) eqn:E; [|by rewrite andb_false_r].
  rewrite andb_true_r. apply bool_decide_eq_true in E.
  apply bool_decide_eq_true. rewrite (Hnum k Hk). unfold count_true.
  apply (f_equal length) in E. rewrite length_fmap in E. simpl in E. lia.
Qed.

Lemma frame_sole_true c c' u k : W1_frame c c' → sole_true c' u k = sole_true c u k.
Proof.
  intros Hfr. unfold sole_true. rewrite (frame_clause_lits _ _ _ Hfr).
  erewrite filter_ext; [done|]. intros l. by apply frame_is_true.
Qed.

Lemma cost_ok_sole_true c :
  numtrue_ok c →
  (∀ u, u ≤ nvars c →
     cost c !!! u = Z.of_nat (length (List.filter (sole_true c u) (seq 0 (nclauses c))))) →
  cost_ok c.
Proof.
  intros Hnum H u Hu. rewrite (H u Hu). unfold break_count. do 2 f_equal.
  apply filter_ext_in. intros k Hk. symmetry. apply critical_sole_true; [done|].
  apply in_seq in Hk. lia.
Qed.

Lemma W1_val_drawn P draws l : ∀ c n,
  (fold_left (W1_val P draws) l (c, n)).2 = n + length l.
Proof. induction l as [|x l IH]; intros c n; simpl; [lia|]. rewrite IH. lia. Qed.

Lemma lookup_total_replicate_lt {A} `{!Inhabited A} n (x : A) i :
  i < n → replicate n x !!! i = x.
Proof. intros Hi. apply list_lookup_total_correct. by apply lookup_replicate_2. Qed.

Lemma W1_establishes P draws c n :
  wf_cnf P c → fresh P c →
  Inv P (W1 P draws c n).1 ∧ cost_ok (W1 P draws c n).1 ∧
  same_formula c (W1 P draws c n).1 ∧ (W1 P draws c n).2 = n + nvars c.
Proof.
  intros Hwf Hfresh. unfold W1.
  pose proof (W1_val_spec P draws (seq 1 (nvars c)) c n) as Hv.
  pose proof (W1_val_drawn P draws (seq 1 (nvars c)) c n) as Hn.
  destruct (fold_left (W1_val P draws) (seq 1 (nvars c)) (c, n)) as [cv n'].
  destruct Hv as (E1 & E2 & E3 & E4 & E5 & E6 & E7 & E8 & E9 & E10).
  simpl in Hn. rewrite length_seq in Hn. simpl.
  destruct Hfresh as [F1 F2 F3 F4 F5 F6].
  assert (Hwfv : wf_cnf P cv).
  { destruct Hwf as [H1 H2 H3 H4 H5 H6 H7 H8].
    split; rewrite ?E2, ?E3, ?E4, ?E6, ?E7, ?E8, ?E9, ?E10; try done.
    intros k l Hk Hl. unfold lit_ok. rewrite E8. apply (H2 k); [done|].
    unfold clause_lits, clause_begin, clause_end in *. by rewrite E1, E2 in Hl. }
  assert (HI : W1_inv P cv 0 cv).
  { split; try done.
    - intros l Hl k. unfold invclause. rewrite E4, F3.
      rewrite lookup_total_replicate_lt; [done|].
      rewrite <- E8. by apply inv_index_lt.
    - intros k Hk. rewrite E6, F5. rewrite E9 in Hk.
      by rewrite lookup_total_replicate_lt.
    - split.
      + intros i k. by rewrite E5, F4.
      + intros k Hk. rewrite E7, F6. rewrite E9 in Hk.
        by rewrite lookup_total_replicate_lt.
    - intros k Hk. rewrite E7, F6. rewrite E9 in Hk.
      rewrite lookup_total_replicate_lt by done. split; [done|lia].
    - intros u Hu. simpl. rewrite E3, F2.
      rewrite lookup_total_replicate_lt; [done|]. rewrite E8 in Hu. lia. }
  pose proof (fold_W1_clause_inv P cv (nclauses cv) 0 cv HI ltac:(lia)) as HF.
  simpl in HF. set (c' := fold_left _ _ _) in *.
  destruct HF as [Hfr Hwf' Hinv Hnum Hstk Hun Hcost].
  assert (Hnum' : numtrue_ok c').
  { intros k Hk. rewrite (fr_nclauses _ _ Hfr) in Hk.
    rewrite (Hnum k Hk), decide_True by done. by rewrite (frame_count_true _ _ _ Hfr). }
  split; [|split; [|split]].
  - split; try done.
    + intros l Hl k. apply (frame_lit_ok _ _ _ Hfr) in Hl.
      rewrite (Hinv l Hl k), (fr_nclauses _ _ Hfr), (frame_clause_lits _ _ _ Hfr). done.
    + intros k Hk. rewrite (Hnum' k Hk). rewrite (fr_nclauses _ _ Hfr) in Hk.
      rewrite (Hun k Hk), (frame_count_true _ _ _ Hfr). split; [|lia]. intros [_ ->]. done.
  - apply cost_ok_sole_true; [done|]. intros u Hu.
    rewrite (fr_nvars _ _ Hfr) in Hu. rewrite (Hcost u Hu), (fr_nclauses _ _ Hfr).
    do 2 f_equal. apply filter_ext. intros k. symmetry. by apply frame_sole_true.
  - destruct Hfr as [G1 G2 G3 G4 G5]. split; [|split; [|split]]; congruence.
  - lia.
Qed.

Lemma W3_loop_bound fuel draws d size : ∀ n q n',
  0 < size → W3_loop fuel draws d size n = Some (q, n') → q < size.
Proof.
  induction fuel as [|fuel IH]; intros n q n' Hs; simpl; [done|].
  case_decide as Hq; [by apply IH|]. intros [= <- <-]. lia.
Qed.

Lemma W4_draws_cons P draws c all l ls st n :
  W4_draws P draws c all (l :: ls) st n =
  let st1 := W4_pre c all st l in
  if decide (W4_candidate c all st1 l) then
    W4_draws P draws c all ls
      {| min_cost := min_cost st1; k := (k st1 + 1)%Z;
         choice := if flip P (1 / inject_Z (k st1)) (draws n) then l else choice st1 |}
      (S n)
  else W4_draws P draws c all ls st1 n.
Proof.
  unfold W4_draws at 1. simpl. unfold rand_bind at 1. unfold W4_lit.
  fold (W4_pre c all st l). unfold W4_candidate. simpl.
  case_decide; [|done].
  unfold rand_bind, rand_flip, rand, rand_ret. done.
Qed.

(** In a run on draws, the scan of W4 leaves in [choice] a literal of the
    clause, or what was there before. *)
Lemma W4_draws_choice P draws c all ls : ∀ st n,
  let st' := (W4_draws P draws c all ls st n).1 in
  choice st' = choice st ∨ choice st' ∈ ls.
Proof.
  induction ls as [|l ls IH]; intros st n; [by left|].
  rewrite W4_draws_cons. simpl.
  assert (E1 : choice (W4_pre c all st l) = choice st).
  { unfold W4_pre. by case_decide. }
  case_decide as Hc.
  - match goal with |- context [W4_draws P draws c all ls ?s ?m] =>
      destruct (IH s m) as [E|E] end; [|right; by right].
    simpl in E. rewrite E. destruct (flip P _ _); [right; by left|left; done].
  - destruct (IH (W4_pre c all st l) n) as [E|E]; [left; congruence|right; by right].
Qed.

Lemma W2_W5_Next_Inv P draws fuel s s' :
  Inv P (cnf s) → W2_W5 P draws fuel s = Next s' →
  Inv P (cnf s') ∧ same_formula (cnf s) (cnf s') ∧
  ∃ l, lit_ok (cnf s) l ∧ cnf s' = W5 P (cnf s) l ∧
       flipped s' = flipped s ++ [var l].
Proof.
  intros HI. unfold W2_W5. case_decide as Hf; [done|].
  case_decide as Hd; [done|].
  destruct (W3_loop _ _ _ _ _) as [[q n]|] eqn:E3; [|done].
  unfold rand_flip at 1, rand_bind, rand, rand_ret.
  pose proof (W4_draws_choice P draws (cnf s)
                (flip P (PARAM_non_greedy_choice P) (draws n))
                (clause_lits (cnf s) (f (cnf s) !!! q)) (W4_init P) (S n)) as Hch.
  unfold W4. destruct (W4_draws _ _ _ _ _ _ _) as [st n3]. simpl in Hch.
  case_decide as Hnil; [done|]. intros [= <-]. simpl.
  destruct Hch as [Hch|Hch]; [done|].
  assert (Hq : q < length (f (cnf s))).
  { eapply W3_loop_bound; [|exact E3]. destruct (f (cnf s)); [done|simpl; lia]. }
  assert (HK : f (cnf s) !!! q < nclauses (cnf s)).
  { apply list_lookup_lookup_total_lt in Hq.
    by destruct (stack_f _ _ (Inv_stack _ _ HI) _ _ Hq). }
  assert (Hok : lit_ok (cnf s) (choice st)).
  { by apply (wf_lits _ _ (Inv_wf _ _ HI) _ _ HK). }
  destruct (W5_Inv P (cnf s) (choice st) HI Hok) as (H1 & H2 & _).
  split; [done|]. split; [done|]. by exists (choice st).
Qed.

Lemma same_formula_refl c : same_formula c c.
Proof. by repeat split. Qed.

Lemma same_formula_trans c1 c2 c3 :
  same_formula c1 c2 → same_formula c2 c3 → same_formula c1 c3.
Proof. intros (?&?&?&?) (?&?&?&?). repeat split; congruence. Qed.

Lemma loop_head_Inv P draws fuel i : ∀ s s',
  Inv P (cnf s) → loop_head P draws fuel i s = Some s' →
  Inv P (cnf s') ∧ same_formula (cnf s) (cnf s').
Proof.
  induction i as [|i IH]; intros s s' HI; simpl.
  - intros [= <-]. split; [done|apply same_formula_refl].
  - destruct (W2_W5 _ _ _ _) as [| s1 | | |] eqn:E; try done.
    destruct (W2_W5_Next_Inv _ _ _ _ _ HI E) as (H1 & H2 & _).
    intros Hl. destruct (IH _ _ H1 Hl) as [H3 H4].
    split; [done|by eapply same_formula_trans].
Qed.

Lemma solve_init_Inv P draws c :
  wf_cnf P c → fresh P c →
  Inv P (cnf (solve_init P draws c)) ∧ cost_ok (cnf (solve_init P draws c)) ∧
  same_formula c (cnf (solve_init P draws c)).
Proof.
  intros Hwf Hfr. destruct (W1_establishes P draws c 0 Hwf Hfr) as (H1 & H2 & H3 & _).
  unfold solve_init. by destruct (W1 P draws c 0).
Qed.

Lemma unsat_members P c k :
  Inv P c → k ∈ f c ↔ k < nclauses c ∧ numtrue c !!! k = 0%Z.
Proof.
  intros [Hwf _ _ Hstk Hun]. split.
  - intros Hk. pose proof (stack_elem_not_nil _ _ _ Hwf Hstk Hk) as Hn.
    apply list_elem_of_lookup in Hk as [i Hi].
    destruct (stack_f _ _ Hstk _ _ Hi) as [Hlt _]. split; [done|]. by apply Hun.
  - intros [Hlt H0]. apply Hun in H0; [|done].
    destruct (stack_w _ _ Hstk _ Hlt H0) as [_ Hl]. by eapply list_elem_of_lookup_2.
Qed.

Lemma unsat_count P c :
  Inv P c →
  length (f c) =
  length (List.filter (λ k, bool_decide (numtrue c !!! k = 0%Z)) (seq 0 (nclauses c))).
Proof.
  intros HI. apply Permutation_length. apply NoDup_Permutation.
  - eapply stack_NoDup, Inv_stack, HI.
  - apply NoDup_ListNoDup, List.NoDup_filter, seq_NoDup.
  - intros k. rewrite (unsat_members P c k HI).
    rewrite list_elem_of_In, filter_In, in_seq, bool_decide_eq_true. lia.
Qed.

Lemma Inv_all_satisfied P c :
  Inv P c → f c = [] → ∀ k, k < nclauses c → is_satisfied c k = true.
Proof.
  intros HI Hf k Hk. unfold is_satisfied.
  assert (Hn : numtrue c !!! k ≠ 0%Z).
  { intros H0. assert (k ∈ f c) as Hin by (by apply (unsat_members P c k HI)).
    rewrite Hf in Hin. by apply not_elem_of_nil in Hin. }
  rewrite (Inv_numtrue _ _ HI k Hk) in Hn. unfold count_true in Hn.
  destruct (List.filter (is_true c) (clause_lits c k)) as [|l ls] eqn:E; [done|].
  apply existsb_exists. exists l.
  apply (filter_In (is_true c) l (clause_lits c k)). rewrite E. by left.
Qed.

Lemma solve_loop_Returned P draws fuel : ∀ s b s',
  Inv P (cnf s) → solve_loop P draws fuel s = Returned b s' →
  b = true ∧ f (cnf s') = [] ∧ Inv P (cnf s') ∧ same_formula (cnf s) (cnf s').
Proof.
  induction fuel as [|fuel IH]; intros s b s' HI; simpl; [done|].
  destruct (W2_W5 _ _ _ _) as [s1| s1 | | |] eqn:E; try done.
  - intros [= <- <-]. unfold W2_W5 in E. case_decide as Hf.
    + injection E as <-. split; [done|]. split; [done|]. split; [done|].
      apply same_formula_refl.
    + case_decide; [done|]. destruct (W3_loop _ _ _ _ _) as [[q n]|]; [|done].
      destruct (rand_flip _ _ _ _) as [a n1].
      destruct (W4 _ _ _ _ _ _) as [st n2]. by case_decide.
  - intros Hs. destruct (W2_W5_Next_Inv _ _ _ _ _ HI E) as (H1 & H2 & _).
    destruct (IH _ _ _ H1 Hs) as (? & ? & ? & ?).
    split; [done|]. split; [done|]. split; [done|]. by eapply same_formula_trans.
Qed.

Lemma check_wf_sound P c : check_wf P c = true → wf_cnf P c.
Proof.
  unfold check_wf. rewrite !andb_true_iff, !bool_decide_eq_true, !forallb_forall.
  intros [[[[[[[H1 H2] H3] H4] H5] H6] H7] H8]. split; try done.
  - intros k l Hk Hl. specialize (H2 k ltac:(apply in_seq; lia)).
    rewrite forallb_forall in H2. specialize (H2 l ltac:(by apply list_elem_of_In)).
    apply andb_true_iff in H2 as [Ha Hb]. split; by eapply bool_decide_eq_true.
  - intros i Hi. specialize (H8 i ltac:(apply in_seq; lia)).
    by eapply bool_decide_eq_true.
Qed.

Lemma Cnf_of_fresh P nv cls st : fresh P (Cnf_of P nv cls st).
Proof. by split. Qed.

(** ** The two stack operations *)

(** C5.  For a clause [k] with [w[k]] not nil, under the f/w invariant,
    [register_satisfied(k)] shrinks [f] by exactly one and removes [k] from
    it, sets [w[k]] to nil, writes the old [w[k]] into the reverse index of
    the last element of [f] before it overwrites [w[k]] (so the result is the
    two writes in that order), puts that last element into the vacated slot,
    and leaves [f[w[j]] = j] for every [j] still in [f]; this covers the case
    where [k] is the last element of [f]. *)
Theorem register_satisfied_removes P c k :
  length (w c) = nclauses c → stack_ok P c → k < nclauses c →
  w c !!! k ≠ clause_nil P →
  let c' := register_satisfied P k c in
  let back := f c !!! (length (f c) - 1) in
  length (f c') + 1 = length (f c) ∧
  (k ∉ f c') ∧
  (∀ j, j ∈ f c' ↔ j ∈ f c ∧ j ≠ k) ∧
  w c' !!! k = clause_nil P ∧
  w c' = <[k := clause_nil P]> (<[back := w c !!! k]> (w c)) ∧
  (back ≠ k → f c' !! Z.to_nat (w c !!! k) = Some back) ∧
  (∀ j, j ∈ f c' → f c' !! Z.to_nat (w c' !!! j) = Some j) ∧
  stack_ok P c'.
Proof.
  intros Hlen Hs Hk Hn c' back.
  destruct (register_satisfied_spec P c k Hlen Hs Hk Hn)
    as (H1 & H2 & H3 & H4 & H5).
  fold c' in H1, H2, H3, H4, H5. fold back in H3, H4.
  split; [done|]. split; [by intros [_ ?]%H2|]. split; [done|].
  split; [|split; [done|split; [done|split; [|done]]]].
  - rewrite H3. apply list_lookup_total_insert_eq. rewrite length_insert. lia.
  - intros j [i Hi]%list_elem_of_lookup.
    destruct (stack_f _ _ H5 _ _ Hi) as [_ ->]. by rewrite Nat2Z.id.
Qed.

(** The stack of S4 after W1 and one flip holds clause 2 alone, which is the
    last element. *)
Lemma register_satisfied_removes_witness :
  let c := W5 example_platform (cnf (solve_init example_platform S4_draws S4)) 3 in
  (length (w c) = nclauses c ∧ stack_ok example_platform c ∧ 2 < nclauses c ∧
   w c !!! 2 ≠ clause_nil example_platform) ∧
  length (f (register_satisfied example_platform 2 c)) + 1 = length (f c) ∧
  w (register_satisfied example_platform 2 c) !!! 2 = clause_nil example_platform.
Proof.
  intros c.
  assert (HI : Inv example_platform c).
  { apply W5_Inv.
    - apply solve_init_Inv; [|apply Cnf_of_fresh].
      apply check_wf_sound; vm_compute; reflexivity.
    - split; [discriminate|]. vm_compute. lia. }
  assert (H : length (w c) = nclauses c ∧ stack_ok example_platform c ∧
              2 < nclauses c ∧ w c !!! 2 ≠ clause_nil example_platform).
  { split; [vm_compute; reflexivity|]. split; [apply HI|].
    split; [vm_compute; lia|vm_compute; discriminate]. }
  split; [exact H|].
  destruct H as (H1 & H2 & H3 & H4).
  destruct (register_satisfied_removes example_platform c 2 H1 H2 H3 H4)
    as (G1 & _ & _ & G4 & _).
  split; [exact G1|exact G4].
Defined.

(** ** The invariants at the loop boundary *)

(** C3.  At every arrival at W2, after W1 and after any number of turns of
    the loop, for every clause [k]: [numtrue[k]] is the number of true
    literals of [k] under [val], counting multiplicity; [w[k]] is not nil
    exactly when [numtrue[k] = 0]; when [w[k]] is not nil, [f[w[k]] = k];
    and [f] has no duplicates, so that its length is the number of clauses
    with [numtrue = 0]. *)
Theorem loop_boundary_numtrue_stack P draws fuel c i s :
  wf_cnf P c → fresh P c →
  loop_head P draws fuel i (solve_init P draws c) = Some s →
  (∀ k, k < nclauses c →
     numtrue (cnf s) !!! k = Z.of_nat (count_true (cnf s) k)) ∧
  (∀ k, k < nclauses c →
     w (cnf s) !!! k ≠ clause_nil P ↔ numtrue (cnf s) !!! k = 0%Z) ∧
  (∀ k, k < nclauses c → w (cnf s) !!! k ≠ clause_nil P →
     f (cnf s) !! Z.to_nat (w (cnf s) !!! k) = Some k) ∧
  NoDup (f (cnf s)) ∧
  length (f (cnf s)) =
    length (List.filter (λ k, bool_decide (numtrue (cnf s) !!! k = 0%Z))
              (seq 0 (nclauses c))).
Proof.
  intros Hwf Hfr Hl.
  destruct (solve_init_Inv P draws c Hwf Hfr) as (HI0 & _ & Hsf0).
  destruct (loop_head_Inv _ _ _ _ _ _ HI0 Hl) as [HI Hsf].
  assert (Enc : nclauses (cnf s) = nclauses c).
  { destruct Hsf0 as (_ & _ & _ & E0), Hsf as (_ & _ & _ & E1). congruence. }
  rewrite <- Enc.
  split; [apply HI|]. split; [apply HI|]. split.
  { intros k Hk Hn. by destruct (stack_w _ _ (Inv_stack _ _ HI) k Hk Hn). }
  split; [eapply stack_NoDup, HI|by apply (unsat_count P)].
Qed.

(** S4 at its second arrival at W2, after the flip of variable 3. *)
Lemma loop_boundary_numtrue_stack_witness :
  ∃ s,
  (wf_cnf example_platform S4 ∧ fresh example_platform S4 ∧
   loop_head example_platform S4_draws 5 1
     (solve_init example_platform S4_draws S4) = Some s) ∧
  flipped s = [3] ∧ f (cnf s) = [2] ∧
  (∀ k, k < nclauses S4 →
     numtrue (cnf s) !!! k = Z.of_nat (count_true (cnf s) k)) ∧
  NoDup (f (cnf s)).
Proof.
  assert (Hw : wf_cnf example_platform S4)
    by (apply check_wf_sound; vm_compute; reflexivity).
  pose proof (Cnf_of_fresh example_platform 4 [1; 2; 3; -2; -3; 4]%Z [0; 2; 3]) as Hf.
  destruct (loop_head example_platform S4_draws 5 1
              (solve_init example_platform S4_draws S4)) as [s|] eqn:E;
    [|vm_compute in E; discriminate].
  exists s. split; [split; [exact Hw|split; [exact Hf|reflexivity]]|].
  destruct (loop_boundary_numtrue_stack _ _ _ _ _ _ Hw Hf E) as (G1 & _ & _ & G4 & _).
  vm_compute in E. injection E as <-.
  split; [reflexivity|split; [reflexivity|split; [exact G1|exact G4]]].
Defined.

(** ** The result of [solve] *)

(** C1.  Whenever [solve] returns, it returns true, the stack [f] is empty,
    the formula is the one it was given, and every clause of it has a true
    literal under the returned [val]. *)
Theorem solve_returns_model P draws fuel c b s :
  wf_cnf P c → fresh P c →
  solve P draws fuel c = Returned b s →
  b = true ∧ f (cnf s) = [] ∧ same_formula c (cnf s) ∧
  ∀ k, k < nclauses c → is_satisfied (cnf s) k = true.
Proof.
  intros Hwf Hfr Hs. unfold solve in Hs.
  destruct (solve_init_Inv P draws c Hwf Hfr) as (HI0 & _ & Hsf0).
  destruct (solve_loop_Returned _ _ _ _ _ _ HI0 Hs) as (Hb & Hf & HI & Hsf).
  split; [done|]. split; [done|].
  split; [by eapply same_formula_trans|].
  intros k Hk. apply (Inv_all_satisfied P); [done..|].
  destruct Hsf0 as (_ & _ & _ & E0), Hsf as (_ & _ & _ & E1). lia.
Qed.


(** S4 under [S4_draws]: two flips, then all three clauses are satisfied. *)
Lemma solve_returns_model_witness :
  ∃ s,
  (wf_cnf example_platform S4 ∧ fresh example_platform S4 ∧
   solve example_platform S4_draws 20 S4 = Returned true s) ∧
  val (cnf s) = [false; true; true; true; true] ∧
  ∀ k, k < nclauses S4 → is_satisfied (cnf s) k = true.
Proof.
  assert (Hw : wf_cnf example_platform S4)
    by (apply check_wf_sound; vm_compute; reflexivity).
  pose proof (Cnf_of_fresh example_platform 4 [1; 2; 3; -2; -3; 4]%Z [0; 2; 3]) as Hf.
  destruct (solve example_platform S4_draws 20 S4) as [b s| | |] eqn:E;
    try (vm_compute in E; discriminate).
  destruct (solve_returns_model _ _ _ _ _ _ Hw Hf E) as (-> & _ & _ & G).
  exists s. split; [split; [exact Hw|split; [exact Hf|reflexivity]]|].
  vm_compute in E. injection E as <-.
  split; [reflexivity|exact G].
Defined.

(** ** The printer *)

Lemma print_var_negated c c' st i :
  nvars c' = nvars c → val c' !!! i = negb (val c !!! i) →
  print_var c st i = print_var_spec c' st i.
Proof.
  intros En Ev. destruct st as [j out]. unfold print_var, print_var_spec.
  rewrite En, Ev. by destruct (val c !!! i).
Qed.

(** What [print_assignment] prints is what the printer of the spec prints
    for the complement of [val]. *)
Lemma print_assignment_complement c :
  length (val c) = nvars c + 1 →
  print_assignment c = print_assignment_spec (set_val (negb <$> val c) c).
Proof.
  intros Hlen. unfold print_assignment, print_assignment_spec. f_equal.
  change (nvars (set_val (negb <$> val c) c)) with (nvars c).
  assert (H : ∀ l st, (∀ i, i ∈ l → i < length (val c)) →
    fold_left (print_var c) l st =
    fold_left (print_var_spec (set_val (negb <$> val c) c)) l st).
  { induction l as [|i l IH]; intros st Hl; [done|]. simpl.
    rewrite IH by (intros; apply Hl; by right). f_equal.
    apply print_var_negated; [done|]. simpl.
    apply (list_lookup_total_fmap negb (val c) i). apply Hl. by left. }
  apply H. intros i Hi%elem_of_seq. lia.
Qed.

(** C6, at one variable that is true: [print_assignment] prints the literal
    -1, where a variable that is true is to be printed as 1. *)
Theorem print_assignment_true_variable :
  print_assignment (set_val [false; true] (Cnf_new example_platform 1 0)) =
  append "v -1 0"%string endl.
Proof. reflexivity. Qed.

(** Twelve variables, the even ones true: two lines, ten literals on the
    first, with each sign the opposite of the value. *)
Example print_assignment_twelve :
  print_assignment
    (set_val [false; false; true; false; true; false; true; false; true;
              false; true; false; true] (Cnf_new example_platform 12 0)) =
  append "v 1 -2 3 -4 5 -6 7 -8 9 -10"%string
    (append endl (append "v 11 -12 0"%string endl)).
Proof. reflexivity. Qed.

(** ** The reader *)

Lemma read_clause_spec toks : ∀ c b,
  ∃ ls, Forall (λ t, t ≠ 0%Z) ls ∧
    let '(eof, rest, c1, rl) := read_clause toks c b in
    c1 = set_clauses (clauses c ++ ls) c ∧
    rl = (b || bool_decide (ls ≠ [])) ∧
    ((eof = true ∧ toks = ls ∧ rest = []) ∨
     (eof = false ∧ toks = ls ++ 0%Z :: rest)).
Proof.
  induction toks as [|t toks IH]; intros c b; simpl.
  - exists []. split; [constructor|]. rewrite app_nil_r, orb_false_r.
    split; [by destruct c|]. split; [done|]. by left.
  - case_decide as Ht.
    + subst t. exists []. split; [constructor|]. rewrite app_nil_r, orb_false_r.
      split; [by destruct c|]. split; [done|]. by right.
    + destruct (IH (set_clauses (clauses c ++ [t]) c) true) as (ls & Hnz & H).
      exists (t :: ls). split; [by constructor|].
      destruct (read_clause toks _ true) as [[[eof rest] c1] rl].
      destruct H as (E1 & E2 & E3). simpl in E1.
      rewrite <- app_assoc in E1. simpl in E1.
      split; [done|]. split; [by rewrite orb_true_r|].
      destruct E3 as [(-> & -> & ->)|(-> & ->)]; [by left|by right].
Qed.

Lemma parse_clauses_empty_clause fuel : ∀ toks c,
  length toks < fuel → has_empty_clause toks →
  parse_clauses fuel toks c = UNSAT_EXIT.
Proof.
  induction fuel as [|fuel IH]; intros toks c Hlen (i & Hi & Hprev); [lia|].
  simpl. destruct (read_clause_spec toks c false) as (ls & Hnz & H).
  destruct (read_clause toks c false) as [[[eof rest] c1] rl].
  destruct H as (-> & -> & [(-> & -> & ->)|(-> & ->)]).
  { (* the end of the file, with no 0 read *)
    apply list_elem_of_lookup_2 in Hi.
    rewrite list.Forall_forall in Hnz. by apply Hnz in Hi. }
  assert (Hge : length ls ≤ i).
  { destruct (decide (i < length ls)) as [Hlt|]; [|lia].
    rewrite lookup_app_l in Hi by done. apply list_elem_of_lookup_2 in Hi.
    rewrite list.Forall_forall in Hnz. by apply Hnz in Hi. }
  destruct ls as [|t ls].
  - rewrite decide_True; [done|]. simpl. rewrite app_nil_r. done.
  - rewrite decide_False.
    2: { simpl. rewrite length_app. simpl. lia. }
    simpl. apply IH.
    + simpl in Hlen. rewrite length_app in Hlen. simpl in Hlen. lia.
    + assert (Hne : i ≠ length (t :: ls)).
      { intros ->. destruct Hprev as [Hp|Hp]; [done|].
        rewrite lookup_app_l in Hp by (simpl; lia).
        apply list_elem_of_lookup_2 in Hp.
        rewrite list.Forall_forall in Hnz. by apply Hnz in Hp. }
      exists (i - length (t :: ls) - 1). split.
      * rewrite lookup_app_r in Hi by done.
        rewrite lookup_cons_ne_0 in Hi by lia.
        rewrite <- Hi. f_equal. lia.
      * destruct (decide (i - length (t :: ls) - 1 = 0)) as [|Hn0]; [by left|right].
        destruct Hprev as [Hp|Hp]; [simpl in *; lia|].
        rewrite lookup_app_r in Hp by lia.
        rewrite lookup_cons_ne_0 in Hp by lia.
        rewrite <- Hp. f_equal. lia.
Qed.

(** ** Fuel *)

Lemma W3_loop_mono draws d size fuel : ∀ fuel' n r,
  W3_loop fuel draws d size n = Some r → fuel ≤ fuel' →
  W3_loop fuel' draws d size n = Some r.
Proof.
  induction fuel as [|fuel IH]; intros fuel' n r; simpl; [done|].
  intros H Hle. destruct fuel' as [|fuel']; [lia|]. simpl.
  case_decide; [apply IH; [done|lia]|done].
Qed.

Lemma W2_W5_mono P draws fuel fuel' s :
  W2_W5 P draws fuel s ≠ Fuel → fuel ≤ fuel' →
  W2_W5 P draws fuel' s = W2_W5 P draws fuel s.
Proof.
  unfold W2_W5. intros H Hle. case_decide; [done|]. case_decide; [done|].
  destruct (W3_loop fuel _ _ _ _) as [r|] eqn:E; [|done].
  by rewrite (W3_loop_mono _ _ _ _ _ _ _ E Hle).
Qed.

Lemma solve_loop_mono P draws fuel : ∀ fuel' s,
  solve_loop P draws fuel s ≠ OutOfFuel → fuel ≤ fuel' →
  solve_loop P draws fuel' s = solve_loop P draws fuel s.
Proof.
  induction fuel as [|fuel IH]; intros fuel' s; simpl; [done|].
  intros H Hle. destruct fuel' as [|fuel']; [lia|]. simpl.
  rewrite (W2_W5_mono P draws fuel fuel'); [|intros E; by rewrite E in H|lia].
  destruct (W2_W5 P draws fuel s); try done. apply IH; [done|lia].
Qed.

(** A run that returns does so with one result, whatever fuel shows it. *)
Lemma solve_fuel_irrelevant P draws c fuel1 fuel2 b1 s1 b2 s2 :
  solve P draws fuel1 c = Returned b1 s1 →
  solve P draws fuel2 c = Returned b2 s2 → b1 = b2 ∧ s1 = s2.
Proof.
  unfold solve. intros H1 H2.
  pose proof (solve_loop_mono P draws fuel1 (fuel1 + fuel2) (solve_init P draws c)
                ltac:(by rewrite H1) ltac:(lia)) as E1.
  pose proof (solve_loop_mono P draws fuel2 (fuel1 + fuel2) (solve_init P draws c)
                ltac:(by rewrite H2) ltac:(lia)) as E2.
  rewrite H1 in E1. rewrite H2, E1 in E2. by injection E2.
Qed.

Lemma loop_head_mono P draws fuel fuel' i : ∀ s s',
  loop_head P draws fuel i s = Some s' → fuel ≤ fuel' →
  loop_head P draws fuel' i s = Some s'.
Proof.
  induction i as [|i IH]; intros s s' H Hle; simpl in *; [done|].
  rewrite (W2_W5_mono P draws fuel fuel'); [|intros E; by rewrite E in H|lia].
  destruct (W2_W5 P draws fuel s); try done. by apply IH.
Qed.

Lemma parse_clauses_ok fuel : ∀ toks c c',
  parse_clauses fuel toks c = ParseOk c' →
  val c' = val c ∧ cost c' = cost c ∧
  invclause_storage c' = invclause_storage c ∧ f c' = f c ∧
  numtrue c' = numtrue c ∧ w c' = w c ∧ nvars c' = nvars c ∧
  nclauses c' = nclauses c ∧
  ∃ more, clauses c' = clauses c ++ more ∧
          (more = [] → toks = [] ∧ start c' = start c).
Proof.
  induction fuel as [|fuel IH]; intros toks c c'; simpl; [done|].
  destruct (read_clause_spec toks c false) as (ls & Hnz & H).
  destruct (read_clause toks c false) as [[[eof rest] c1] rl].
  destruct H as (-> & -> & Hcase). simpl.
  case_decide as Hu; [done|].
  destruct ls as [|t ls]; simpl.
  - intros [= <-]. simpl. repeat (split; [done|]).
    exists []. split; [done|]. intros _.
    destruct Hcase as [(-> & -> & ->)|(-> & ->)]; [done|].
    exfalso. apply Hu. simpl. by rewrite app_nil_r.
  - destruct eof.
    + intros [= <-]. simpl. repeat (split; [done|]).
      exists (t :: ls). split; [done|]. done.
    + intros Hp. apply IH in Hp as (E1&E2&E3&E4&E5&E6&E7&E8& more & E9 & _).
      simpl in *. repeat (split; [done|]).
      exists ((t :: ls) ++ more). split; [by rewrite app_assoc|]. done.
Qed.

(** C7.  When the integers after a well-formed problem line hold an empty
    clause, the reader exits UNSAT, so [main] exits UNSAT: whatever the seed,
    the clock and the fuel, [solve] is not entered and no model is
    reported. *)
Theorem empty_clause_exits_unsat P clause_max srand_rand FLAGS_seed now nv nc toks fuel :
  (0 ≤ nv ≤ lit_max P)%Z → (0 ≤ nc ≤ clause_max)%Z → has_empty_clause toks →
  parse P clause_max nv nc toks = UNSAT_EXIT ∧
  main P clause_max srand_rand FLAGS_seed now nv nc toks fuel = Exit_UNSAT.
Proof.
  intros Hnv Hnc He.
  assert (Hp : parse P clause_max nv nc toks = UNSAT_EXIT).
  { unfold parse, CHECK_NO_OVERFLOW.
    rewrite !(proj2 (Z.leb_le _ _)) by lia. cbn [negb].
    rewrite parse_clauses_empty_clause; [done|lia|done]. }
  split; [done|]. unfold main. by rewrite Hp.
Qed.

(** The input "p cnf 2 3 / 1 2 0 / 0 / -1 0": the second clause is empty. *)
Lemma empty_clause_exits_unsat_witness :
  ((0 ≤ 2 ≤ lit_max example_platform)%Z ∧ (0 ≤ 3 ≤ 4294967295)%Z ∧
   has_empty_clause [1; 2; 0; 0; -1; 0]%Z) ∧
  parse example_platform 4294967295 2 3 [1; 2; 0; 0; -1; 0]%Z = UNSAT_EXIT ∧
  main example_platform 4294967295 (λ _, S4_draws) 1 0 2 3 [1; 2; 0; 0; -1; 0]%Z 10
    = Exit_UNSAT.
Proof.
  assert (H : (0 ≤ 2 ≤ lit_max example_platform)%Z ∧ (0 ≤ 3 ≤ 4294967295)%Z ∧
              has_empty_clause [1; 2; 0; 0; -1; 0]%Z).
  { split; [simpl; lia|]. split; [lia|]. exists 3. split; [reflexivity|].
    right. reflexivity. }
  split; [exact H|]. destruct H as (H1 & H2 & H3).
  exact (empty_clause_exits_unsat example_platform 4294967295 (λ _, S4_draws)
           1 0 2 3 [1; 2; 0; 0; -1; 0]%Z 10 H1 H2 H3).
Defined.

(** C10.  When the reader returns a structure with no literal, [main] exits
    SAT with it, whatever the seed, the clock and the fuel (so without a
    result of [solve]); [val] is as the constructor zeroed it, false for
    every variable; and this is the case of no integer after the problem line
    and a declared clause count of zero. *)
Theorem empty_formula_exits_sat P clause_max srand_rand FLAGS_seed now nv nc toks fuel c :
  parse P clause_max nv nc toks = ParseOk c → clauses c = [] →
  main P clause_max srand_rand FLAGS_seed now nv nc toks fuel = SAT_EXIT c ∧
  val c = replicate (nvars c + 1) false ∧
  (∀ v, v ≤ nvars c → val c !!! v = false) ∧
  nvars c = Z.to_nat nv ∧ toks = [] ∧ nc = 0%Z.
Proof.
  intros Hp Hc.
  assert (Hm : main P clause_max srand_rand FLAGS_seed now nv nc toks fuel = SAT_EXIT c).
  { unfold main. rewrite Hp. by rewrite decide_True. }
  split; [done|]. clear Hm. unfold parse, CHECK_NO_OVERFLOW in Hp.
  destruct (Z.leb_spec 0 nv); [|done]. destruct (Z.leb_spec 0 nc); [|done].
  destruct (Z.leb_spec nv (lit_max P)); [|done].
  destruct (Z.leb_spec nc clause_max); [|done]. cbn [negb] in Hp.
  destruct (parse_clauses _ _ _) as [c'| | |] eqn:E; try done.
  case_decide as Hs; [|done]. injection Hp as ->.
  apply parse_clauses_ok in E as (E1&_&_&_&_&_&E7&E8& more & E9 & E10).
  simpl in *. rewrite Hc in E9. symmetry in E9. subst more.
  destruct (E10 eq_refl) as [-> Est]. rewrite Est, E8 in Hs. simpl in Hs.
  rewrite E7, E1. split; [done|]. split; [|split; [done|split; [done|lia]]].
  intros v Hv. apply list_lookup_total_correct, lookup_replicate_2. lia.
Qed.

(** The input "p cnf 3 0". *)
Lemma empty_formula_exits_sat_witness :
  (parse example_platform 4294967295 3 0 [] = ParseOk (Cnf_new example_platform 3 0) ∧
   clauses (Cnf_new example_platform 3 0) = []) ∧
  main example_platform 4294967295 (λ _, S4_draws) 0 0 3 0 [] 0
    = SAT_EXIT (Cnf_new example_platform 3 0) ∧
  val (Cnf_new example_platform 3 0) = [false; false; false; false].
Proof.
  assert (H : parse example_platform 4294967295 3 0 [] =
              ParseOk (Cnf_new example_platform 3 0) ∧
              clauses (Cnf_new example_platform 3 0) = []).
  { split; reflexivity. }
  split; [exact H|]. destruct H as (H1 & H2).
  destruct (empty_formula_exits_sat example_platform 4294967295 (λ _, S4_draws)
              0 0 3 0 [] 0 _ H1 H2) as (G1 & G2 & _).
  split; [exact G1|exact G2].
Defined.

(** ** Runs from one seed *)

Lemma same_draws_sub d d' a b a' b' :
  same_draws d d' a b → a ≤ a' → b' ≤ b → same_draws d d' a' b'.
Proof. intros H Ha Hb j Hj. apply H. lia. Qed.

Section reads.
Variables (P : Platform) (d d' : nat → Z).

Lemma W1_val_reads l : ∀ c n,
  same_draws d d' n (n + length l) →
  fold_left (W1_val P d') l (c, n) = fold_left (W1_val P d) l (c, n).
Proof.
  induction l as [|i l IH]; intros c n H; [done|]. cbn [fold_left].
  unfold W1_val at 2 4. unfold rand_flip, rand_bind, rand, rand_ret.
  rewrite (H n) by (simpl; lia). apply IH.
  eapply same_draws_sub; [exact H|lia|simpl; lia].
Qed.

Lemma W1_reads c n :
  same_draws d d' n (n + nvars c) → W1 P d' c n = W1 P d c n.
Proof.
  intros H. unfold W1. rewrite W1_val_reads; [done|]. by rewrite length_seq.
Qed.

Lemma solve_init_drawn c : drawn (solve_init P d c) = nvars c.
Proof.
  unfold solve_init, W1.
  pose proof (W1_val_drawn P d (seq 1 (nvars c)) c 0) as H.
  destruct (fold_left _ _ _) as [cv n]. simpl in *. by rewrite length_seq in H.
Qed.

Lemma solve_init_reads c :
  same_draws d d' 0 (nvars c) → solve_init P d' c = solve_init P d c.
Proof. intros H. unfold solve_init. by rewrite W1_reads. Qed.

Lemma W3_loop_reads dv size fuel : ∀ n q n',
  W3_loop fuel d dv size n = Some (q, n') →
  n < n' ∧ (same_draws d d' n n' → W3_loop fuel d' dv size n = Some (q, n')).
Proof.
  induction fuel as [|fuel IH]; intros n q n'; [done|]. simpl.
  case_decide as Hr.
  - intros E. destruct (IH _ _ _ E) as [Hlt Hsame]. split; [lia|].
    intros H. rewrite (H n) by lia. rewrite decide_True by done.
    apply Hsame. eapply same_draws_sub; [exact H|lia|lia].
  - intros [= <- <-]. split; [lia|]. intros H. rewrite (H n) by lia.
    by rewrite decide_False.
Qed.

Lemma W4_draws_pos c all ls : ∀ st n, n ≤ (W4_draws P d c all ls st n).2.
Proof.
  induction ls as [|l ls IH]; intros st n; [simpl; lia|].
  rewrite W4_draws_cons. cbv zeta. case_decide.
  - etrans; [|apply IH]. lia.
  - apply IH.
Qed.

Lemma W4_draws_reads c all ls : ∀ st n,
  same_draws d d' n (W4_draws P d c all ls st n).2 →
  W4_draws P d' c all ls st n = W4_draws P d c all ls st n.
Proof.
  induction ls as [|l ls IH]; intros st n H; [done|].
  rewrite !W4_draws_cons in *. cbv zeta in *. case_decide.
  - pose proof (W4_draws_pos c all ls
       {| min_cost := min_cost (W4_pre c all st l);
          k := (k (W4_pre c all st l) + 1)%Z;
          choice := if flip P (1 / inject_Z (k (W4_pre c all st l))) (d n)
                    then l else choice (W4_pre c all st l) |} (S n)) as Hpos.
    rewrite (H n) by lia. apply IH.
    eapply same_draws_sub; [exact H|lia|lia].
  - by apply IH.
Qed.

(** One turn of the loop reads the draws from position [drawn s] up to
    [drawn s'], and nothing else of the generator. *)
Lemma W2_W5_reads fuel s s' :
  W2_W5 P d fuel s = Next s' →
  drawn s < drawn s' ∧
  (same_draws d d' (drawn s) (drawn s') → W2_W5 P d' fuel s = Next s').
Proof.
  unfold W2_W5. case_decide as Hf; [done|]. case_decide as Hd; [done|].
  destruct (W3_loop fuel d _ _ _) as [[q n]|] eqn:E3; [|done].
  destruct (W3_loop_reads _ _ _ _ _ _ E3) as [Hlt H3].
  unfold rand_flip, rand_bind, rand, rand_ret, W4.
  pose proof (W4_draws_pos (cnf s) (flip P (PARAM_non_greedy_choice P) (d n))
                (clause_lits (cnf s) (f (cnf s) !!! q)) (W4_init P) (S n)) as Hpos.
  pose proof (W4_draws_reads (cnf s) (flip P (PARAM_non_greedy_choice P) (d n))
                (clause_lits (cnf s) (f (cnf s) !!! q)) (W4_init P) (S n)) as H4.
  revert Hpos H4.
  destruct (W4_draws P d _ _ _ _ _) as [st n4] eqn:E4. simpl.
  intros Hpos H4.
  case_decide as Hnil; [done|]. intros [= <-]. simpl. split; [lia|].
  intros H. rewrite H3 by (eapply same_draws_sub; [exact H|lia|lia]).
  rewrite (H n) by lia.
  rewrite H4 by (eapply same_draws_sub; [exact H|lia|lia]).
  by rewrite decide_False.
Qed.

Lemma W2_W5_Done_reads fuel s s' :
  W2_W5 P d fuel s = Done s' → s' = s ∧ W2_W5 P d' fuel s = Done s.
Proof.
  unfold W2_W5. case_decide as Hf.
  - by intros [= <-].
  - case_decide; [done|].
    destruct (W3_loop fuel d _ _ _) as [[q n]|]; [|done].
    unfold rand_flip, rand_bind, rand, rand_ret.
    destruct (W4 P d _ _ _ _) as [st n4]. by case_decide.
Qed.

Lemma loop_head_reads fuel i : ∀ s s',
  loop_head P d fuel i s = Some s' →
  drawn s ≤ drawn s' ∧
  (same_draws d d' (drawn s) (drawn s') → loop_head P d' fuel i s = Some s').
Proof.
  induction i as [|i IH]; intros s s'; simpl.
  - intros [= <-]. split; [lia|done].
  - destruct (W2_W5 P d fuel s) as [|s1| | |] eqn:E; try done.
    intros El. destruct (W2_W5_reads _ _ _ E) as [Hlt H1].
    destruct (IH _ _ El) as [Hle H2]. split; [lia|]. intros H.
    rewrite H1 by (eapply same_draws_sub; [exact H|lia|lia]).
    apply H2. eapply same_draws_sub; [exact H|lia|lia].
Qed.

Lemma solve_loop_reads fuel : ∀ s b s',
  solve_loop P d fuel s = Returned b s' →
  drawn s ≤ drawn s' ∧
  (same_draws d d' (drawn s) (drawn s') → solve_loop P d' fuel s = Returned b s').
Proof.
  induction fuel as [|fuel IH]; intros s b s'; [done|]. simpl.
  destruct (W2_W5 P d fuel s) as [s1|s1| | |] eqn:E; try done.
  - intros [= <- <-]. destruct (W2_W5_Done_reads _ _ _ E) as [-> E'].
    split; [lia|]. intros _. by rewrite E'.
  - intros El. destruct (W2_W5_reads _ _ _ E) as [Hlt H1].
    destruct (IH _ _ _ El) as [Hle H2]. split; [lia|]. intros H.
    rewrite H1 by (eapply same_draws_sub; [exact H|lia|lia]).
    apply H2. eapply same_draws_sub; [exact H|lia|lia].
Qed.

(** A run up to a loop boundary depends on the generator through the draws
    it has taken only. *)
Lemma run_reads fuel c i s :
  loop_head P d fuel i (solve_init P d c) = Some s →
  nvars c ≤ drawn s ∧
  (same_draws d d' 0 (drawn s) →
   loop_head P d' fuel i (solve_init P d' c) = Some s).
Proof.
  intros El. destruct (loop_head_reads _ _ _ _ El) as [Hle H].
  rewrite solve_init_drawn in Hle, H. split; [done|]. intros Hs.
  rewrite solve_init_reads by (eapply same_draws_sub; [exact Hs|lia|lia]).
  apply H. eapply same_draws_sub; [exact Hs|lia|lia].
Qed.

Lemma solve_reads fuel c b s :
  solve P d fuel c = Returned b s →
  nvars c ≤ drawn s ∧
  (same_draws d d' 0 (drawn s) → solve P d' fuel c = Returned b s).
Proof.
  unfold solve. intros El. destruct (solve_loop_reads _ _ _ _ El) as [Hle H].
  rewrite solve_init_drawn in Hle, H. split; [done|]. intros Hs.
  rewrite solve_init_reads by (eapply same_draws_sub; [exact Hs|lia|lia]).
  apply H. eapply same_draws_sub; [exact Hs|lia|lia].
Qed.
End reads.

Lemma main_process_main {G} (srand : Z → G) (rand_next : G → Z * G)
  P clause_max e nv nc toks fuel :
  main_process srand rand_next P clause_max e nv nc toks fuel =
  main P clause_max (λ seed, rand_stream rand_next (srand seed))
    (seed_flag e) (clock e) nv nc toks fuel.
Proof. reflexivity. Qed.

(** C9.  Two runs on one input, in processes with the same seed, not 0, and
    whatever the clock shows and whatever state the generator is in when
    each starts: the constructor seeds the generator with the seed, so the
    calls of [rand()] return the same values in both; the runs reach each
    loop boundary in the same state, after the same flips and the same
    number of draws; when both return, they return the same assignment; and
    [main] ends the same way.  A run reads the generator through the draws it
    has taken and through nothing else: any source of draws that gives the
    same first [drawn s] values leads to the same state [s]. *)
Theorem seeded_runs_agree {G} (srand : Z → G) (rand_next : G → Z * G)
  P clause_max (e1 e2 : process G) :
  seed_flag e1 ≠ 0%Z → seed_flag e2 = seed_flag e1 →
  let draws1 := rand_stream rand_next (generator (Cnf_seeds srand e1)) in
  let draws2 := rand_stream rand_next (generator (Cnf_seeds srand e2)) in
  seed_flag (Cnf_seeds srand e1) = seed_flag (Cnf_seeds srand e2) ∧
  (∀ n, draws1 n = draws2 n) ∧
  (∀ c fuel1 fuel2 i s1 s2,
     loop_head P draws1 fuel1 i (solve_init P draws1 c) = Some s1 →
     loop_head P draws2 fuel2 i (solve_init P draws2 c) = Some s2 →
     s1 = s2) ∧
  (∀ c fuel1 fuel2 b1 s1 b2 s2,
     solve P draws1 fuel1 c = Returned b1 s1 →
     solve P draws2 fuel2 c = Returned b2 s2 →
     b1 = b2 ∧ s1 = s2) ∧
  (∀ nv nc toks fuel,
     main_process srand rand_next P clause_max e1 nv nc toks fuel =
     main_process srand rand_next P clause_max e2 nv nc toks fuel) ∧
  (∀ c fuel i s (d' : nat → Z),
     loop_head P draws1 fuel i (solve_init P draws1 c) = Some s →
     same_draws draws1 d' 0 (drawn s) →
     loop_head P d' fuel i (solve_init P d' c) = Some s) ∧
  (∀ c fuel b s (d' : nat → Z),
     solve P draws1 fuel c = Returned b s →
     same_draws draws1 d' 0 (drawn s) →
     solve P d' fuel c = Returned b s).
Proof.
  intros Hs He draws1 draws2.
  assert (E : Cnf_seeds srand e2 = {| seed_flag := seed_flag e1;
              generator := srand (seed_flag e1); clock := clock e2 |}).
  { unfold Cnf_seeds. rewrite He. by rewrite decide_False. }
  assert (E1 : Cnf_seeds srand e1 = {| seed_flag := seed_flag e1;
              generator := srand (seed_flag e1); clock := clock e1 |}).
  { unfold Cnf_seeds. by rewrite decide_False. }
  assert (Ed : draws2 = draws1).
  { unfold draws1, draws2. by rewrite E, E1. }
  split; [by rewrite E, E1|]. rewrite Ed.
  split; [done|]. split; [|split; [|split; [|split]]].
  - intros c fuel1 fuel2 i s1 s2 H1 H2.
    apply (loop_head_mono _ _ _ (fuel1 + fuel2)) in H1; [|lia].
    apply (loop_head_mono _ _ _ (fuel1 + fuel2)) in H2; [|lia].
    rewrite H1 in H2. by injection H2.
  - intros c fuel1 fuel2 b1 s1 b2 s2 H1 H2.
    exact (solve_fuel_irrelevant _ _ _ _ _ _ _ _ _ H1 H2).
  - intros nv nc toks fuel. unfold main_process. fold draws1 draws2.
    by rewrite Ed.
  - intros c fuel i s d' H1 Hd. by apply (run_reads P draws1 d' fuel c i s).
  - intros c fuel b s d' H1 Hd. by apply (solve_reads P draws1 d' fuel c b s).
Qed.

(** Seed 7 in two processes, with the clock at 1 and at 2 and the generator
    in the states 100 and 200: S4 is solved by the same flips. *)
Lemma seeded_runs_agree_witness :
  let e1 := {| seed_flag := 7; generator := 100%Z; clock := 1 |} in
  let e2 := {| seed_flag := 7; generator := 200%Z; clock := 2 |} in
  (seed_flag e1 ≠ 0%Z ∧ seed_flag e2 = seed_flag e1) ∧
  main_process example_srand example_rand example_platform 4294967295 e1 4 3
    [1; 2; 0; 3; 0; -2; -3; 4; 0]%Z 50 =
  main_process example_srand example_rand example_platform 4294967295 e2 4 3
    [1; 2; 0; 3; 0; -2; -3; 4; 0]%Z 50 ∧
  ∃ c, main_process example_srand example_rand example_platform 4294967295 e1 4 3
         [1; 2; 0; 3; 0; -2; -3; 4; 0]%Z 50 = SAT_EXIT c.
Proof.
  intros e1 e2.
  assert (H : seed_flag e1 ≠ 0%Z ∧ seed_flag e2 = seed_flag e1).
  { split; [discriminate|reflexivity]. }
  split; [exact H|]. destruct H as [H1 H2].
  destruct (seeded_runs_agree example_srand example_rand example_platform
              4294967295 e1 e2 H1 H2) as (_ & _ & _ & _ & G & _).
  split; [exact (G 4%Z 3%Z [1; 2; 0; 3; 0; -2; -3; 4; 0]%Z 50)|].
  eexists. vm_compute. reflexivity.
Defined.

(** With seed 0 the clock seeds the generator, and two runs can differ: S4
    is solved by one flip when the clock shows 1 and by none when it shows
    2. *)
Example unseeded_runs_differ :
  (∃ s, solve example_platform (seed_draws example_generator 0 1) 50 S4
        = Returned true s ∧ flipped s = [3]) ∧
  (∃ s, solve example_platform (seed_draws example_generator 0 2) 50 S4
        = Returned true s ∧ flipped s = []).
Proof.
  split; eexists; (split; [vm_compute; reflexivity|reflexivity]).
Qed.

(** ** W3: the choice of a clause *)

Lemma count_interval (a b : Z) n :
  (0 ≤ a)%Z →
  length (List.filter (λ r, (a <=? r)%Z && (r <? b)%Z) (Z.of_nat <$> seq 0 n)) =
  Z.to_nat (Z.max 0 (Z.min b (Z.of_nat n) - a)).
Proof.
  intros Ha. induction n as [|n IH]; [simpl; lia|].
  rewrite seq_S, fmap_app, List.filter_app, length_app, IH. simpl.
  destruct (Z.leb_spec a (Z.of_nat n)), (Z.ltb_spec (Z.of_nat n) b); simpl; lia.
Qed.

Lemma div_eq_iff (r d q : Z) :
  (0 < d)%Z → (r / d = q)%Z ↔ (q * d ≤ r < (q + 1) * d)%Z.
Proof.
  intros Hd. split.
  - intros <-. pose proof (Z.mul_div_le r d Hd).
    pose proof (Z.mul_succ_div_gt r d Hd). lia.
  - intros [H1 H2]. symmetry. apply (Z.div_unique_pos r d q (r - q * d)); lia.
Qed.

Lemma W3_divisor_pos P size :
  1 ≤ size → (Z.of_nat size ≤ RAND_MAX P + 1)%Z →
  (1 ≤ W3_divisor P size)%Z ∧
  (Z.of_nat size * W3_divisor P size ≤ RAND_MAX P + 1)%Z ∧
  (RAND_MAX P + 1 < 2 * (Z.of_nat size * W3_divisor P size))%Z.
Proof.
  intros H1 H2. unfold W3_divisor.
  set (N := (RAND_MAX P + 1)%Z) in *. set (s := Z.of_nat size) in *.
  assert (0 < s)%Z by lia.
  pose proof (Z.div_le_lower_bound N s 1 ltac:(lia) ltac:(lia)).
  pose proof (Z.mul_div_le N s ltac:(lia)).
  pose proof (Z.mul_succ_div_gt N s ltac:(lia)).
  split; [lia|]. split; [lia|]. nia.
Qed.

(** Each index below [size] is the quotient of exactly [divisor] values of
    a draw. *)
Lemma count_draws_quotient P size q :
  1 ≤ size → (Z.of_nat size ≤ RAND_MAX P + 1)%Z → q < size →
  count_draws P (λ r, bool_decide (r / W3_divisor P size = Z.of_nat q)%Z) =
  Z.to_nat (W3_divisor P size).
Proof.
  intros H1 H2 Hq. destruct (W3_divisor_pos P size H1 H2) as (Hd & Hle & _).
  set (d := W3_divisor P size) in *. unfold count_draws, all_draws.
  erewrite filter_ext.
  - rewrite (count_interval (Z.of_nat q * d) ((Z.of_nat q + 1) * d)) by lia.
    rewrite Z2Nat.id by lia. nia.
  - intros r. simpl. apply eq_true_iff_eq.
    rewrite bool_decide_eq_true, andb_true_iff, Z.leb_le, Z.ltb_lt.
    apply div_eq_iff. lia.
Qed.

Lemma in_all_draws P r : In r (all_draws P) ↔ (0 ≤ r ≤ RAND_MAX P)%Z.
Proof.
  unfold all_draws. rewrite <- list_elem_of_In, list_elem_of_fmap. split.
  - intros (i & -> & Hi%elem_of_seq). lia.
  - intros H. exists (Z.to_nat r). split; [lia|]. apply elem_of_seq. lia.
Qed.

(** The values of a draw that W3 rejects. *)
Lemma count_draws_rejected P size :
  1 ≤ size → (Z.of_nat size ≤ RAND_MAX P + 1)%Z →
  count_draws P (λ r, bool_decide (Z.of_nat size ≤ r / W3_divisor P size)%Z) =
  Z.to_nat (RAND_MAX P + 1 - Z.of_nat size * W3_divisor P size).
Proof.
  intros H1 H2. destruct (W3_divisor_pos P size H1 H2) as (Hd & Hle & _).
  set (d := W3_divisor P size) in *. unfold count_draws.
  erewrite filter_ext_in.
  - unfold all_draws.
    rewrite (count_interval (Z.of_nat size * d) (RAND_MAX P + 1)) by lia.
    rewrite Z2Nat.id by lia. lia.
  - intros r Hr%in_all_draws. simpl. apply eq_true_iff_eq.
    rewrite bool_decide_eq_true, andb_true_iff, Z.leb_le, Z.ltb_lt.
    split.
    + intros H. pose proof (Z.mul_div_le r d ltac:(lia)). nia.
    + intros [H _]. apply Z.div_le_lower_bound; lia.
Qed.

(** The loop of W3 ends at the first draw whose quotient is below [size]. *)
Lemma W3_loop_first_accepted (draws : nat → Z) (d : Z) (size m : nat) :
  ∀ fuel n,
  (∀ j, j < m → (Z.of_nat size ≤ draws (n + j)%nat / d)%Z) →
  (draws (n + m)%nat / d < Z.of_nat size)%Z → m < fuel →
  W3_loop fuel draws d size n = Some (Z.to_nat (draws (n + m)%nat / d), S (n + m)).
Proof.
  induction m as [|m IH]; intros fuel n Hrej Hacc Hf;
    (destruct fuel as [|fuel]; [lia|]); simpl.
  - rewrite Nat.add_0_r in *. rewrite decide_False by lia. done.
  - rewrite decide_True.
    2: { specialize (Hrej 0 ltac:(lia)). by rewrite Nat.add_0_r in Hrej. }
    rewrite (IH fuel (S n)).
    + by replace (S n + m) with (n + S m) by lia.
    + intros j Hj. specialize (Hrej (S j) ltac:(lia)).
      by replace (S n + j) with (n + S j) by lia.
    + by replace (S n + m) with (n + S m) by lia.
    + lia.
Qed.

Lemma W3_loop_shift r rs d size fuel : ∀ n,
  fst <$> W3_loop fuel (draws_of (r :: rs)) d size (S n) =
  fst <$> W3_loop fuel (draws_of rs) d size n.
Proof.
  induction fuel as [|fuel IH]; intros n; simpl; [done|].
  change (draws_of (r :: rs) (S n)) with (draws_of rs n).
  case_decide; [apply IH|done].
Qed.

Lemma W3_pick_cons P size r rs :
  W3_pick P size (r :: rs) =
  if decide (Z.of_nat size ≤ r / W3_divisor P size)%Z then W3_pick P size rs
  else Some (Z.to_nat (r / W3_divisor P size)).
Proof.
  unfold W3_pick. simpl. change (draws_of (r :: rs) 0) with r.
  repeat case_decide; try done. apply W3_loop_shift.
Qed.

Lemma filter_fmap_cons {A} (p : list A → bool) (r : A) (X : list (list A)) :
  length (List.filter p ((λ rs, r :: rs) <$> X)) =
  length (List.filter (λ rs, p (r :: rs)) X).
Proof.
  induction X as [|x X IH]; [done|]. rewrite fmap_cons. cbn [List.filter].
  destruct (p (r :: x)); cbn [length]; by rewrite IH.
Qed.

Lemma filter_const {A} (b : bool) (X : list A) :
  length (List.filter (λ _, b) X) = if b then length X else 0.
Proof. induction X as [|x X IH]; [by destruct b|]. simpl. destruct b; simpl; lia. Qed.

Lemma count_bind_cons {A} (p : list A → bool) (l : list A) (X : list (list A)) :
  length (List.filter p (r ← l; (λ rs, r :: rs) <$> X)) =
  sum_list_with (λ r, length (List.filter (λ rs, p (r :: rs)) X)) l.
Proof.
  induction l as [|r l IH]; [done|]. rewrite bind_cons.
  cbn [sum_list_with].
  rewrite List.filter_app, length_app, IH. f_equal. apply filter_fmap_cons.
Qed.

Lemma sum_list_two_classes {A} (h : A → nat) (p1 p2 : A → bool) (T c : nat) l :
  (∀ r, In r l → h r = (if p1 r then T else 0) + (if p2 r then c else 0)) →
  sum_list_with h l =
  T * length (List.filter p1 l) + c * length (List.filter p2 l).
Proof.
  induction l as [|r l IH]; intros H; [simpl; lia|].
  cbn [sum_list_with List.filter]. rewrite IH by (intros; apply H; by right).
  rewrite (H r) by (by left). destruct (p1 r), (p2 r); simpl; lia.
Qed.

Lemma length_bind_cons {A} (l : list A) (X : list (list A)) :
  length (r ← l; (λ rs, r :: rs) <$> X) = length l * length X.
Proof.
  induction l as [|r l IH]; [done|]. rewrite bind_cons, length_app, length_fmap, IH.
  simpl. lia.
Qed.

Lemma draw_seqs_length P t : length (draw_seqs P t) = length (all_draws P) ^ t.
Proof.
  induction t as [|t IH]; [done|]. cbn [draw_seqs].
  rewrite length_bind_cons, IH. simpl. lia.
Qed.

(** How the count for [t + 1] draws comes from the count for [t]. *)
Lemma W3_count_S P size t q :
  1 ≤ size → (Z.of_nat size ≤ RAND_MAX P + 1)%Z → q < size →
  W3_count P size (S t) (Some q) =
  length (draw_seqs P t) * Z.to_nat (W3_divisor P size) +
  W3_count P size t (Some q) *
    Z.to_nat (RAND_MAX P + 1 - Z.of_nat size * W3_divisor P size).
Proof.
  intros H1 H2 Hq. unfold W3_count at 1. simpl.
  rewrite count_bind_cons.
  rewrite (sum_list_two_classes _
             (λ r, bool_decide (r / W3_divisor P size = Z.of_nat q)%Z)
             (λ r, bool_decide (Z.of_nat size ≤ r / W3_divisor P size)%Z)
             (length (draw_seqs P t)) (W3_count P size t (Some q))).
  - fold (count_draws P (λ r, bool_decide (r / W3_divisor P size = Z.of_nat q)%Z)).
    fold (count_draws P (λ r, bool_decide (Z.of_nat size ≤ r / W3_divisor P size)%Z)).
    by rewrite count_draws_quotient, count_draws_rejected.
  - intros r Hr%in_all_draws.
    destruct (W3_divisor_pos P size H1 H2) as (Hd & _ & _).
    assert (0 ≤ r / W3_divisor P size)%Z by (apply Z.div_pos; lia).
    destruct (decide (Z.of_nat size ≤ r / W3_divisor P size)%Z) as [Hrej|Hacc].
    + rewrite (filter_ext _ (λ rs, bool_decide (W3_pick P size rs = Some q))).
      2: { intros rs. rewrite W3_pick_cons. by rewrite decide_True. }
      rewrite bool_decide_false by lia. by rewrite (bool_decide_true _ Hrej).
    + rewrite (filter_ext _ (λ _, bool_decide (r / W3_divisor P size = Z.of_nat q)%Z)).
      2: { intros rs. rewrite W3_pick_cons, decide_False by done.
           apply bool_decide_ext. split; [intros [= E]; lia|intros E; f_equal; lia]. }
      rewrite filter_const, (bool_decide_false _ Hacc). lia.
Qed.

(** The loop of W3 favours no index: on the sequences of [t] draws, it picks
    each index below [size] equally often. *)
Lemma W3_count_uniform P size t q1 q2 :
  1 ≤ size → (Z.of_nat size ≤ RAND_MAX P + 1)%Z → q1 < size → q2 < size →
  W3_count P size t (Some q1) = W3_count P size t (Some q2).
Proof.
  intros H1 H2 Hq1 Hq2. induction t as [|t IH]; [done|].
  rewrite !W3_count_S by done. by rewrite IH.
Qed.

(** The sequences of [t] draws on which the loop is still running. *)
Lemma W3_count_running P size t :
  1 ≤ size → (Z.of_nat size ≤ RAND_MAX P + 1)%Z →
  W3_count P size t None =
  Z.to_nat (RAND_MAX P + 1 - Z.of_nat size * W3_divisor P size) ^ t.
Proof.
  intros H1 H2. induction t as [|t IH]; [done|].
  unfold W3_count at 1. simpl. rewrite count_bind_cons.
  rewrite (sum_list_two_classes _ (λ _, false)
             (λ r, bool_decide (Z.of_nat size ≤ r / W3_divisor P size)%Z)
             0 (W3_count P size t None)).
  - fold (count_draws P (λ r, bool_decide (Z.of_nat size ≤ r / W3_divisor P size)%Z)).
    rewrite count_draws_rejected, IH by done. simpl. lia.
  - intros r Hr.
    destruct (decide (Z.of_nat size ≤ r / W3_divisor P size)%Z) as [Hrej|Hacc].
    + erewrite filter_ext.
      2: { intros rs. rewrite W3_pick_cons, decide_True by done. reflexivity. }
      by rewrite (bool_decide_true _ Hrej).
    + rewrite (filter_ext _ (λ _, false)).
      2: { intros rs. rewrite W3_pick_cons, decide_False by done. done. }
      by rewrite filter_const, (bool_decide_false _ Hacc).
Qed.

(** C8.  For a stack of [size] clauses, [1 <= size <= RAND_MAX + 1]: the
    divisor is not zero; the loop ends at the first draw whose quotient is
    below [size], with that quotient as [q]; fewer than half of the values of
    a draw are rejected, so the sequences of [t] draws on which the loop is
    still running are [rejected ^ t] out of [(RAND_MAX + 1) ^ t]; and no
    index is favoured: each [q < size] is the quotient of exactly [divisor]
    values of one draw, and on the sequences of [t] draws the loop picks any
    two indices below [size] equally often. *)
Theorem W3_picks_uniformly P size :
  1 ≤ size → (Z.of_nat size ≤ RAND_MAX P + 1)%Z →
  let d := W3_divisor P size in
  let rejected := Z.to_nat (RAND_MAX P + 1 - Z.of_nat size * d) in
  (1 ≤ d)%Z ∧
  2 * rejected < length (all_draws P) ∧
  (∀ (draws : nat → Z) n m fuel,
     (∀ j, j < m → (Z.of_nat size ≤ draws (n + j)%nat / d)%Z) →
     (0 ≤ draws (n + m)%nat / d < Z.of_nat size)%Z → m < fuel →
     ∃ q, W3_loop fuel draws d size n = Some (q, S (n + m)) ∧ q < size ∧
          Z.of_nat q = (draws (n + m)%nat / d)%Z) ∧
  (∀ q, q < size →
     count_draws P (λ r, bool_decide (r / d = Z.of_nat q)%Z) = Z.to_nat d) ∧
  (∀ t q1 q2, q1 < size → q2 < size →
     W3_count P size t (Some q1) = W3_count P size t (Some q2)) ∧
  (∀ t, W3_count P size t None = rejected ^ t).
Proof.
  intros H1 H2 d rejected.
  destruct (W3_divisor_pos P size H1 H2) as (Hd & Hle & Hhalf). fold d in Hd, Hle, Hhalf.
  split; [done|]. split.
  { unfold all_draws. rewrite length_fmap, length_seq. unfold rejected. lia. }
  split.
  { intros draws n m fuel Hrej Hacc Hf.
    exists (Z.to_nat (draws (n + m)%nat / d)%Z). split; [|lia].
    apply W3_loop_first_accepted; [done|lia|done]. }
  split; [intros q Hq; by apply count_draws_quotient|].
  split; [intros t q1 q2 Hq1 Hq2; by apply W3_count_uniform|].
  intros t. by apply W3_count_running.
Qed.

(** Three unsatisfied clauses on the example platform: the divisor is
    715827882, and one value of a draw in 2147483648 is rejected. *)
Lemma W3_picks_uniformly_witness :
  (1 ≤ 3 ∧ (Z.of_nat 3 ≤ RAND_MAX example_platform + 1)%Z) ∧
  (1 ≤ W3_divisor example_platform 3)%Z ∧
  W3_count example_platform 3 2 (Some 0) = W3_count example_platform 3 2 (Some 2) ∧
  W3_count example_platform 3 2 None =
    Z.to_nat (RAND_MAX example_platform + 1 -
              Z.of_nat 3 * W3_divisor example_platform 3) ^ 2.
Proof.
  assert (H : 1 ≤ 3 ∧ (Z.of_nat 3 ≤ RAND_MAX example_platform + 1)%Z).
  { split; [lia|]. simpl. lia. }
  split; [exact H|]. destruct H as [H1 H2].
  destruct (W3_picks_uniformly example_platform 3 H1 H2) as (G1 & _ & _ & _ & G5 & G6).
  split; [exact G1|]. split; [apply G5; lia|apply G6].
Defined.

(** ** W4: the choice of a literal *)

Lemma least_snoc P c ls l :
  least P c (ls ++ [l]) = Z.min (least P c ls) (cost c !!! var l).
Proof. induction ls as [|x ls IH]; simpl; [lia|]. rewrite IH. lia. Qed.

Lemma least_le_max P c ls : (least P c ls ≤ lit_max P)%Z.
Proof. induction ls as [|x ls IH]; simpl; lia. Qed.

Lemma least_le P c ls x : x ∈ ls → (least P c ls ≤ cost c !!! var x)%Z.
Proof.
  induction ls as [|y ls IH]; [by intros ?%not_elem_of_nil|].
  intros [->|H]%elem_of_cons; simpl; [lia|]. specialize (IH H). lia.
Qed.

Lemma least_attained P c ls :
  ls ≠ [] → costs_ok P c ls → ∃ x, x ∈ ls ∧ cost c !!! var x = least P c ls.
Proof.
  induction ls as [|y ls IH]; [done|]. intros _ Hok.
  destruct ls as [|z ls].
  - exists y. split; [by left|]. simpl. specialize (Hok y ltac:(by left)). lia.
  - destruct IH as (x & Hx & Ex); [done|intros l Hl; apply Hok; by right|].
    simpl in *. destruct (Z.le_ge_cases (cost c !!! var y) (least P c (z :: ls))).
    + exists y. split; [by left|]. simpl in *. lia.
    + exists x. split; [by right|]. simpl in *. lia.
Qed.

Lemma least_nonneg P c ls : (0 < lit_max P)%Z → costs_ok P c ls → (0 ≤ least P c ls)%Z.
Proof.
  intros Hm Hok. induction ls as [|y ls IH]; simpl; [lia|].
  specialize (IH (λ l H, Hok l (list_elem_of_further _ _ _ H))).
  specialize (Hok y ltac:(by left)). lia.
Qed.

Lemma attains_least P c ls x :
  costs_ok P c ls → (cost c !!! var x ≤ lit_max P)%Z →
  forallb (λ l', (cost c !!! var x <=? cost c !!! var l')%Z) ls = true ↔
  (cost c !!! var x ≤ least P c ls)%Z.
Proof.
  intros Hok Hx. rewrite forallb_forall. split.
  - intros H. destruct ls as [|y ls]; [done|].
    destruct (least_attained P c (y :: ls)) as (z & Hz & <-); [done..|].
    apply Z.leb_le, H. by apply list_elem_of_In.
  - intros H y Hy%list_elem_of_In. apply Z.leb_le.
    pose proof (least_le P c ls y Hy). lia.
Qed.

Lemma positive_least P c ls :
  (0 < lit_max P)%Z → costs_ok P c ls →
  forallb (λ l, (0 <? cost c !!! var l)%Z) ls = true ↔ (0 < least P c ls)%Z.
Proof.
  intros Hm Hok. rewrite forallb_forall. split.
  - intros H. destruct ls as [|y ls]; [done|].
    destruct (least_attained P c (y :: ls)) as (z & Hz & <-); [done..|].
    apply Z.ltb_lt, H. by apply list_elem_of_In.
  - intros H y Hy%list_elem_of_In. apply Z.ltb_lt.
    pose proof (least_le P c ls y Hy). lia.
Qed.

Lemma W4_eligible_upto P c all ls :
  (0 < lit_max P)%Z → costs_ok P c ls →
  W4_eligible c all ls = eligible_upto P c all ls.
Proof.
  intros Hm Hok. unfold W4_eligible, eligible_upto, least_cost_lits.
  assert (E1 : forallb (λ l, (0 <? cost c !!! var l)%Z) ls = (0 <? least P c ls)%Z).
  { apply eq_true_iff_eq. rewrite Z.ltb_lt. by apply positive_least. }
  rewrite E1. destruct (all && _); [done|].
  apply filter_ext_in. intros x Hx%list_elem_of_In. apply eq_true_iff_eq.
  rewrite attains_least by (done || apply Hok, Hx). rewrite Z.eqb_eq.
  pose proof (least_le P c ls x Hx). lia.
Qed.

Lemma filter_none {A} (p : A → bool) (l : list A) :
  (∀ x, x ∈ l → p x = false) → List.filter p l = [].
Proof.
  induction l as [|x l IH]; intros H; [done|]. simpl.
  rewrite (H x) by (by left). apply IH. intros y Hy. apply H. by right.
Qed.

(** One literal of the scan, seen from the literals eligible so far. *)
Lemma eligible_step P c all seen l st :
  (0 < lit_max P)%Z → costs_ok P c (seen ++ [l]) →
  min_cost st = least P c seen →
  k st = (Z.of_nat (length (eligible_upto P c all seen)) + 1)%Z →
  let st1 := W4_pre c all st l in
  min_cost st1 = least P c (seen ++ [l]) ∧ choice st1 = choice st ∧
  if decide (W4_candidate c all st1 l) then
    eligible_upto P c all (seen ++ [l]) =
      (if decide (k st1 = 1%Z) then [] else eligible_upto P c all seen) ++ [l] ∧
    (k st1 = 1%Z ∨ k st1 = k st)
  else
    eligible_upto P c all (seen ++ [l]) = eligible_upto P c all seen ∧ st1 = st.
Proof.
  intros Hmax Hok Hmin Hk st1.
  assert (Hokd : costs_ok P c seen).
  { intros x Hx. apply Hok. apply elem_of_app. by left. }
  assert (Hcl : (0 ≤ cost c !!! var l ≤ lit_max P)%Z).
  { apply Hok. apply elem_of_app. right. by left. }
  pose proof (least_nonneg P c seen Hmax Hokd) as Hm0.
  pose proof (least_le_max P c seen) as Hmm.
  set (m := least P c seen) in *. set (cl := cost c !!! var l) in *.
  assert (Hempty : k st = 1%Z → eligible_upto P c all seen = []).
  { intros E. apply length_zero_iff_nil. lia. }
  assert (Happ : eligible_upto P c all (seen ++ [l]) =
    if all && (0 <? Z.min m cl)%Z then seen ++ [l]
    else List.filter (λ x, (cost c !!! var x =? Z.min m cl)%Z) seen ++
         (if (cl =? Z.min m cl)%Z then [l] else [])).
  { unfold eligible_upto. rewrite least_snoc. fold m cl.
    destruct (all && _); [done|]. rewrite List.filter_app. simpl. fold cl.
    by destruct (cl =? Z.min m cl)%Z. }
  assert (Hdone : eligible_upto P c all seen =
    if all && (0 <? m)%Z then seen
    else List.filter (λ x, (cost c !!! var x =? m)%Z) seen) by done.
  unfold st1, W4_pre, W4_candidate. fold cl. rewrite Hmin.
  destruct (decide (cl < m)%Z) as [Hlt|Hge]; simpl.
  - (* a new least cost *)
    rewrite least_snoc. fold m cl. split; [lia|]. split; [done|].
    rewrite decide_True by (by right).
    rewrite Happ. replace (Z.min m cl) with cl by lia.
    destruct (decide (all = false ∨ cl = 0%Z)) as [Hr|Hnr].
    + rewrite decide_True by done. split; [|by left].
      assert (all && (0 <? cl)%Z = false) as ->.
      { destruct Hr as [->| ->]; [done|]. by rewrite andb_false_r. }
      rewrite Z.eqb_refl. rewrite filter_none; [done|].
      intros x Hx. apply Z.eqb_neq. pose proof (least_le P c seen x Hx). fold m in H. lia.
    + assert (all = true ∧ (0 < cl)%Z) as [-> Hpos].
      { destruct all; [split; [done|lia]|]. exfalso. apply Hnr. by left. }
      split; [|by right]. simpl.
      rewrite (proj2 (Z.ltb_lt 0 cl)) by done.
      rewrite Hdone. simpl. rewrite (proj2 (Z.ltb_lt 0 m)) by lia.
      case_decide as E1; [|done]. apply Hempty in E1. rewrite Hdone in E1.
      simpl in E1. rewrite (proj2 (Z.ltb_lt 0 m)) in E1 by lia. by rewrite E1.
  - (* the least cost stays *)
    rewrite !Hmin. rewrite least_snoc. fold m cl. split; [lia|]. split; [done|].
    rewrite Happ. replace (Z.min m cl) with m by lia.
    destruct (decide ((all = true ∧ (0 < m)%Z) ∨ cl = m)) as [Hc|Hnc].
    + split; [|by right].
      assert (Hrhs : (if decide (k st = 1%Z) then [] else eligible_upto P c all seen)
                     = eligible_upto P c all seen).
      { case_decide as E1; [|done]. by rewrite (Hempty E1). }
      rewrite Hrhs, Hdone. clear Hrhs.
      destruct (all && (0 <? m)%Z) eqn:Ea; [done|].
      destruct Hc as [[-> Hpos]| ->].
      * simpl in Ea. apply Z.ltb_ge in Ea. lia.
      * by rewrite Z.eqb_refl.
    + split; [|done]. rewrite Hdone.
      destruct (all && (0 <? m)%Z) eqn:Ea.
      * exfalso. apply Hnc. left. apply andb_true_iff in Ea as [-> Hp].
        split; [done|]. by apply Z.ltb_lt.
      * assert ((cl =? m)%Z = false) as ->; [|by rewrite app_nil_r].
        apply Z.eqb_neq. intros E. apply Hnc. by right.
Qed.

Lemma eligible_upto_nonempty P c all ls :
  ls ≠ [] → costs_ok P c ls → eligible_upto P c all ls ≠ [].
Proof.
  intros Hne Hok. unfold eligible_upto. destruct (all && _); [done|].
  destruct (least_attained P c ls Hne Hok) as (x & Hx & Ex).
  intros E. assert (In x []) as []. rewrite <- E.
  apply filter_In. split; [by apply list_elem_of_In|]. by apply Z.eqb_eq.
Qed.

(** [flip(1.0)] is heads on every draw. *)
Lemma flip_one P r :
  (0 < RAND_MAX P)%Z → (0 ≤ r ≤ RAND_MAX P)%Z → flip P (1 / inject_Z 1) r = true.
Proof.
  intros HM Hr. unfold flip. apply Qle_bool_iff.
  destruct (RAND_MAX P) as [|M|M]; try lia.
  unfold Qle, Qdiv, Qmult, Qinv, inject_Z. simpl. lia.
Qed.

(** The scan on draws keeps [choice] among the literals eligible so far. *)
Lemma W4_draws_eligible P draws c all ls : ∀ seen st n,
  (0 < RAND_MAX P)%Z → draws_ok P draws → (0 < lit_max P)%Z →
  costs_ok P c (seen ++ ls) →
  min_cost st = least P c seen →
  k st = (Z.of_nat (length (eligible_upto P c all seen)) + 1)%Z →
  (seen ≠ [] → choice st ∈ eligible_upto P c all seen) →
  seen ++ ls ≠ [] →
  choice (W4_draws P draws c all ls st n).1 ∈ eligible_upto P c all (seen ++ ls).
Proof.
  induction ls as [|l ls IH]; intros seen st n HM Hd Hmax Hok Hmin Hk Hch Hne.
  - rewrite app_nil_r in *. simpl. by apply Hch.
  - rewrite W4_draws_cons.
    assert (Hok1 : costs_ok P c (seen ++ [l])).
    { intros x Hx. apply Hok. rewrite elem_of_app in Hx |- *.
      destruct Hx as [?|[->|[]%not_elem_of_nil]%elem_of_cons]; [by left|right; by left]. }
    pose proof (eligible_step P c all seen l st Hmax Hok1 Hmin Hk) as Hstep.
    simpl in Hstep. destruct Hstep as (Hmin1 & Hch1 & Hstep).
    assert (Happ : seen ++ l :: ls = (seen ++ [l]) ++ ls) by (by rewrite <- app_assoc).
    rewrite Happ in Hok |- *. simpl.
    assert (Hne1 : eligible_upto P c all (seen ++ [l]) ≠ []).
    { apply eligible_upto_nonempty; [by destruct seen|done]. }
    destruct (decide (W4_candidate c all (W4_pre c all st l) l)) as [Hc|Hc].
    + destruct Hstep as [HE Hk1]. apply IH; try done.
      * simpl. rewrite HE, length_app. simpl.
        case_decide as E1; simpl; [lia|].
        destruct Hk1 as [?|Hk1]; [done|]. rewrite Hk1, Hk. lia.
      * intros _. simpl. rewrite HE.
        destruct (flip P _ _) eqn:Ef; [apply elem_of_app; right; by left|].
        case_decide as E1.
        -- rewrite E1, flip_one in Ef by done. done.
        -- apply elem_of_app. left. rewrite Hch1. apply Hch.
           intros ->. destruct Hk1 as [?|Hk1]; [done|].
           rewrite Hk1, Hk in E1. simpl in E1. unfold eligible_upto in E1.
           destruct (all && _) in E1; simpl in E1; lia.
      * by destruct seen.
    + destruct Hstep as [HE Hst1]. rewrite Hst1. apply IH; try done.
      * by rewrite <- Hst1.
      * by rewrite HE.
      * intros _. rewrite HE. apply Hch. intros ->.
        rewrite HE in Hne1. apply Hne1. unfold eligible_upto.
        by destruct (all && _).
      * by destruct seen.
Qed.

Lemma mass_app {A} (p : A → bool) (d1 d2 : Dist A) :
  mass p (d1 ++ d2) = (mass p d1 + mass p d2)%Z.
Proof. induction d1 as [|[x q] d1 IH]; simpl; [done|]. rewrite IH. lia. Qed.

Lemma mass_scale {A} (p : A → bool) (q : Z) (d : Dist A) :
  mass p (dist_scale q d) = (q * mass p d)%Z.
Proof.
  induction d as [|[x q'] d IH]; [simpl; lia|].
  unfold dist_scale in *. rewrite fmap_cons. cbn [mass fst snd].
  rewrite IH. destruct (p x); lia.
Qed.

Lemma W4_dist_cons c all l ls st :
  W4_dist c all (l :: ls) st =
  let st1 := W4_pre c all st l in
  if decide (W4_candidate c all st1 l) then
    dist_scale (1 * 1)
      (W4_dist c all ls {| min_cost := min_cost st1; k := (k st1 + 1)%Z; choice := l |}) ++
    dist_scale ((k st1 - 1) * 1)
      (W4_dist c all ls {| min_cost := min_cost st1; k := (k st1 + 1)%Z;
                           choice := choice st1 |}) ++ []
  else dist_scale 1 (W4_dist c all ls st1) ++ [].
Proof.
  unfold W4_dist at 1. simpl. unfold W4_lit.
  fold (W4_pre c all st l). unfold W4_candidate. simpl.
  case_decide; reflexivity.
Qed.

(** The scan on weighted outcomes, from a state that has seen [seen]: the
    literals eligible at the end are those eligible so far (if [keep]) and
    then some literals [S] of [ls]; [choice] ends on each of the latter with
    one share of the total weight, and stays what it was with as many shares
    as there were eligible literals. *)
Lemma W4_dist_shares P c all ls : ∀ seen,
  (0 < lit_max P)%Z → costs_ok P c (seen ++ ls) →
  ∃ (S : list Z) (keep : bool) (T : Z),
    eligible_upto P c all (seen ++ ls) =
      (if keep then eligible_upto P c all seen else []) ++ S ∧
    (0 < T)%Z ∧
    ∀ st, min_cost st = least P c seen →
      k st = (Z.of_nat (length (eligible_upto P c all seen)) + 1)%Z →
      mass (λ _, true) (W4_dist c all ls st) = T ∧
      ∀ x, (mass (λ s, bool_decide (choice s = x)) (W4_dist c all ls st) *
            Z.of_nat (length (eligible_upto P c all (seen ++ ls))) =
            (Z.of_nat (count_occ Z.eq_dec S x) +
             (if keep && bool_decide (choice st = x)
              then Z.of_nat (length (eligible_upto P c all seen)) else 0)) * T)%Z.
Proof.
  induction ls as [|l ls IH]; intros seen Hmax Hok.
  - exists [], true, 1%Z. rewrite !app_nil_r. split; [done|]. split; [done|].
    intros st _ _. simpl. split; [done|]. intros x.
    destruct (bool_decide (choice st = x)); simpl; lia.
  - assert (Hok1 : costs_ok P c (seen ++ [l])).
    { intros x Hx. apply Hok. rewrite elem_of_app in Hx |- *.
      destruct Hx as [?|[->|[]%not_elem_of_nil]%elem_of_cons]; [by left|right; by left]. }
    assert (Happ : seen ++ l :: ls = (seen ++ [l]) ++ ls) by (by rewrite <- app_assoc).
    rewrite Happ in Hok |- *.
    destruct (IH (seen ++ [l]) Hmax Hok) as (S' & keep' & T' & HE' & HT' & HD').
    (* a state to read the branch from *)
    set (st0 := {| min_cost := least P c seen;
                   k := (Z.of_nat (length (eligible_upto P c all seen)) + 1)%Z;
                   choice := 0%Z |}).
    pose proof (eligible_step P c all seen l st0 Hmax Hok1 eq_refl eq_refl) as Hstep0.
    simpl in Hstep0. destruct Hstep0 as (Hmin0 & _ & Hstep0).
    assert (Hbranch : ∀ st, min_cost st = least P c seen →
              k st = (Z.of_nat (length (eligible_upto P c all seen)) + 1)%Z →
              k (W4_pre c all st l) = k (W4_pre c all st0 l) ∧
              (W4_candidate c all (W4_pre c all st l) l ↔
               W4_candidate c all (W4_pre c all st0 l) l)).
    { intros st Hm Hk. unfold W4_pre, W4_candidate. rewrite Hm. simpl.
      repeat case_decide; simpl; rewrite ?Hm, ?Hk; done. }
    destruct (decide (W4_candidate c all (W4_pre c all st0 l) l)) as [Hc0|Hc0].
    + destruct Hstep0 as [HE0 Hk0].
      remember (k (W4_pre c all st0 l)) as k1 eqn:Ek1.
      assert (Hk1pos : (1 ≤ k1)%Z) by (destruct Hk0 as [->| ->]; simpl; lia).
      exists ((if keep' then [l] else []) ++ S'),
             (keep' && negb (bool_decide (k1 = 1%Z))), (k1 * T')%Z.
      split; [|split; [lia|]].
      * rewrite HE', HE0. destruct keep'; simpl; [|done].
        case_bool_decide as E1; simpl.
        -- rewrite decide_True by done. done.
        -- rewrite decide_False by done. by rewrite <- app_assoc.
      * intros st Hm Hk. destruct (Hbranch st Hm Hk) as [Ek Ec].
        pose proof (eligible_step P c all seen l st Hmax Hok1 Hm Hk) as Hstep.
        simpl in Hstep. destruct Hstep as (Hmin1 & Hch1 & Hstep).
        rewrite decide_True in Hstep by (by apply Ec).
        destruct Hstep as [HE1 _].
        rewrite W4_dist_cons. simpl. rewrite decide_True by (by apply Ec).
        rewrite Ek.
        assert (Hlen1 : (k1 + 1 = Z.of_nat (length (eligible_upto P c all (seen ++ [l]))) + 1)%Z).
        { rewrite HE0, length_app. simpl.
          destruct (decide (k1 = 1%Z)) as [E1|E1]; simpl; [lia|].
          destruct Hk0 as [?|Hk0]; [done|]. rewrite Hk0. simpl. lia. }
        destruct (HD' {| min_cost := min_cost (W4_pre c all st l); k := (k1 + 1)%Z;
                         choice := l |} Hmin1 Hlen1) as [HTa HMa].
        destruct (HD' {| min_cost := min_cost (W4_pre c all st l); k := (k1 + 1)%Z;
                         choice := choice (W4_pre c all st l) |} Hmin1 Hlen1) as [HTb HMb].
        rewrite !mass_app, !mass_scale. simpl mass at 3. rewrite HTa, HTb.
        split; [lia|]. intros x. rewrite !mass_app, !mass_scale. simpl mass at 3.
        specialize (HMa x). specialize (HMb x). simpl in HMa, HMb.
        rewrite Hch1 in HMb.
        rewrite count_occ_app.
        assert (Hr : Z.of_nat (length (eligible_upto P c all (seen ++ [l]))) = k1) by lia.
        rewrite Hr in HMa, HMb.
        assert (Hcl : Z.of_nat (count_occ Z.eq_dec (if keep' then [l] else []) x) =
                      if keep' && bool_decide (l = x) then 1%Z else 0%Z).
        { destruct keep'; simpl; [|done]. destruct (Z.eq_dec l x);
            [by rewrite bool_decide_true|by rewrite bool_decide_false]. }
        rewrite Nat2Z.inj_add, Hcl.
        assert (Hkeep : (if keep' && negb (bool_decide (k1 = 1%Z)) && bool_decide (choice st = x)
                         then Z.of_nat (length (eligible_upto P c all seen)) else 0)%Z =
                        ((k1 - 1) * (if keep' && bool_decide (choice st = x) then 1 else 0))%Z).
        { destruct keep'; simpl; [|lia].
          destruct (bool_decide (k1 = 1%Z)) eqn:E1; simpl.
          - apply bool_decide_eq_true in E1. destruct (bool_decide (choice st = x)); lia.
          - apply bool_decide_eq_false in E1. destruct Hk0 as [?|Hk0]; [done|].
            destruct (bool_decide (choice st = x)); lia. }
        rewrite Hkeep, Hch1. clear Hkeep Hcl.
        revert HMa HMb.
        generalize (mass (λ s, bool_decide (choice s = x))
          (W4_dist c all ls {| min_cost := min_cost (W4_pre c all st l);
                               k := (k1 + 1)%Z; choice := l |})).
        generalize (mass (λ s, bool_decide (choice s = x))
          (W4_dist c all ls {| min_cost := min_cost (W4_pre c all st l);
                               k := (k1 + 1)%Z; choice := choice st |})).
        generalize (Z.of_nat (length (eligible_upto P c all ((seen ++ [l]) ++ ls)))).
        generalize (Z.of_nat (count_occ Z.eq_dec S' x)).
        intros nS E mb ma HMa HMb.
        destruct keep', (bool_decide (l = x)), (bool_decide (choice st = x));
          simpl in *; nia.
    + destruct Hstep0 as [HE0 _].
      exists S', keep', T'. split; [by rewrite HE', HE0|]. split; [done|].
      intros st Hm Hk. destruct (Hbranch st Hm Hk) as [Ek Ec].
      pose proof (eligible_step P c all seen l st Hmax Hok1 Hm Hk) as Hstep.
      simpl in Hstep. destruct Hstep as (Hmin1 & Hch1 & Hstep).
      rewrite decide_False in Hstep by (by rewrite Ec).
      destruct Hstep as [HE1 Hst1].
      rewrite W4_dist_cons. simpl. rewrite decide_False by (by rewrite Ec).
      rewrite Hst1.
      destruct (HD' st) as [HTa HMa].
      { by rewrite <- Hst1 at 1. }
      { by rewrite HE1. }
      rewrite !mass_app, !mass_scale. simpl. rewrite HTa. split; [lia|].
      intros x. rewrite !mass_app, !mass_scale. simpl.
      specialize (HMa x). rewrite HE1 in HMa. lia.
Qed.

Lemma W4_draws_with P draws c all ls st :
  W4_draws P draws c all ls st = W4_with (flip_coin P) draws c all ls st.
Proof. reflexivity. Qed.

Lemma W4_with_cons heads draws c all l ls st n :
  W4_with heads draws c all (l :: ls) st n =
  let st1 := W4_pre c all st l in
  if decide (W4_candidate c all st1 l) then
    W4_with heads draws c all ls
      {| min_cost := min_cost st1; k := (k st1 + 1)%Z;
         choice := if heads (k st1) (draws n) then l else choice st1 |}
      (S n)
  else W4_with heads draws c all ls st1 n.
Proof.
  unfold W4_with at 1. simpl. unfold rand_bind at 1. unfold W4_lit.
  fold (W4_pre c all st l). unfold W4_candidate. simpl.
  case_decide; [|done].
  unfold rand_bind, rand, rand_ret. done.
Qed.

(** The scan keeps [choice] among the literals eligible so far, whatever
    the coin does for [k > 1]. *)
Lemma W4_with_eligible P heads draws c all ls : ∀ seen st n,
  (∀ r, (0 ≤ r ≤ RAND_MAX P)%Z → heads 1%Z r = true) →
  draws_ok P draws → (0 < lit_max P)%Z →
  costs_ok P c (seen ++ ls) →
  min_cost st = least P c seen →
  k st = (Z.of_nat (length (eligible_upto P c all seen)) + 1)%Z →
  (seen ≠ [] → choice st ∈ eligible_upto P c all seen) →
  seen ++ ls ≠ [] →
  choice (W4_with heads draws c all ls st n).1 ∈ eligible_upto P c all (seen ++ ls).
Proof.
  induction ls as [|l ls IH]; intros seen st n H1 Hd Hmax Hok Hmin Hk Hch Hne.
  - rewrite app_nil_r in *. simpl. by apply Hch.
  - rewrite W4_with_cons.
    assert (Hok1 : costs_ok P c (seen ++ [l])).
    { intros x Hx. apply Hok. rewrite elem_of_app in Hx |- *.
      destruct Hx as [?|[->|[]%not_elem_of_nil]%elem_of_cons]; [by left|right; by left]. }
    pose proof (eligible_step P c all seen l st Hmax Hok1 Hmin Hk) as Hstep.
    simpl in Hstep. destruct Hstep as (Hmin1 & Hch1 & Hstep).
    assert (Happ : seen ++ l :: ls = (seen ++ [l]) ++ ls) by (by rewrite <- app_assoc).
    rewrite Happ in Hok |- *. simpl.
    assert (Hne1 : eligible_upto P c all (seen ++ [l]) ≠ []).
    { apply eligible_upto_nonempty; [by destruct seen|done]. }
    destruct (decide (W4_candidate c all (W4_pre c all st l) l)) as [Hc|Hc].
    + destruct Hstep as [HE Hk1]. apply IH; try done.
      * simpl. rewrite HE, length_app. simpl.
        case_decide as E1; simpl; [lia|].
        destruct Hk1 as [?|Hk1]; [done|]. rewrite Hk1, Hk. lia.
      * intros _. simpl. rewrite HE.
        destruct (heads _ _) eqn:Ef; [apply elem_of_app; right; by left|].
        case_decide as E1.
        -- rewrite E1, H1 in Ef by apply Hd. done.
        -- apply elem_of_app. left. rewrite Hch1. apply Hch.
           intros ->. destruct Hk1 as [?|Hk1]; [done|].
           rewrite Hk1, Hk in E1. simpl in E1. unfold eligible_upto in E1.
           destruct (all && _) in E1; simpl in E1; lia.
      * by destruct seen.
    + destruct Hstep as [HE Hst1]. rewrite Hst1. apply IH; try done.
      * by rewrite <- Hst1.
      * by rewrite HE.
      * intros _. rewrite HE. apply Hch. intros ->.
        rewrite HE in Hne1. apply Hne1. unfold eligible_upto.
        by destruct (all && _).
      * by destruct seen.
Qed.

(** The first draw is gone: the scan from position [n + 1] of [r :: rs] is
    the scan from position [n] of [rs]. *)
Lemma W4_with_shift heads c all r rs ls : ∀ st n,
  (W4_with heads (draws_of (r :: rs)) c all ls st (S n)).1 =
  (W4_with heads (draws_of rs) c all ls st n).1.
Proof.
  induction ls as [|l ls IH]; intros st n; [done|].
  rewrite !W4_with_cons. cbv zeta.
  change (draws_of (r :: rs) (S n)) with (draws_of rs n).
  case_decide; apply IH.
Qed.

Lemma W4_pick_nil heads c all st rs : W4_pick heads c all [] st rs = choice st.
Proof. reflexivity. Qed.

Lemma W4_pick_skip heads c all l ls st rs :
  ¬ W4_candidate c all (W4_pre c all st l) l →
  W4_pick heads c all (l :: ls) st rs = W4_pick heads c all ls (W4_pre c all st l) rs.
Proof.
  intros Hc. unfold W4_pick. rewrite W4_with_cons. cbv zeta.
  by rewrite decide_False.
Qed.

Lemma W4_pick_coin heads c all l ls st r rs :
  W4_candidate c all (W4_pre c all st l) l →
  W4_pick heads c all (l :: ls) st (r :: rs) =
  W4_pick heads c all ls
    {| min_cost := min_cost (W4_pre c all st l);
       k := (k (W4_pre c all st l) + 1)%Z;
       choice := if heads (k (W4_pre c all st l)) r then l
                 else choice (W4_pre c all st l) |} rs.
Proof.
  intros Hc. unfold W4_pick. rewrite W4_with_cons. cbv zeta.
  rewrite decide_True by done.
  change (draws_of (r :: rs) 0) with r. by rewrite W4_with_shift.
Qed.

Lemma all_draws_length P :
  (0 ≤ RAND_MAX P + 1)%Z → Z.of_nat (length (all_draws P)) = (RAND_MAX P + 1)%Z.
Proof. intros H. unfold all_draws. rewrite length_fmap, length_seq. lia. Qed.

Lemma draw_seqs_count P t :
  (0 ≤ RAND_MAX P + 1)%Z →
  Z.of_nat (length (draw_seqs P t)) = ((RAND_MAX P + 1) ^ Z.of_nat t)%Z.
Proof.
  intros H. rewrite draw_seqs_length, Nat2Z.inj_pow. by rewrite all_draws_length.
Qed.

Lemma filter_complement {A} (p : A → bool) (l : list A) :
  length (List.filter p l) + length (List.filter (λ x, negb (p x)) l) = length l.
Proof. induction l as [|x l IH]; [done|]. simpl. destruct (p x); simpl; lia. Qed.

Lemma tails_count P heads k :
  (0 ≤ RAND_MAX P + 1)%Z →
  Z.of_nat (count_draws P (λ r, negb (heads k r))) =
  (RAND_MAX P + 1 - heads_count P heads k)%Z.
Proof.
  intros H. unfold heads_count, count_draws.
  pose proof (filter_complement (heads k) (all_draws P)).
  pose proof (all_draws_length P H). lia.
Qed.

Lemma heads_count_bounds P heads k :
  (0 ≤ RAND_MAX P + 1)%Z → (0 ≤ heads_count P heads k ≤ RAND_MAX P + 1)%Z.
Proof.
  intros H. pose proof (tails_count P heads k H). unfold heads_count in *. lia.
Qed.

Section scan_on_draws.
Variables (P : Platform) (heads : Z → Z → bool) (c : Cnf) (all : bool).

Lemma W4_count_nil st t x :
  W4_count P heads c all [] st t x =
  if bool_decide (choice st = x) then length (draw_seqs P t) else 0.
Proof.
  unfold W4_count. rewrite <- filter_const. f_equal.
Qed.

Lemma W4_count_skip l ls st t x :
  ¬ W4_candidate c all (W4_pre c all st l) l →
  W4_count P heads c all (l :: ls) st t x =
  W4_count P heads c all ls (W4_pre c all st l) t x.
Proof.
  intros Hc. unfold W4_count. f_equal. apply filter_ext. intros rs.
  by rewrite W4_pick_skip.
Qed.

Lemma W4_count_coin l ls st t x :
  W4_candidate c all (W4_pre c all st l) l →
  let st1 := W4_pre c all st l in
  W4_count P heads c all (l :: ls) st (S t) x =
  W4_count P heads c all ls
    {| min_cost := min_cost st1; k := (k st1 + 1)%Z; choice := l |} t x *
    count_draws P (heads (k st1)) +
  W4_count P heads c all ls
    {| min_cost := min_cost st1; k := (k st1 + 1)%Z; choice := choice st1 |} t x *
    count_draws P (λ r, negb (heads (k st1) r)).
Proof.
  intros Hc st1. unfold W4_count at 1. cbn [draw_seqs].
  rewrite count_bind_cons. unfold count_draws.
  apply sum_list_two_classes. intros r _. unfold W4_count.
  destruct (heads (k st1) r) eqn:Eh; simpl.
  - rewrite Nat.add_0_r. f_equal. apply filter_ext. intros rs.
    rewrite W4_pick_coin by done. fold st1. by rewrite Eh.
  - f_equal. apply filter_ext. intros rs.
    rewrite W4_pick_coin by done. fold st1. by rewrite Eh.
Qed.

Lemma W4_draw_dist_mass p l ls st :
  let st1 := W4_pre c all st l in
  mass p (W4_draw_dist P heads c all (l :: ls) st) =
  if decide (W4_candidate c all st1 l) then
    (heads_count P heads (k st1) *
       mass p (W4_draw_dist P heads c all ls
                 {| min_cost := min_cost st1; k := (k st1 + 1)%Z; choice := l |}) +
     (RAND_MAX P + 1 - heads_count P heads (k st1)) *
       mass p (W4_draw_dist P heads c all ls
                 {| min_cost := min_cost st1; k := (k st1 + 1)%Z;
                    choice := choice st1 |}))%Z
  else mass p (W4_draw_dist P heads c all ls st1).
Proof.
  intros st1. unfold W4_draw_dist at 1. simpl. unfold W4_lit.
  fold (W4_pre c all st l). fold st1. unfold W4_candidate.
  case_decide; simpl; rewrite ?app_nil_r, ?mass_app, ?mass_scale;
    unfold W4_draw_dist; lia.
Qed.

(** The total weight does not depend on [choice]. *)
Lemma W4_draw_dist_total ls : ∀ st st',
  min_cost st = min_cost st' → k st = k st' →
  mass (λ _, true) (W4_draw_dist P heads c all ls st) =
  mass (λ _, true) (W4_draw_dist P heads c all ls st').
Proof.
  induction ls as [|l ls IH]; intros st st' Hm Hk; [done|].
  rewrite !W4_draw_dist_mass. cbv zeta.
  assert (E1 : min_cost (W4_pre c all st l) = min_cost (W4_pre c all st' l)).
  { unfold W4_pre. rewrite Hm. by case_decide. }
  assert (E2 : k (W4_pre c all st l) = k (W4_pre c all st' l)).
  { unfold W4_pre. rewrite Hm. case_decide; simpl; [|done]. by case_decide. }
  assert (E3 : W4_candidate c all (W4_pre c all st l) l ↔
               W4_candidate c all (W4_pre c all st' l) l).
  { unfold W4_candidate. by rewrite E1. }
  destruct (decide (W4_candidate c all (W4_pre c all st l) l)) as [Hc|Hc].
  - rewrite decide_True by (by apply E3). rewrite E2.
    rewrite (IH _ {| min_cost := min_cost (W4_pre c all st' l);
                     k := (k (W4_pre c all st' l) + 1)%Z; choice := l |})
      by (simpl; congruence).
    rewrite (IH {| min_cost := min_cost (W4_pre c all st l);
                   k := (k (W4_pre c all st' l) + 1)%Z;
                   choice := choice (W4_pre c all st l) |}
               {| min_cost := min_cost (W4_pre c all st' l);
                  k := (k (W4_pre c all st' l) + 1)%Z; choice := l |})
      by (simpl; congruence).
    rewrite (IH {| min_cost := min_cost (W4_pre c all st' l);
                   k := (k (W4_pre c all st' l) + 1)%Z;
                   choice := choice (W4_pre c all st' l) |}
               {| min_cost := min_cost (W4_pre c all st' l);
                  k := (k (W4_pre c all st' l) + 1)%Z; choice := l |})
      by (simpl; congruence).
    done.
  - rewrite decide_False by (by rewrite <- E3). by apply IH.
Qed.

(** The scan on the sequences of [t] draws and the scan on the weighted
    coin: the share of the sequences that end on [x] is the share of the
    weight that ends on [x]. *)
Lemma W4_count_mass ls : ∀ st t x,
  (0 ≤ RAND_MAX P + 1)%Z → length ls ≤ t →
  (Z.of_nat (W4_count P heads c all ls st t x) *
     mass (λ _, true) (W4_draw_dist P heads c all ls st) =
   mass (λ s, bool_decide (choice s = x)) (W4_draw_dist P heads c all ls st) *
     (RAND_MAX P + 1) ^ Z.of_nat t)%Z.
Proof.
  induction ls as [|l ls IH]; intros st t x HN Ht.
  - rewrite W4_count_nil. simpl.
    destruct (bool_decide (choice st = x)); [|lia].
    rewrite draw_seqs_count by done. lia.
  - destruct (decide (W4_candidate c all (W4_pre c all st l) l)) as [Hc|Hc].
    + destruct t as [|t]; [simpl in Ht; lia|].
      rewrite (W4_count_coin l ls st t x Hc). cbv zeta.
      rewrite !W4_draw_dist_mass. cbv zeta. rewrite !decide_True by done.
      set (st1 := W4_pre c all st l).
      set (sh := {| min_cost := min_cost st1; k := (k st1 + 1)%Z; choice := l |}).
      set (stl := {| min_cost := min_cost st1; k := (k st1 + 1)%Z;
                     choice := choice st1 |}).
      pose proof (IH sh t x HN ltac:(simpl in Ht; lia)) as Ih.
      pose proof (IH stl t x HN ltac:(simpl in Ht; lia)) as Il.
      rewrite (W4_draw_dist_total ls stl sh) in Il |- * by done.
      rewrite Nat2Z.inj_add, !Nat2Z.inj_mul, tails_count by done.
      fold (heads_count P heads (k st1)).
      replace (Z.of_nat (S t)) with (Z.of_nat t + 1)%Z by lia.
      rewrite Z.pow_add_r, Z.pow_1_r by lia.
      revert Ih Il.
      generalize (Z.of_nat (W4_count P heads c all ls sh t x)).
      generalize (Z.of_nat (W4_count P heads c all ls stl t x)).
      generalize (mass (λ _, true) (W4_draw_dist P heads c all ls sh)).
      generalize (mass (λ s, bool_decide (choice s = x)) (W4_draw_dist P heads c all ls sh)).
      generalize (mass (λ s, bool_decide (choice s = x)) (W4_draw_dist P heads c all ls stl)).
      generalize ((RAND_MAX P + 1) ^ Z.of_nat t)%Z.
      generalize (heads_count P heads (k st1)). generalize (RAND_MAX P + 1)%Z.
      intros N h X Ml Mh T cl ch Ih Il.
      transitivity (N * (h * (ch * T) + (N - h) * (cl * T)))%Z; [ring|].
      rewrite Ih, Il. ring.
    + rewrite (W4_count_skip l ls st t x Hc).
      rewrite !W4_draw_dist_mass. cbv zeta. rewrite !decide_False by done.
      apply IH; [done|simpl in Ht; lia].
Qed.
End scan_on_draws.

Lemma W4_pre_with_choice c all st ch l :
  W4_pre c all (with_choice st ch) l = with_choice (W4_pre c all st l) ch.
Proof. unfold W4_pre, with_choice. simpl. by case_decide. Qed.

Lemma W4_pre_k c all st l :
  (1 ≤ k st)%Z → (1 ≤ k (W4_pre c all st l) ≤ k st)%Z.
Proof.
  intros H. unfold W4_pre. case_decide; simpl; [|lia]. case_decide; lia.
Qed.

Lemma W4_dist_mass p c all l ls st :
  let st1 := W4_pre c all st l in
  mass p (W4_dist c all (l :: ls) st) =
  if decide (W4_candidate c all st1 l) then
    (mass p (W4_dist c all ls
               {| min_cost := min_cost st1; k := (k st1 + 1)%Z; choice := l |}) +
     (k st1 - 1) *
       mass p (W4_dist c all ls
                 {| min_cost := min_cost st1; k := (k st1 + 1)%Z;
                    choice := choice st1 |}))%Z
  else mass p (W4_dist c all ls st1).
Proof.
  intros st1. rewrite W4_dist_cons. cbv zeta. fold st1.
  case_decide; rewrite ?app_nil_r, ?mass_app, ?mass_scale; lia.
Qed.

Section exact_coin.
Variables (P : Platform) (heads : Z → Z → bool) (c : Cnf) (all : bool) (m : nat).
Hypothesis HN : (0 < RAND_MAX P + 1)%Z.
Hypothesis Hexact : exact_coins P heads m.

(** With coins that are heads on one value in [k], the weights that the
    draws give are those of the coin described on [flip], up to a factor. *)
Lemma W4_draw_dist_exact ls : ∀ st,
  (1 ≤ k st)%Z → (k st + Z.of_nat (length ls) - 1 ≤ Z.of_nat m)%Z →
  ∃ F, (0 < F)%Z ∧ ∀ ch p,
    mass p (W4_draw_dist P heads c all ls (with_choice st ch)) =
    (F * mass p (W4_dist c all ls (with_choice st ch)))%Z.
Proof using HN Hexact.
  induction ls as [|l ls IH]; intros st Hk Hm.
  - exists 1%Z. split; [lia|]. intros ch p. simpl. lia.
  - pose proof (W4_pre_k c all st l Hk) as Hk1.
    set (st1 := W4_pre c all st l) in *.
    destruct (decide (W4_candidate c all st1 l)) as [Hc|Hc].
    + set (st2 := {| min_cost := min_cost st1; k := (k st1 + 1)%Z; choice := 0%Z |}).
      destruct (IH st2) as (F & HF & HD).
      { simpl. lia. }
      { simpl. simpl in Hm. lia. }
      pose proof (Hexact (k st1) ltac:(simpl in Hm; lia)) as He.
      pose proof (heads_count_bounds P heads (k st1) ltac:(lia)) as Hb.
      set (h := heads_count P heads (k st1)) in *.
      assert (Hh : (0 < h)%Z) by nia.
      exists (h * F)%Z. split; [nia|]. intros ch p.
      rewrite W4_draw_dist_mass, W4_dist_mass. cbv zeta.
      rewrite !W4_pre_with_choice. fold st1.
      change (W4_candidate c all (with_choice st1 ch) l) with (W4_candidate c all st1 l).
      rewrite !decide_True by done. simpl.
      pose proof (HD l p) as E1. pose proof (HD ch p) as E2.
      unfold with_choice in E1, E2. simpl in E1, E2. fold h.
      rewrite E1, E2.
      replace (RAND_MAX P + 1 - h)%Z with (h * (k st1 - 1))%Z by lia. ring.
    + destruct (IH st1) as (F & HF & HD); [lia|simpl in Hm; lia|].
      exists F. split; [done|]. intros ch p.
      rewrite W4_draw_dist_mass, W4_dist_mass. cbv zeta.
      rewrite !W4_pre_with_choice. fold st1.
      change (W4_candidate c all (with_choice st1 ch) l) with (W4_candidate c all st1 l).
      rewrite !decide_False by done. apply HD.
Qed.
End exact_coin.

Lemma W4_draw_dist_positive P heads c all ls : ∀ st,
  (0 < RAND_MAX P + 1)%Z →
  (0 < mass (λ _, true) (W4_draw_dist P heads c all ls st))%Z.
Proof.
  induction ls as [|l ls IH]; intros st HN; [simpl; lia|].
  rewrite W4_draw_dist_mass. cbv zeta. case_decide; [|by apply IH].
  rewrite (W4_draw_dist_total P heads c all ls
             {| min_cost := min_cost (W4_pre c all st l);
                k := (k (W4_pre c all st l) + 1)%Z;
                choice := choice (W4_pre c all st l) |}
             {| min_cost := min_cost (W4_pre c all st l);
                k := (k (W4_pre c all st l) + 1)%Z; choice := l |}) by done.
  pose proof (IH {| min_cost := min_cost (W4_pre c all st l);
                    k := (k (W4_pre c all st l) + 1)%Z; choice := l |} HN).
  nia.
Qed.

(** With the coin described on [flip], heads one time in [k], [choice] is
    uniform over the eligible literals. *)
Lemma W4_dist_uniform P c all ls :
  (0 < lit_max P)%Z → costs_ok P c ls →
  let E := W4_eligible c all ls in
  let D := W4_dist c all ls (W4_init P) in
  (0 < mass (λ _, true) D)%Z ∧
  ∀ l, (mass (λ s, bool_decide (choice s = l)) D * Z.of_nat (length E) =
        Z.of_nat (count_occ Z.eq_dec E l) * mass (λ _, true) D)%Z.
Proof.
  intros Hmax Hok E D.
  assert (HE : E = eligible_upto P c all ls) by (by apply W4_eligible_upto).
  destruct (W4_dist_shares P c all ls [] Hmax Hok) as (S & keep & T & HS & HT & HDs).
  destruct (HDs (W4_init P)) as [Htot Hmass].
  { done. }
  { simpl. unfold eligible_upto. by destruct (all && _). }
  fold D in Htot, Hmass. rewrite Htot. split; [done|]. intros l.
  specialize (Hmass l). simpl in HS, Hmass.
  rewrite <- HE in HS, Hmass. rewrite Hmass.
  assert (HE0 : eligible_upto P c all [] = []).
  { unfold eligible_upto. by destruct (all && _). }
  rewrite HE0 in HS |- *. simpl. rewrite HS.
  destruct keep; simpl; [|lia]. destruct (bool_decide _); lia.
Qed.

(** With coins that are heads on one value in [k], the scan ends equally
    often on each eligible literal. *)
Lemma W4_count_uniform P heads c all ls t x :
  (0 < RAND_MAX P + 1)%Z → (0 < lit_max P)%Z → costs_ok P c ls →
  exact_coins P heads (length ls) → length ls ≤ t →
  (Z.of_nat (W4_count P heads c all ls (W4_init P) t x) *
     Z.of_nat (length (W4_eligible c all ls)) =
   Z.of_nat (count_occ Z.eq_dec (W4_eligible c all ls) x) *
     (RAND_MAX P + 1) ^ Z.of_nat t)%Z.
Proof.
  intros HN Hmax Hok Hex Ht.
  pose proof (W4_count_mass P heads c all ls (W4_init P) t x ltac:(lia) Ht) as Hl.
  destruct (W4_draw_dist_exact P heads c all (length ls) HN Hex ls (W4_init P))
    as (F & HF & HD); [simpl; lia|simpl; lia|].
  pose proof (HD (lit_nil P) (λ _, true)) as E1.
  pose proof (HD (lit_nil P) (λ s, bool_decide (choice s = x))) as E2.
  change (with_choice (W4_init P) (lit_nil P)) with (W4_init P) in E1, E2.
  destruct (W4_dist_uniform P c all ls Hmax Hok) as [HT HU].
  specialize (HU x). cbv zeta in HT, HU.
  rewrite E1, E2 in Hl. revert Hl HT HU.
  generalize (Z.of_nat (W4_count P heads c all ls (W4_init P) t x)).
  generalize (mass (λ _, true) (W4_dist c all ls (W4_init P))).
  generalize (mass (λ s, bool_decide (choice s = x)) (W4_dist c all ls (W4_init P))).
  generalize (Z.of_nat (length (W4_eligible c all ls))).
  generalize (Z.of_nat (count_occ Z.eq_dec (W4_eligible c all ls) x)).
  generalize ((RAND_MAX P + 1) ^ Z.of_nat t)%Z.
  intros X occ nE M T cnt Hl HT HU.
  apply (Z.mul_reg_l _ _ (F * T)%Z); [nia|].
  transitivity (nE * (cnt * (F * T)))%Z; [ring|]. rewrite Hl.
  transitivity (F * X * (M * nE))%Z; [ring|]. rewrite HU. ring.
Qed.

(** [flip(1.0/k)] in exact arithmetic: heads when [r * k <= RAND_MAX]. *)
Lemma flip_coin_spec P k r :
  (0 < RAND_MAX P)%Z → (1 ≤ k)%Z →
  flip_coin P k r = true ↔ (r * k ≤ RAND_MAX P)%Z.
Proof.
  intros HM Hk. unfold flip_coin, flip. rewrite Qle_bool_iff.
  destruct (RAND_MAX P) as [|M|M]; try lia. destruct k as [|k|k]; try lia.
  unfold Qle, Qdiv, Qmult, Qinv, inject_Z. simpl. lia.
Qed.

Lemma flip_coin_heads P k :
  (0 < RAND_MAX P)%Z → (1 ≤ k)%Z →
  heads_count P (flip_coin P) k = (RAND_MAX P / k + 1)%Z.
Proof.
  intros HM Hk. unfold heads_count, count_draws.
  pose proof (Z.div_pos (RAND_MAX P) k ltac:(lia) ltac:(lia)) as Hq.
  pose proof (Z.div_le_upper_bound (RAND_MAX P) k (RAND_MAX P) ltac:(lia) ltac:(nia)) as Hu.
  erewrite filter_ext_in.
  - unfold all_draws. rewrite (count_interval 0 (RAND_MAX P / k + 1)) by lia. lia.
  - intros r Hr%in_all_draws. simpl. apply eq_true_iff_eq.
    rewrite flip_coin_spec, andb_true_iff, Z.leb_le, Z.ltb_lt by done.
    split.
    + intros H. split; [lia|].
      pose proof (Z.div_le_lower_bound (RAND_MAX P) k r ltac:(lia) ltac:(lia)). lia.
    + intros [_ H]. pose proof (Z.mul_div_le (RAND_MAX P) k ltac:(lia)). nia.
Qed.

Lemma flip_coin_one P r :
  (0 ≤ RAND_MAX P)%Z → (0 ≤ r ≤ RAND_MAX P)%Z → flip_coin P 1 r = true.
Proof.
  intros HM Hr. unfold flip_coin, flip. apply Qle_bool_iff.
  destruct (RAND_MAX P) as [|M|M]; try lia.
  - assert (r = 0%Z) as -> by lia. done.
  - unfold Qle, Qdiv, Qmult, Qinv, inject_Z. simpl. lia.
Qed.

Lemma draws_of_ok P l :
  (0 ≤ RAND_MAX P)%Z → Forall (λ r, (0 ≤ r ≤ RAND_MAX P)%Z) l →
  draws_ok P (draws_of l).
Proof.
  intros HR Hl n. unfold draws_of. revert n.
  induction Hl as [|r l Hr Hl IH]; intros [|n]; simpl; try lia. apply IH.
Qed.

Lemma draw_seqs_ok P t : ∀ rs,
  In rs (draw_seqs P t) → Forall (λ r, (0 ≤ r ≤ RAND_MAX P)%Z) rs.
Proof.
  induction t as [|t IH]; intros rs Hrs.
  - destruct Hrs as [<-|[]]. constructor.
  - cbn [draw_seqs] in Hrs. apply list_elem_of_In in Hrs.
    apply list_elem_of_bind in Hrs as (r & Hrs & Hr).
    apply list_elem_of_fmap in Hrs as (rs' & -> & Hrs').
    constructor.
    + by apply in_all_draws, list_elem_of_In.
    + by apply IH, list_elem_of_In.
Qed.

Lemma one_class (E : list Z) (y : Z) :
  NoDup E → y ∈ E →
  sum_list_with (λ x, if bool_decide (y = x) then 1 else 0) E = 1.
Proof.
  induction E as [|x E IH]; intros Hnd Hy; [by apply elem_of_nil in Hy|].
  apply list.NoDup_cons in Hnd as [Hx Hnd]. cbn [sum_list_with].
  destruct (decide (y = x)) as [->|Hne].
  - rewrite bool_decide_true by done.
    assert (sum_list_with (λ x0, if bool_decide (x = x0) then 1 else 0) E = 0) as ->; [|done].
    clear -Hx. induction E as [|z E IH]; [done|]. cbn [sum_list_with].
    rewrite bool_decide_false by (intros ->; apply Hx; left).
    rewrite IH; [done|]. intros H. apply Hx. by right.
  - rewrite bool_decide_false by done. apply elem_of_cons in Hy as [?|Hy]; [done|].
    by rewrite IH.
Qed.

(** Sequences that each end on a literal of [E] are shared out among the
    literals of [E]. *)
Lemma classes_cover {A} (pick : A → Z) (E : list Z) (L : list A) :
  NoDup E → (∀ a, In a L → pick a ∈ E) →
  sum_list_with (λ x, length (List.filter (λ a, bool_decide (pick a = x)) L)) E =
  length L.
Proof.
  intros Hnd. induction L as [|a L IH]; intros Hin.
  - clear. induction E as [|x E IHE]; [done|]. simpl. exact IHE.
  - specialize (IH (λ b Hb, Hin b (or_intror Hb))).
    pose proof (one_class E (pick a) Hnd (Hin a (or_introl eq_refl))) as H1.
    transitivity
      (sum_list_with (λ x, if bool_decide (pick a = x) then 1 else 0) E +
       sum_list_with (λ x, length (List.filter (λ b, bool_decide (pick b = x)) L)) E);
      [|rewrite H1, IH; cbn [length]; lia].
    clear. induction E as [|x E IHE]; [done|]. cbn [sum_list_with].
    rewrite IHE. cbn [List.filter].
    destruct (bool_decide (pick a = x)); cbn [length]; lia.
Qed.

Lemma W4_is_W4_with P draws c all K n :
  W4 P draws c all K n =
  W4_with (flip_coin P) draws c all (clause_lits c K) (W4_init P) n.
Proof. reflexivity. Qed.

Lemma W4_eligible_sub c all ls l : l ∈ W4_eligible c all ls → l ∈ ls.
Proof.
  unfold W4_eligible, least_cost_lits.
  destruct (all && _); [done|]. rewrite !list_elem_of_In, filter_In. tauto.
Qed.

Lemma W4_with_in_eligible P heads draws c all ls n :
  (∀ r, (0 ≤ r ≤ RAND_MAX P)%Z → heads 1%Z r = true) →
  draws_ok P draws → (0 < lit_max P)%Z → costs_ok P c ls → ls ≠ [] →
  choice (W4_with heads draws c all ls (W4_init P) n).1 ∈ W4_eligible c all ls.
Proof.
  intros H1 Hd Hmax Hok Hne. rewrite (W4_eligible_upto P) by done.
  apply (W4_with_eligible P heads draws c all ls [] (W4_init P) n); try done.
  simpl. unfold eligible_upto. by destruct (all && _).
Qed.


Lemma two_false_clause : clause_lits two_false 0 = [1; 2]%Z.
Proof. vm_compute. reflexivity. Qed.

Lemma two_false_costs : costs_ok rand15_platform two_false [1; 2]%Z.
Proof.
  intros l Hin. apply list_elem_of_In in Hin. simpl in Hin.
  destruct Hin as [<-|[<-|[]]]; vm_compute; split; discriminate.
Qed.

Lemma rand15_exact : exact_coins rand15_platform (flip_coin rand15_platform) 2.
Proof.
  intros k Hk. rewrite flip_coin_heads by (done || lia).
  assert (k = 1 ∨ k = 2)%Z as [-> | ->] by lia; reflexivity.
Qed.


Lemma three_false_clause : clause_lits three_false 0 = [1; 2; 3]%Z.
Proof. vm_compute. reflexivity. Qed.

Lemma three_false_costs : costs_ok example_platform three_false [1; 2; 3]%Z.
Proof.
  intros l Hin. apply list_elem_of_In in Hin. simpl in Hin.
  destruct Hin as [<-|[<-|[<-|[]]]]; vm_compute; split; discriminate.
Qed.

Lemma three_false_eligible all : W4_eligible three_false all [1; 2; 3]%Z = [1; 2; 3]%Z.
Proof. destruct all; vm_compute; reflexivity. Qed.

(** Whatever the coin, the sequences of [t] draws are shared out among the
    eligible literals. *)
Lemma W4_count_total P heads c all ls t :
  (0 ≤ RAND_MAX P)%Z → (0 < lit_max P)%Z →
  (∀ r, (0 ≤ r ≤ RAND_MAX P)%Z → heads 1%Z r = true) →
  costs_ok P c ls → ls ≠ [] → NoDup (W4_eligible c all ls) →
  sum_list_with (W4_count P heads c all ls (W4_init P) t) (W4_eligible c all ls) =
  length (draw_seqs P t).
Proof.
  intros HM Hmax H1 Hok Hne Hnd. unfold W4_count.
  apply (classes_cover (W4_pick heads c all ls (W4_init P))); [done|].
  intros rs Hrs. unfold W4_pick. apply (W4_with_in_eligible P); try done.
  apply draws_of_ok; [done|]. by apply (draw_seqs_ok P t).
Qed.

Lemma sum_list_with_three {A} (g : A → nat) (a b d : A) :
  sum_list_with g [a; b; d] = g a + g b + g d.
Proof. simpl. lia. Qed.

Lemma three_false_sum (heads : Z → Z → bool) :
  (∀ r, (0 ≤ r ≤ RAND_MAX example_platform)%Z → heads 1%Z r = true) →
  three_false_count heads 1 + three_false_count heads 2 + three_false_count heads 3 =
  length (draw_seqs example_platform 3).
Proof.
  intros H1.
  pose proof (W4_count_total example_platform heads three_false false [1; 2; 3]%Z 3
                ltac:(discriminate) ltac:(reflexivity) H1 three_false_costs
                ltac:(discriminate)) as Hsum.
  rewrite three_false_eligible in Hsum.
  specialize (Hsum ltac:(apply (bool_decide_unpack _); vm_compute; exact I)).
  rewrite sum_list_with_three in Hsum. exact Hsum.
Qed.

Lemma three_false_sum_Z (heads : Z → Z → bool) :
  (∀ r, (0 ≤ r ≤ RAND_MAX example_platform)%Z → heads 1%Z r = true) →
  (Z.of_nat (three_false_count heads 1) + Z.of_nat (three_false_count heads 2) +
   Z.of_nat (three_false_count heads 3) = 9903520314283042199192993792)%Z.
Proof.
  intros H1. rewrite <- !Nat2Z.inj_add, (three_false_sum heads H1).
  rewrite draw_seqs_count by discriminate. reflexivity.
Qed.

(** Three literals cannot be chosen equally often when the number of values
    of a draw is a power of two, whatever the coin. *)
Lemma thirds_of_a_power_of_two (heads : Z → Z → bool) :
  (∀ r, (0 ≤ r ≤ RAND_MAX example_platform)%Z → heads 1%Z r = true) →
  ¬ (three_false_count heads 1 = three_false_count heads 2 ∧
     three_false_count heads 2 = three_false_count heads 3).
Proof.
  intros H1 [E12 E23]. pose proof (three_false_sum_Z heads H1) as Hsum.
  rewrite <- E23, <- E12 in Hsum. revert Hsum.
  generalize (Z.of_nat (three_false_count heads 1)). intros z Hsum. lia.
Qed.


(** ** The cost of a variable *)

Lemma filter_andb {A} (p q : A → bool) (l : list A) :
  List.filter (λ x, p x && q x) l = List.filter q (List.filter p l).
Proof.
  induction l as [|x l IH]; [done|]. simpl.
  destruct (p x); simpl; [|done]. destruct (q x); by rewrite IH.
Qed.

Lemma find_filter {A} (p : A → bool) (l : list A) :
  List.find p l = head (List.filter p l).
Proof. induction l as [|x l IH]; [done|]. simpl. by destruct (p x). Qed.

Lemma other_true_filter c v k :
  other_true c v k =
  List.filter (λ l, bool_decide (var l ≠ v)) (List.filter (is_true c) (clause_lits c k)).
Proof. apply filter_andb. Qed.

(** With [numtrue[k]] the number of true literals, the variable of the one
    true literal of a clause is [mid_var]. *)
Lemma critical_mid c v u k :
  numtrue c !!! k = Z.of_nat (count_true c k) →
  critical c u k = mid_critical c v c u k.
Proof.
  intros Hn. unfold critical, mid_critical.
  destruct (bool_decide (numtrue c !!! k = 1%Z)) eqn:E1; [|done]. simpl.
  apply bool_decide_eq_true in E1. rewrite Hn in E1. unfold count_true in E1.
  unfold mid_var. rewrite other_true_filter.
  destruct (List.filter (is_true c) (clause_lits c k)) as [|l [|l' ls]];
    simpl in E1; try lia. simpl.
  apply bool_decide_ext. case_bool_decide; simpl; split; congruence.
Qed.

Lemma count_change (p p' : nat → bool) n i :
  (∀ k, k < n → k ≠ i → p' k = p k) → i < n →
  length (List.filter p' (seq 0 n)) + (if p i then 1 else 0) =
  length (List.filter p (seq 0 n)) + (if p' i then 1 else 0).
Proof.
  intros Hext Hi. induction n as [|n IH]; [lia|].
  rewrite !filter_seq_S. destruct (decide (i = n)) as [->|Hne].
  - assert (List.filter p' (seq 0 n) = List.filter p (seq 0 n)) as ->; [|lia].
    apply filter_ext_in. intros k Hk%in_seq. apply Hext; lia.
  - rewrite (Hext n) by lia.
    specialize (IH (λ k Hk, Hext k ltac:(lia)) ltac:(lia)). lia.
Qed.

(** The change of the count of critical clauses when clause [i] alone
    changes. *)
Lemma mid_count_change c0 v c1 c2 u i :
  i < nclauses c0 →
  (∀ k, k ≠ i → numtrue c2 !!! k = numtrue c1 !!! k) →
  (Z.of_nat (length (List.filter (mid_critical c0 v c2 u) (seq 0 (nclauses c0)))) =
   Z.of_nat (length (List.filter (mid_critical c0 v c1 u) (seq 0 (nclauses c0)))) +
   (if mid_critical c0 v c2 u i then 1 else 0) -
   (if mid_critical c0 v c1 u i then 1 else 0))%Z.
Proof.
  intros Hi Hk.
  pose proof (count_change (mid_critical c0 v c1 u) (mid_critical c0 v c2 u)
                (nclauses c0) i) as H.
  specialize (H ltac:(intros k _ Hne; unfold mid_critical; by rewrite (Hk k Hne)) Hi).
  destruct (mid_critical c0 v c1 u i), (mid_critical c0 v c2 u i); lia.
Qed.

(** A step of W5 that changes [numtrue[i]] and adds [d] to [cost[x]], when
    that is the change of the critical clauses. *)
Lemma mid_cost_step P c0 v c1 c2 i :
  mid_cost_ok c0 v c1 → i < nclauses c0 → wf_cnf P c1 → nvars c1 = nvars c0 →
  (∀ k, k ≠ i → numtrue c2 !!! k = numtrue c1 !!! k) →
  (∀ u, u ≤ nvars c0 →
     cost c2 !!! u =
     (cost c1 !!! u + (if mid_critical c0 v c2 u i then 1 else 0) -
      (if mid_critical c0 v c1 u i then 1 else 0))%Z) →
  mid_cost_ok c0 v c2.
Proof.
  intros Hc Hi Hwf Hnv Hk Hcost u Hu.
  rewrite (Hcost u Hu), (Hc u Hu).
  rewrite (mid_count_change c0 v c1 c2 u i Hi Hk). lia.
Qed.

Lemma add_cost_lookup c x d u :
  x < length (cost c) →
  cost (add_cost x d c) !!! u =
  (cost c !!! u + if decide (u = x) then d else 0)%Z.
Proof.
  intros Hx. unfold add_cost; simpl. destruct (decide (u = x)) as [->|Hne].
  - by rewrite list_lookup_total_insert_eq.
  - rewrite list_lookup_total_insert_ne by done. lia.
Qed.

Lemma register_unsatisfied_frame P i c :
  cost (register_unsatisfied P i c) = cost c ∧
  numtrue (register_unsatisfied P i c) = numtrue c.
Proof. unfold register_unsatisfied. by case_decide. Qed.

Lemma register_satisfied_frame P i c :
  cost (register_satisfied P i c) = cost c ∧
  numtrue (register_satisfied P i c) = numtrue c.
Proof. unfold register_satisfied. by case_decide. Qed.

Lemma other_true_lit_ok P c0 v i l :
  wf_cnf P c0 → i < nclauses c0 → l ∈ other_true c0 v i → lit_ok c0 l.
Proof.
  intros Hwf Hi Hl. apply (wf_lits _ _ Hwf i); [done|].
  unfold other_true in Hl. apply list_elem_of_In, filter_In in Hl as [Hl _].
  by apply list_elem_of_In.
Qed.

(** The loop over [invclause[pos]] keeps [cost] right at a clause that
    holds [pos] once and no other literal over [v]. *)
Lemma lost_cost P c0 v extra c' i :
  Mid P c0 v extra c' → mid_cost_ok c0 v c' → i < nclauses c0 →
  extra i = 1 → v ≤ nvars c0 → wf_cnf P c0 →
  List.filter (is_true c0) (clause_lits c0 i) = other_true c0 v i →
  mid_cost_ok c0 v (W5_lost P v c' i).
Proof.
  intros [Hst Hwf Hnum Hstk Hun] Hc Hi He Hv Hwf0 Hno.
  pose proof (wf_numtrue _ _ Hwf) as Hln.
  pose proof (wf_cost _ _ Hwf) as Hlc.
  pose proof (st_nclauses _ _ Hst) as Enc.
  pose proof (st_nvars _ _ Hst) as Env.
  set (c1 := add_numtrue i (-1) c').
  assert (Hst1 : same_static c0 c1).
  { eapply same_static_trans; [exact Hst|apply static_add_numtrue]. }
  assert (Hn1 : numtrue c1 !!! i = Z.of_nat (length (other_true c0 v i))).
  { unfold c1, add_numtrue; simpl. rewrite list_lookup_total_insert_eq by lia.
    rewrite (Hnum i Hi), He. lia. }
  assert (Hnk : ∀ k, k ≠ i → numtrue c1 !!! k = numtrue c' !!! k).
  { intros k Hk. unfold c1, add_numtrue; simpl.
    by rewrite list_lookup_total_insert_ne. }
  assert (Hbefore : ∀ u, mid_critical c0 v c' u i =
            bool_decide (length (other_true c0 v i) = 0) && bool_decide (v = u)).
  { intros u. unfold mid_critical, mid_var. rewrite (Hnum i Hi), He.
    destruct (other_true c0 v i) as [|l [|l' ls]]; simpl;
      repeat case_bool_decide; simpl in *; try done; lia. }
  apply (mid_cost_step P c0 v c' _ i Hc Hi Hwf Env).
  - intros k Hk. unfold W5_lost. fold c1.
    repeat case_decide; try destruct (List.find _ _); simpl;
      rewrite ?(proj2 (register_unsatisfied_frame P i c1)); by apply Hnk.
  - intros u Hu. rewrite Hbefore. unfold W5_lost. fold c1.
    unfold mid_critical at 1, mid_var.
    assert (Hfind : List.find (is_true c1) (clause_lits c1 i) = head (other_true c0 v i)).
    { rewrite find_filter, (static_clause_lits _ _ _ Hst1), <- Hno. f_equal.
      apply filter_ext. intros l. by apply static_is_true. }
    rewrite Hfind. clear Hfind.
    destruct (other_true c0 v i) as [|l [|l' ls]] eqn:Eo; cbn [length] in Hn1.
    + rewrite decide_True by done.
      rewrite add_cost_lookup
        by (rewrite (proj1 (register_unsatisfied_frame P i c1)); simpl; lia).
      change (numtrue (add_cost v (-1) (register_unsatisfied P i c1)))
        with (numtrue (register_unsatisfied P i c1)).
      rewrite (proj1 (register_unsatisfied_frame P i c1)),
        (proj2 (register_unsatisfied_frame P i c1)), Hn1.
      change (cost c1) with (cost c').
      repeat (case_bool_decide || case_decide); simpl in *; subst; lia || congruence.
    + rewrite decide_False by lia. rewrite decide_True by (by rewrite Hn1).
      cbn [head].
      assert (Hl : lit_ok c0 l).
      { apply (other_true_lit_ok P c0 v i); [done..|]. rewrite Eo. by left. }
      rewrite add_cost_lookup by (simpl; destruct Hl; lia).
      change (numtrue (add_cost (var l) 1 c1)) with (numtrue c1). rewrite Hn1.
      change (cost c1) with (cost c').
      repeat (case_bool_decide || case_decide); simpl in *; subst; lia || congruence.
    + rewrite !decide_False by lia. rewrite Hn1. change (cost c1) with (cost c').
      repeat (case_bool_decide || case_decide); simpl in *; subst; lia || congruence.
Qed.

(** The loop over [invclause[neg]] keeps [cost] right at a clause it has
    not visited before. *)
Lemma gained_cost P c0 v neg extra c' i :
  Mid P c0 v extra c' → mid_cost_ok c0 v c' → i < nclauses c0 →
  extra i = 0 → v ≤ nvars c0 → wf_cnf P c0 →
  List.filter (λ l, bool_decide (l ≠ neg) && is_true c0 l) (clause_lits c0 i) =
    other_true c0 v i →
  mid_cost_ok c0 v (W5_gained P v neg c' i).
Proof.
  intros [Hst Hwf Hnum Hstk Hun] Hc Hi He Hv Hwf0 Hno.
  pose proof (wf_numtrue _ _ Hwf) as Hln.
  pose proof (wf_cost _ _ Hwf) as Hlc.
  pose proof (st_nclauses _ _ Hst) as Enc.
  pose proof (st_nvars _ _ Hst) as Env.
  set (c1 := add_numtrue i 1 c').
  assert (Hst1 : same_static c0 c1).
  { eapply same_static_trans; [exact Hst|apply static_add_numtrue]. }
  assert (Hn1 : numtrue c1 !!! i = (Z.of_nat (length (other_true c0 v i)) + 1)%Z).
  { unfold c1, add_numtrue; simpl. rewrite list_lookup_total_insert_eq by lia.
    rewrite (Hnum i Hi), He. lia. }
  assert (Hnk : ∀ k, k ≠ i → numtrue c1 !!! k = numtrue c' !!! k).
  { intros k Hk. unfold c1, add_numtrue; simpl.
    by rewrite list_lookup_total_insert_ne. }
  assert (Hbefore : ∀ u, mid_critical c0 v c' u i =
            bool_decide (length (other_true c0 v i) = 1) &&
            bool_decide (mid_var c0 v i = u)).
  { intros u. unfold mid_critical. rewrite (Hnum i Hi), He.
    repeat case_bool_decide; simpl in *; try done; lia. }
  apply (mid_cost_step P c0 v c' _ i Hc Hi Hwf Env).
  - intros k Hk. unfold W5_gained. fold c1.
    repeat case_decide; try destruct (List.find _ _); simpl;
      rewrite ?(proj2 (register_satisfied_frame P i c1)); by apply Hnk.
  - intros u Hu. rewrite Hbefore. unfold W5_gained. fold c1.
    unfold mid_critical at 1, mid_var.
    assert (Hfind : List.find (λ l, bool_decide (l ≠ neg) && is_true c1 l)
                      (clause_lits c1 i) = head (other_true c0 v i)).
    { rewrite find_filter, (static_clause_lits _ _ _ Hst1), <- Hno. f_equal.
      apply filter_ext. intros l. by rewrite (static_is_true _ _ _ Hst1). }
    rewrite Hfind. clear Hfind.
    destruct (other_true c0 v i) as [|l [|l' ls]] eqn:Eo; cbn [length] in Hn1.
    + rewrite decide_True by done.
      rewrite add_cost_lookup
        by (rewrite (proj1 (register_satisfied_frame P i c1)); simpl; lia).
      change (numtrue (add_cost v 1 (register_satisfied P i c1)))
        with (numtrue (register_satisfied P i c1)).
      rewrite (proj1 (register_satisfied_frame P i c1)),
        (proj2 (register_satisfied_frame P i c1)), Hn1.
      change (cost c1) with (cost c').
      repeat (case_bool_decide || case_decide); simpl in *; subst; lia || congruence.
    + rewrite decide_False by lia. rewrite decide_True by (by rewrite Hn1).
      cbn [head].
      assert (Hl : lit_ok c0 l).
      { apply (other_true_lit_ok P c0 v i); [done..|]. rewrite Eo. by left. }
      rewrite add_cost_lookup by (simpl; destruct Hl; lia).
      change (numtrue (add_cost (var l) (-1) c1)) with (numtrue c1). rewrite Hn1.
      change (cost c1) with (cost c').
      repeat (case_bool_decide || case_decide); simpl in *; subst; lia || congruence.
    + rewrite !decide_False by lia. rewrite Hn1. change (cost c1) with (cost c').
      repeat (case_bool_decide || case_decide); simpl in *; subst; lia || congruence.
Qed.

Lemma fold_lost_cost P c0 v R : ∀ c' base,
  wf_cnf P c0 → v ≤ nvars c0 → NoDup R →
  (∀ i, i ∈ R → i < nclauses c0 ∧ base i = 0 ∧
     List.filter (is_true c0) (clause_lits c0 i) = other_true c0 v i) →
  Mid P c0 v (λ k, base k + count_occ Nat.eq_dec R k) c' → mid_cost_ok c0 v c' →
  Mid P c0 v base (fold_left (W5_lost P v) R c') ∧
  mid_cost_ok c0 v (fold_left (W5_lost P v) R c').
Proof.
  induction R as [|i R IH]; intros c' base Hwf Hv Hnd Hin HM Hc; simpl.
  - split; [|done]. eapply Mid_ext; [|exact HM]. intros k _. simpl. lia.
  - apply list.NoDup_cons in Hnd as [Hni Hnd].
    destruct (Hin i ltac:(by left)) as (Hi & Hb & Hno).
    assert (Hcount : count_occ Nat.eq_dec R i = 0).
    { apply count_occ_not_In. by rewrite <- list_elem_of_In. }
    apply IH; try done.
    + intros j Hj. apply Hin. by right.
    + eapply Mid_ext; [|apply Mid_lost; [exact HM|done|]].
      * intros k _. simpl. destruct (Nat.eq_dec i k), (decide (k = i)); try congruence; lia.
      * simpl. destruct (Nat.eq_dec i i); [lia|done].
    + eapply lost_cost; try done. simpl. rewrite Hb, Hcount.
      destruct (Nat.eq_dec i i); [lia|done].
Qed.

Lemma fold_gained_cost P c0 v neg R : ∀ c' base,
  wf_cnf P c0 → v ≤ nvars c0 → NoDup R →
  (∀ i, i ∈ R → i < nclauses c0 ∧ base i = 0 ∧
     List.filter (λ l, bool_decide (l ≠ neg) && is_true c0 l) (clause_lits c0 i) =
       other_true c0 v i) →
  Mid P c0 v base c' → mid_cost_ok c0 v c' →
  Mid P c0 v (λ k, base k + count_occ Nat.eq_dec R k)
    (fold_left (W5_gained P v neg) R c') ∧
  mid_cost_ok c0 v (fold_left (W5_gained P v neg) R c').
Proof.
  induction R as [|i R IH]; intros c' base Hwf Hv Hnd Hin HM Hc; simpl.
  - split; [|done]. eapply Mid_ext; [|exact HM]. intros k _. simpl. lia.
  - apply list.NoDup_cons in Hnd as [Hni Hnd].
    destruct (Hin i ltac:(by left)) as (Hi & Hb & Hno).
    destruct (IH (W5_gained P v neg c' i)
                (λ k, if decide (k = i) then base k + 1 else base k)) as [H1 H2];
      try done.
    + intros j Hj. destruct (Hin j ltac:(by right)) as (Hj1 & Hj2 & Hj3).
      split; [done|]. split; [|done]. rewrite decide_False; [done|].
      intros ->. done.
    + by apply Mid_gained.
    + eapply gained_cost; done.
    + split; [|done]. eapply Mid_ext; [|exact H1].
      intros k _. simpl. destruct (Nat.eq_dec i k), (decide (k = i)); try congruence; lia.
Qed.

Lemma NoDup_fmap_eq {A B} (g : A → B) (l : list A) x y :
  NoDup (g <$> l) → x ∈ l → y ∈ l → g x = g y → x = y.
Proof.
  intros Hnd [a Ha]%list_elem_of_lookup [b Hb]%list_elem_of_lookup E.
  assert (a = b) as ->; [|congruence].
  eapply NoDup_lookup; [exact Hnd| |].
  - rewrite list_lookup_fmap, Ha. done.
  - rewrite list_lookup_fmap, Hb. simpl. by rewrite E.
Qed.

Lemma distinct_invclause_NoDup c l :
  inv_ok c → distinct_vars c → lit_ok c l → NoDup (invclause c l).
Proof.
  intros Hinv Hd Hl. apply NoDup_ListNoDup, (NoDup_count_occ Nat.eq_dec).
  intros k. rewrite (Hinv l Hl k). case_decide as Hk; [|lia].
  apply (NoDup_count_occ Z.eq_dec), NoDup_ListNoDup.
  eapply NoDup_fmap_1, Hd, Hk.
Qed.

Lemma invclause_member c l i :
  inv_ok c → lit_ok c l → i ∈ invclause c l → i < nclauses c ∧ l ∈ clause_lits c i.
Proof.
  intros Hinv Hl Hi. pose proof (inv_ok_bound c l i Hinv Hl Hi) as Hlt.
  split; [done|]. apply list_elem_of_In, (count_occ_In Nat.eq_dec) in Hi.
  rewrite (Hinv l Hl i), decide_True in Hi by done.
  by apply list_elem_of_In, (count_occ_In Z.eq_dec).
Qed.

Lemma mid_critical_static c0 c0' v c' u k :
  other_true c0' v k = other_true c0 v k →
  mid_critical c0' v c' u k = mid_critical c0 v c' u k.
Proof. intros E. unfold mid_critical, mid_var. by rewrite E. Qed.

Lemma static_other_true c c' v k : same_static c c' → other_true c' v k = other_true c v k.
Proof.
  intros Hst. unfold other_true. rewrite (static_clause_lits _ _ _ Hst).
  apply filter_ext. intros l. by rewrite (static_is_true _ _ _ Hst).
Qed.

(** W5 keeps [cost] right when no clause holds two literals over one
    variable. *)
Lemma W5_cost_ok P c choice :
  Inv P c → cost_ok c → distinct_vars c → lit_ok c choice →
  cost_ok (W5 P c choice).
Proof.
  intros HI Hcost Hdist Hok.
  destruct (W5_Inv P c choice HI Hok) as (HI2 & _ & _).
  destruct HI as [Hwf Hinv Hnum Hstk Hun]. destruct Hok as [Hc0 Hcv].
  revert HI2. unfold W5.
  destruct (W5_pos_true c choice Hc0) as (Hpt & Hpv & Hp0).
  set (pos := if decide (val c !!! var choice = (0 <? choice)%Z) then choice
              else (- choice)%Z) in *.
  set (v := var choice) in *.
  fold (flip_val c v). set (c0 := flip_val c v).
  assert (Hvl : v < length (val c)) by (rewrite (wf_val _ _ Hwf); lia).
  assert (Hnz : ∀ k, k < nclauses c → ∀ l, l ∈ clause_lits c k → l ≠ 0%Z).
  { intros k Hk l Hl. by destruct (wf_lits _ _ Hwf k l Hk Hl). }
  assert (Hlp : lit_ok c pos) by (split; [done|by rewrite Hpv]).
  assert (Hln : lit_ok c (- pos)) by (by apply lit_ok_opp).
  assert (Hwf0 : wf_cnf P c0).
  { destruct Hwf as [H1 H2 H3 H4 H5 H6 H7 H8]. split; try done.
    all: unfold c0, flip_val; simpl; rewrite ?length_insert; done. }
  assert (Hot : ∀ k, k < nclauses c → other_true c0 v k = other_true c v k).
  { intros k Hk. apply other_true_flip_val; [done|by apply Hnz]. }
  assert (Hneg_true : is_true c0 (- pos) = true).
  { unfold c0. rewrite is_true_flip_val by (done || lia).
    rewrite decide_True by (by rewrite var_opp).
    by rewrite is_true_opp, Hpt. }
  assert (Hpos_false : is_true c0 pos = false).
  { unfold c0. rewrite is_true_flip_val by done.
    rewrite decide_True by done. by rewrite Hpt. }
  assert (HM0 : Mid P c0 v (λ k, 0 + count_occ Nat.eq_dec (invclause c0 pos) k) c0).
  { split; [apply same_static_refl|done| |by apply (stack_transport P c)|done].
    intros k Hk. change (numtrue c0) with (numtrue c).
    change (invclause c0 pos) with (invclause c pos).
    change (nclauses c0) with (nclauses c) in Hk.
    rewrite Hnum by done. f_equal.
    rewrite (count_true_split c v k pos (Hnz k Hk) Hpv Hpt).
    rewrite (Hot k Hk). rewrite (Hinv pos Hlp k). by rewrite decide_True. }
  assert (Hc0' : mid_cost_ok c0 v c0).
  { intros u Hu. change (cost c0) with (cost c). change (nvars c0) with (nvars c) in Hu.
    rewrite (Hcost u Hu). unfold break_count. do 2 f_equal.
    change (nclauses c0) with (nclauses c).
    apply filter_ext_in. intros k Hk%in_seq.
    rewrite (critical_mid c v u k) by (apply Hnum; lia).
    unfold mid_critical, mid_var. change (numtrue c0) with (numtrue c).
    by rewrite (Hot k) by lia. }
  assert (Hvar_cases : ∀ k l, k < nclauses c → l ∈ clause_lits c k → var l = v →
            l = pos ∨ l = (- pos)%Z).
  { intros k l Hk Hl Hvl'. apply var_eq_cases. by rewrite Hpv. }
  destruct (fold_lost_cost P c0 v (invclause c0 pos) c0 (λ _, 0)) as [HM1 Hc1];
    try done.
  { by apply (distinct_invclause_NoDup c). }
  { intros i Hi. destruct (invclause_member c pos i Hinv Hlp Hi) as [Hlt Hin].
    split; [done|]. split; [done|].
    change (clause_lits c0 i) with (clause_lits c i).
    unfold other_true. change (clause_lits c0 i) with (clause_lits c i).
    apply filter_ext_in. intros l Hl%list_elem_of_In.
    destruct (is_true c0 l) eqn:Et; [|done]. simpl. symmetry.
    apply bool_decide_eq_true. intros Hvl'.
    destruct (Hvar_cases i l Hlt Hl Hvl') as [->| ->]; [congruence|].
    assert (pos = (- pos)%Z); [|lia].
    apply (NoDup_fmap_eq var (clause_lits c i)); [by apply Hdist|done..|].
    by rewrite var_opp. }
  set (c1 := fold_left (W5_lost P v) (invclause c0 pos) c0) in *.
  assert (Hst1 : same_static c0 c1) by apply fold_lost_static.
  destruct (fold_gained_cost P c0 v (- pos) (invclause c1 (- pos)) c1 (λ _, 0))
    as [HM2 Hc2]; try done.
  { rewrite (static_invclause _ _ _ Hst1). by apply (distinct_invclause_NoDup c). }
  { intros i. rewrite (static_invclause _ _ _ Hst1). intros Hi.
    destruct (invclause_member c (- pos) i Hinv Hln Hi) as [Hlt Hin].
    split; [done|]. split; [done|].
    unfold other_true. change (clause_lits c0 i) with (clause_lits c i).
    apply filter_ext_in. intros l Hl%list_elem_of_In.
    destruct (is_true c0 l) eqn:Et; [|by rewrite andb_false_r]. simpl.
    rewrite andb_true_r. apply bool_decide_ext. split.
    - intros Hne Hvl'.
      destruct (Hvar_cases i l Hlt Hl Hvl') as [->| ->]; [congruence|done].
    - intros Hvl' ->. apply Hvl'. by rewrite var_opp. }
  set (c2 := fold_left (W5_gained P v (- pos)) (invclause c1 (- pos)) c1) in *.
  intros HI2. pose proof (mid_static _ _ _ _ _ HM2) as Hst2.
  intros u Hu. rewrite (st_nvars _ _ Hst2) in Hu. rewrite (Hc2 u Hu).
  unfold break_count. do 2 f_equal. rewrite (st_nclauses _ _ Hst2).
  apply filter_ext_in. intros k Hk%in_seq.
  rewrite (critical_mid c2 v u k).
  - apply mid_critical_static. symmetry. by apply static_other_true.
  - apply (Inv_numtrue _ _ HI2). rewrite (st_nclauses _ _ Hst2). lia.
Qed.

Lemma check_distinct_sound c : check_distinct c = true → distinct_vars c.
Proof.
  unfold check_distinct. rewrite forallb_forall. intros H k Hk.
  specialize (H k ltac:(apply in_seq; lia)). by apply bool_decide_eq_true in H.
Qed.

Lemma distinct_vars_same_formula c c' :
  same_formula c c' → distinct_vars c → distinct_vars c'.
Proof.
  intros (E1 & E2 & E3 & E4) Hd k Hk. rewrite E4 in Hk.
  unfold clause_lits, clause_begin, clause_end. rewrite E1, E2. by apply Hd.
Qed.

Lemma loop_head_cost_ok P draws fuel i : ∀ s s',
  Inv P (cnf s) → cost_ok (cnf s) → distinct_vars (cnf s) →
  loop_head P draws fuel i s = Some s' → cost_ok (cnf s').
Proof.
  induction i as [|i IH]; intros s s' HI Hc Hd; simpl.
  - by intros [= <-].
  - destruct (W2_W5 _ _ _ _) as [| s1 | | |] eqn:E; try done.
    destruct (W2_W5_Next_Inv _ _ _ _ _ HI E) as (H1 & H2 & l & Hl & E1 & _).
    apply IH; [done| |by eapply distinct_vars_same_formula].
    rewrite E1. by apply W5_cost_ok.
Qed.

(** C2, amended.  When no clause of the formula holds two literals over one
    variable, at every arrival at W2 and for every variable [v], [cost[v]] is
    the number of clauses [k] with [numtrue[k] = 1] whose one true literal is
    over [v]. *)
Theorem loop_boundary_cost P draws fuel c i s :
  wf_cnf P c → fresh P c → distinct_vars c →
  loop_head P draws fuel i (solve_init P draws c) = Some s →
  ∀ v, v ≤ nvars c → cost (cnf s) !!! v = Z.of_nat (break_count (cnf s) v).
Proof.
  intros Hwf Hfr Hd Hl.
  destruct (solve_init_Inv P draws c Hwf Hfr) as (HI0 & Hc0 & Hsf0).
  pose proof (distinct_vars_same_formula _ _ Hsf0 Hd) as Hd0.
  pose proof (loop_head_cost_ok _ _ _ _ _ _ HI0 Hc0 Hd0 Hl) as Hc.
  destruct (loop_head_Inv _ _ _ _ _ _ HI0 Hl) as [_ Hsf].
  intros v Hv. apply Hc.
  destruct Hsf0 as (_ & _ & E0 & _), Hsf as (_ & _ & E1 & _). lia.
Qed.

(** S4 at its second arrival at W2: variable 4 pays for no clause, variable
    2 for the first. *)
Lemma loop_boundary_cost_witness :
  ∃ s,
  (wf_cnf example_platform S4 ∧ fresh example_platform S4 ∧ distinct_vars S4 ∧
   loop_head example_platform S4_draws 5 1
     (solve_init example_platform S4_draws S4) = Some s) ∧
  flipped s = [3] ∧
  cost (cnf s) !!! 3 = Z.of_nat (break_count (cnf s) 3) ∧
  cost (cnf s) = [0; 0; 0; 1; 0]%Z.
Proof.
  assert (Hw : wf_cnf example_platform S4)
    by (apply check_wf_sound; vm_compute; reflexivity).
  pose proof (Cnf_of_fresh example_platform 4 [1; 2; 3; -2; -3; 4]%Z [0; 2; 3]) as Hf.
  assert (Hd : distinct_vars S4)
    by (apply check_distinct_sound; vm_compute; reflexivity).
  destruct (loop_head example_platform S4_draws 5 1
              (solve_init example_platform S4_draws S4)) as [s|] eqn:E;
    [|vm_compute in E; discriminate].
  exists s. split; [split; [exact Hw|split; [exact Hf|split; [exact Hd|reflexivity]]]|].
  pose proof (loop_boundary_cost _ _ _ _ _ _ Hw Hf Hd E 3 ltac:(vm_compute; lia)) as G.
  vm_compute in E. injection E as <-.
  split; [reflexivity|split; [exact G|reflexivity]].
Defined.

(** C2, as stated, fails with a literal twice in a clause.  On (1 or 1 or
    2) and (-1), from 1 true and 2 false, W3 and W4 pick -1; W5 takes
    [numtrue[0]] from 2 to 0 and subtracts 1 from [cost[1]], which did not
    count clause 0, then adds 1 for clause 1.  At the next arrival at W2
    clause 1 has [numtrue = 1] with its true literal over variable 1, and
    [cost[1]] is 0. *)
Lemma cost_wrong_with_repeated_literal :
  wf_cnf example_platform repeated_literal ∧
  fresh example_platform repeated_literal ∧
  ∃ s, loop_head example_platform first_true_draws 5 1
         (solve_init example_platform first_true_draws repeated_literal) = Some s ∧
       cost (cnf s) !!! 1 = 0%Z ∧ break_count (cnf s) 1 = 1 ∧
       ¬ cost_ok (cnf s).
Proof.
  split; [apply check_wf_sound; vm_compute; reflexivity|].
  split; [apply Cnf_of_fresh|].
  destruct (loop_head example_platform first_true_draws 5 1
              (solve_init example_platform first_true_draws repeated_literal))
    as [s|] eqn:E; [|vm_compute in E; discriminate].
  exists s. split; [reflexivity|].
  vm_compute in E. injection E as <-.
  split; [reflexivity|]. split; [reflexivity|].
  intros H. specialize (H 1 ltac:(vm_compute; lia)). vm_compute in H. discriminate.
Qed.

(** The same with a literal and its complement in a clause: after the flip
    of variable 1, [cost[1]] is 2 where the count is 1.  (The entry of
    variable 2 has been decremented from 0; in the program, where the entries
    of [cost] are unsigned, it wraps around.) *)
Example cost_wrong_with_complementary_literals :
  ∃ s, loop_head example_platform (draws_of []) 5 1
         (solve_init example_platform (draws_of []) complementary_literals) = Some s ∧
       flipped s = [1] ∧
       cost (cnf s) !!! 1 = 2%Z ∧ break_count (cnf s) 1 = 1 ∧
       break_count (cnf s) 2 = 0.
Proof.
  destruct (loop_head example_platform (draws_of []) 5 1
              (solve_init example_platform (draws_of []) complementary_literals))
    as [s|] eqn:E; [|vm_compute in E; discriminate].
  exists s. split; [reflexivity|].
  vm_compute in E. injection E as <-. repeat split; reflexivity.
Qed.

(** ** More of the reader, the stack, the loop and the dumps *)

Lemma read_clause_literals cl : ∀ rest c b,
  Forall (λ l, l ≠ 0%Z) cl →
  read_clause (cl ++ 0%Z :: rest) c b =
  (false, rest, set_clauses (clauses c ++ cl) c, b || bool_decide (cl ≠ [])).
Proof.
  induction cl as [|l cl IH]; intros rest c b Hcl; simpl.
  - rewrite app_nil_r, orb_false_r. by destruct c.
  - apply list.Forall_cons in Hcl as [Hl Hcl]. rewrite decide_False by done.
    rewrite IH by done. simpl. rewrite <- app_assoc. simpl.
    rewrite orb_true_r. done.
Qed.

Lemma read_clause_unterminated cl : ∀ c b,
  Forall (λ l, l ≠ 0%Z) cl →
  read_clause cl c b =
  (true, [], set_clauses (clauses c ++ cl) c, b || bool_decide (cl ≠ [])).
Proof.
  induction cl as [|l cl IH]; intros c b Hcl; simpl.
  - rewrite app_nil_r, orb_false_r. by destruct c.
  - apply list.Forall_cons in Hcl as [Hl Hcl]. rewrite decide_False by done.
    rewrite IH by done. simpl. rewrite <- app_assoc. simpl.
    rewrite orb_true_r. done.
Qed.

Lemma dimacs_tokens_length cls :
  length (dimacs_tokens cls) = length (concat cls) + length cls.
Proof.
  induction cls as [|cl cls IH]; simpl; [done|].
  rewrite !length_app. simpl. lia.
Qed.

Lemma clause_starts_length cls : ∀ n, length (clause_starts n cls) = length cls.
Proof. induction cls as [|cl cls IH]; intros n; simpl; [done|]. by rewrite IH. Qed.

Lemma clause_starts_app cls1 : ∀ n cls2,
  clause_starts n (cls1 ++ cls2) =
  clause_starts n cls1 ++ clause_starts (n + length (concat cls1)) cls2.
Proof.
  induction cls1 as [|cl cls1 IH]; intros n cls2; simpl.
  - by rewrite Nat.add_0_r.
  - rewrite IH, length_app. do 3 f_equal. lia.
Qed.

(** The reader on a clause section, with a last clause [tl] that the end of
    the file ends (empty when the last integer of the file is 0). *)
Lemma parse_clauses_dimacs cls : ∀ fuel tl c,
  Forall clause_ok cls → Forall (λ l, l ≠ 0%Z) tl →
  length (dimacs_tokens cls ++ tl) < fuel →
  let all := cls ++ (if decide (tl = []) then [] else [tl]) in
  parse_clauses fuel (dimacs_tokens cls ++ tl) c =
  ParseOk (set_start (start c ++ clause_starts (length (clauses c)) all)
             (set_clauses (clauses c ++ concat all) c)).
Proof.
  induction cls as [|cl cls IH]; intros fuel tl c Hcls Htl Hfuel all.
  - destruct fuel as [|fuel]; [simpl in Hfuel; lia|]. subst all. simpl.
    rewrite (read_clause_unterminated tl c false Htl). simpl.
    destruct (decide (tl = [])) as [->|Hne]; simpl.
    + rewrite !app_nil_r. by destruct c.
    + rewrite bool_decide_true by done. simpl. rewrite app_nil_r. done.
  - destruct fuel as [|fuel]; [simpl in Hfuel; lia|].
    apply list.Forall_cons in Hcls as [[Hne Hcl] Hcls].
    cbn [dimacs_tokens parse_clauses]. rewrite <- app_assoc. cbn [app].
    rewrite (read_clause_literals cl _ c false Hcl). cbn [orb].
    rewrite bool_decide_true by done. cbn [negb].
    rewrite decide_False.
    2: { intros [_ H]. simpl in H. rewrite length_app in H.
         destruct cl; [done|simpl in H; lia]. }
    rewrite IH; [|done|done|].
    2: { revert Hfuel. cbn [dimacs_tokens]. rewrite !length_app. cbn [length].
         rewrite ?length_app. lia. }
    subst all. simpl. rewrite length_app, <- !app_assoc. simpl. done.
Qed.

Lemma parse_dimacs P clause_max nv nc cls tl :
  (0 ≤ nv ≤ lit_max P)%Z → (0 ≤ nc ≤ clause_max)%Z →
  Forall clause_ok cls → Forall (λ l, l ≠ 0%Z) tl →
  let all := cls ++ (if decide (tl = []) then [] else [tl]) in
  parse P clause_max nv nc (dimacs_tokens cls ++ tl) =
  if decide (length all = Z.to_nat nc)
  then ParseOk (Cnf_of_clauses P (Z.to_nat nv) all)
  else CHECK_failed.
Proof.
  intros Hnv Hnc Hcls Htl all. unfold parse, CHECK_NO_OVERFLOW.
  rewrite !(proj2 (Z.leb_le _ _)) by lia. cbn [negb].
  rewrite (parse_clauses_dimacs cls _ tl _ Hcls Htl) by lia.
  fold all. simpl. rewrite clause_starts_length.
  destruct (decide (length all = Z.to_nat nc)) as [E|E]; [|done].
  unfold Cnf_of_clauses, Cnf_of, Cnf_new, set_start, set_clauses. simpl.
  rewrite clause_starts_length, E. done.
Qed.

Lemma clause_starts_lookup cls : ∀ n k,
  k < length cls →
  clause_starts n cls !!! k = n + length (concat (take k cls)).
Proof.
  induction cls as [|cl cls IH]; intros n k Hk; simpl in Hk; [lia|].
  destruct k as [|k]; simpl; [lia|].
  rewrite IH by lia. rewrite length_app. lia.
Qed.

Lemma slice_middle (pre cl post : list Z) :
  (λ itr, (pre ++ cl ++ post) !!! itr) <$> seq (length pre) (length cl) = cl.
Proof.
  revert pre. induction cl as [|x cl IH]; intros pre; [done|].
  cbn [length seq fmap list_fmap]. f_equal.
  - rewrite lookup_total_app_r by lia. by rewrite Nat.sub_diag.
  - specialize (IH (pre ++ [x])). rewrite length_app in IH. simpl in IH.
    rewrite Nat.add_1_r, <- app_assoc in IH. exact IH.
Qed.

(** The clause ranges of the structure give the clauses back. *)
Lemma clause_lits_of_clauses P nv cls k cl :
  cls !! k = Some cl → clause_lits (Cnf_of_clauses P nv cls) k = cl.
Proof.
  intros Hk. pose proof (lookup_lt_Some _ _ _ Hk) as Hlt.
  pose proof (take_drop_middle _ _ _ Hk) as Hsplit.
  assert (Hcat : concat cls = concat (take k cls) ++ cl ++ concat (drop (S k) cls)).
  { rewrite <- Hsplit at 1. by rewrite concat_app. }
  unfold clause_lits, clause_begin, clause_end, Cnf_of_clauses, Cnf_of. simpl.
  rewrite clause_starts_length, clause_starts_lookup by done. simpl.
  assert (Hend : (if decide (S k = length cls) then length (concat cls)
                  else clause_starts 0 cls !!! S k) =
                 length (concat (take k cls)) + length cl).
  { destruct (decide (S k = length cls)) as [E|E].
    - rewrite Hcat, !length_app. rewrite drop_ge by lia. simpl. lia.
    - rewrite clause_starts_lookup by lia. simpl.
      rewrite (take_S_r _ _ _ Hk), concat_app, length_app. simpl.
      rewrite app_nil_r. done. }
  rewrite Hend, Hcat.
  replace (length (concat (take k cls)) + length cl - length (concat (take k cls)))
    with (length cl) by lia.
  apply slice_middle.
Qed.

Lemma Cnf_of_clauses_sizes P nv cls :
  let c := Cnf_of_clauses P nv cls in
  nvars c = nv ∧ nclauses c = length cls ∧ clauses c = concat cls ∧
  start c = clause_starts 0 cls.
Proof. simpl. by rewrite clause_starts_length. Qed.

(** The structure of a list of clauses over declared variables is as
    [solve] needs it. *)
Lemma Cnf_of_clauses_wf P nv cls :
  Forall (Forall (λ l, l ≠ 0%Z ∧ var l ≤ nv)) cls →
  (∀ i, i < length cls → Z.of_nat i ≠ clause_nil P) →
  wf_cnf P (Cnf_of_clauses P nv cls).
Proof.
  intros Hcls Hnil.
  split; simpl; rewrite ?clause_starts_length, ?length_replicate; try done; try lia.
  intros k l Hk Hl.
  destruct (lookup_lt_is_Some_2 cls k Hk) as [cl Hcl].
  change (l ∈ clause_lits (Cnf_of_clauses P nv cls) k) in Hl.
  rewrite (clause_lits_of_clauses _ _ _ _ _ Hcl) in Hl.
  rewrite list.Forall_forall in Hcls.
  specialize (Hcls cl (list_elem_of_lookup_2 _ _ _ Hcl)).
  rewrite list.Forall_forall in Hcls. exact (Hcls l Hl).
Qed.

Lemma push_twice P c k :
  wf_cnf P c → stack_ok P c → k < nclauses c →
  register_unsatisfied P k (register_unsatisfied P k c) =
  register_unsatisfied P k c.
Proof.
  intros Hwf Hst Hk.
  destruct (decide (w c !!! k = clause_nil P)) as [Hnil|Hnil].
  - destruct (register_unsatisfied_spec P c k Hwf Hst Hk Hnil) as (_ & _ & Hne & _).
    simpl in Hne. remember (register_unsatisfied P k c) as c' eqn:Ec'.
    unfold register_unsatisfied. rewrite decide_False by exact Hne. reflexivity.
  - assert (E : register_unsatisfied P k c = c).
    { unfold register_unsatisfied. destruct (decide (w c !!! k = clause_nil P)); [done|reflexivity]. }
    rewrite !E. reflexivity.
Qed.

Lemma same_formula_clause_lits c c' k :
  same_formula c c' → clause_lits c' k = clause_lits c k.
Proof.
  intros (E1 & E2 & _). unfold clause_lits, clause_begin, clause_end.
  by rewrite E1, E2.
Qed.

Lemma is_true_val c c' l : val c' = val c → is_true c' l = is_true c l.
Proof. intros E. unfold is_true. by rewrite E. Qed.

Lemma is_satisfied_val c c' k :
  same_formula c c' → val c' = val c → is_satisfied c' k = is_satisfied c k.
Proof.
  intros Hsf Hv. unfold is_satisfied. rewrite (same_formula_clause_lits _ _ _ Hsf).
  induction (clause_lits c k) as [|x xs IH]; [done|]. simpl.
  by rewrite IH, (is_true_val _ _ _ Hv).
Qed.

Lemma loop_ready_same_formula P c c' :
  same_formula c c' → loop_ready P c → loop_ready P c'.
Proof.
  intros Hsf [H1 H2 H3 H4 H5]. pose proof Hsf as (E1 & E2 & E3 & E4).
  split; rewrite ?E4; try done.
  - intros k Hk. rewrite (same_formula_clause_lits _ _ _ Hsf). by apply H3.
  - intros k l Hk. rewrite (same_formula_clause_lits _ _ _ Hsf). by apply H4.
  - by eapply distinct_vars_same_formula.
Qed.

Lemma filter_length_le {A} (p : A → bool) (l : list A) :
  length (List.filter p l) ≤ length l.
Proof. induction l as [|x l IH]; simpl; [lia|]. destruct (p x); simpl; lia. Qed.

Lemma filter_nil_false {A} (p : A → bool) (l : list A) x :
  length (List.filter p l) = 0 → x ∈ l → p x = false.
Proof.
  induction l as [|y l IH]; intros Hn Hx; [by apply elem_of_nil in Hx|].
  simpl in Hn. destruct (p y) eqn:Ey; [simpl in Hn; lia|].
  apply elem_of_cons in Hx as [->|Hx]; [done|by apply IH].
Qed.

Lemma filter_pos_true {A} (p : A → bool) (l : list A) x :
  x ∈ l → p x = true → 0 < length (List.filter p l).
Proof.
  induction l as [|y l IH]; intros Hx Hp; [by apply elem_of_nil in Hx|].
  simpl. apply elem_of_cons in Hx as [<-|Hx].
  - rewrite Hp. simpl. lia.
  - destruct (p y); simpl; [lia|by apply IH].
Qed.

Lemma break_count_le c v : break_count c v ≤ nclauses c.
Proof.
  unfold break_count. etrans; [apply filter_length_le|]. by rewrite length_seq.
Qed.

Lemma cost_ok_costs_ok P c k :
  wf_cnf P c → cost_ok c → (Z.of_nat (nclauses c) ≤ lit_max P)%Z →
  k < nclauses c → costs_ok P c (clause_lits c k).
Proof.
  intros Hwf Hc Hmax Hk l Hl.
  destruct (wf_lits _ _ Hwf _ _ Hk Hl) as [_ Hv].
  rewrite (Hc _ Hv). pose proof (break_count_le c (var l)). lia.
Qed.

(** One turn that goes back to W2, with the clause and the literal of W3
    and W4. *)
Lemma W2_W5_Next_choice P draws fuel s s' :
  Inv P (cnf s) → W2_W5 P draws fuel s = Next s' →
  ∃ q K l, f (cnf s) !! q = Some K ∧ K < nclauses (cnf s) ∧
    l ∈ clause_lits (cnf s) K ∧ l ≠ lit_nil P ∧
    cnf s' = W5 P (cnf s) l ∧ flipped s' = flipped s ++ [var l] ∧
    drawn s < drawn s'.
Proof.
  intros HI. unfold W2_W5. case_decide as Hf; [done|].
  case_decide as Hd; [done|].
  destruct (W3_loop _ _ _ _ _) as [[q n]|] eqn:E3; [|done].
  unfold rand_flip at 1, rand_bind, rand, rand_ret.
  pose proof (W4_draws_choice P draws (cnf s)
                (flip P (PARAM_non_greedy_choice P) (draws n))
                (clause_lits (cnf s) (f (cnf s) !!! q)) (W4_init P) (S n)) as Hch.
  assert (Hmono : ∀ ls st m, m ≤ (W4_draws P draws (cnf s)
                (flip P (PARAM_non_greedy_choice P) (draws n)) ls st m).2).
  { induction ls as [|x ls IH]; intros st m; [simpl; lia|].
    unfold W4_draws in *. cbn [W4_scan]. unfold rand_bind at 1.
    destruct (@W4_lit Rand _ _ _ _ _ _ _ m) as [st1 m1] eqn:E1.
    assert (m ≤ m1).
    { unfold W4_lit in E1. case_decide.
      - unfold rand_bind, rand_flip, rand_bind, rand, rand_ret in E1.
        injection E1 as _ <-. lia.
      - unfold rand_ret in E1. injection E1 as _ <-. lia. }
    specialize (IH st1 m1). lia. }
  specialize (Hmono (clause_lits (cnf s) (f (cnf s) !!! q)) (W4_init P) (S n)).
  unfold W4. destruct (W4_draws _ _ _ _ _ _ _) as [st n3]. simpl in Hch, Hmono.
  case_decide as Hnil; [done|]. intros [= <-]. simpl.
  destruct Hch as [Hch|Hch]; [done|].
  assert (Hq : q < length (f (cnf s))).
  { eapply W3_loop_bound; [|exact E3]. destruct (f (cnf s)); [done|simpl; lia]. }
  pose proof (list_lookup_lookup_total_lt _ _ Hq) as HqK.
  assert (HK : f (cnf s) !!! q < nclauses (cnf s)).
  { by destruct (stack_f _ _ (Inv_stack _ _ HI) _ _ HqK). }
  assert (Hn : drawn s < n).
  { clear -E3. revert E3. generalize (drawn s). induction fuel as [|fuel IH]; [done|].
    intros m. simpl. case_decide.
    - intros E. apply IH in E. lia.
    - intros [= _ <-]. lia. }
  exists q, (f (cnf s) !!! q), (choice st).
  repeat (split; [done|]). lia.
Qed.

Lemma count_true_zero_false c k l :
  count_true c k = 0 → l ∈ clause_lits c k → is_true c l = false.
Proof. apply filter_nil_false. Qed.

Lemma is_satisfied_count c k :
  is_satisfied c k = true ↔ 0 < count_true c k.
Proof.
  unfold is_satisfied, count_true.
  induction (clause_lits c k) as [|x xs IH]; simpl; [split; [done|lia]|].
  destruct (is_true c x); simpl; [split; [lia|done]|exact IH].
Qed.

Lemma Inv_unsat_iff P c k :
  Inv P c → k < nclauses c → k ∈ f c ↔ is_satisfied c k = false.
Proof.
  intros HI Hk. rewrite (unsat_members P c k HI).
  rewrite (Inv_numtrue _ _ HI k Hk).
  pose proof (is_satisfied_count c k) as H.
  destruct (is_satisfied c k).
  - split; [|done]. intros [_ E]. destruct H as [H _]. specialize (H eq_refl). lia.
  - split; [done|]. intros _. split; [done|].
    destruct (count_true c k); [done|]. destruct H as [_ H].
    specialize (H ltac:(lia)). done.
Qed.

Lemma is_true_W5 P c l x :
  Inv P c → lit_ok c l → x ≠ 0%Z →
  is_true (W5 P c l) x =
  if decide (var x = var l) then negb (is_true c x) else is_true c x.
Proof.
  intros HI Hl Hx. destruct (W5_Inv P c l HI Hl) as (_ & _ & Ev).
  rewrite (is_true_val (flip_val c (var l)) (W5 P c l) x) by exact Ev.
  apply is_true_flip_val; [|done].
  rewrite (wf_val _ _ (Inv_wf _ _ HI)). destruct Hl. lia.
Qed.

(** The state of a run at a loop boundary. *)
Lemma run_Inv P draws fuel c i s :
  wf_cnf P c → fresh P c →
  loop_head P draws fuel i (solve_init P draws c) = Some s →
  Inv P (cnf s) ∧ same_formula c (cnf s).
Proof.
  intros Hwf Hfr Hl.
  destruct (solve_init_Inv P draws c Hwf Hfr) as (HI0 & _ & Hsf0).
  destruct (loop_head_Inv _ _ _ _ _ _ HI0 Hl) as [HI Hsf].
  split; [done|]. by eapply same_formula_trans.
Qed.

(** X6.  Every turn of the loop flips a literal of a clause that is on the stack
    of unsatisfied clauses: the literal was false and is true afterwards, so
    the clause is satisfied and off the stack at the next arrival at W2. *)
Theorem flip_satisfies_chosen_clause P draws fuel c i s s' :
  wf_cnf P c → fresh P c →
  loop_head P draws fuel i (solve_init P draws c) = Some s →
  W2_W5 P draws fuel s = Next s' →
  ∃ K l, K ∈ f (cnf s) ∧ l ∈ clause_lits c K ∧
    is_satisfied (cnf s) K = false ∧ is_true (cnf s) l = false ∧
    val (cnf s') = <[var l := negb (val (cnf s) !!! var l)]> (val (cnf s)) ∧
    flipped s' = flipped s ++ [var l] ∧
    is_true (cnf s') l = true ∧ is_satisfied (cnf s') K = true ∧
    K ∉ f (cnf s').
Proof.
  intros Hwf Hfr Hl Hstep.
  destruct (run_Inv _ _ _ _ _ _ Hwf Hfr Hl) as [HI Hsf].
  destruct (W2_W5_Next_choice _ _ _ _ _ HI Hstep)
    as (q & K & l & Hq & HK & Hin & Hnil & Ec & Efl & _).
  destruct (W2_W5_Next_Inv _ _ _ _ _ HI Hstep) as (HI' & Hsf' & _).
  pose proof (wf_lits _ _ (Inv_wf _ _ HI) _ _ HK Hin) as Hok.
  destruct (W5_Inv P (cnf s) l HI Hok) as (_ & _ & Ev).
  assert (HKf : K ∈ f (cnf s)) by (by eapply list_elem_of_lookup_2).
  pose proof (proj1 (Inv_unsat_iff P (cnf s) K HI HK) HKf) as Hunsat.
  assert (Hfalse : is_true (cnf s) l = false).
  { apply (count_true_zero_false _ K); [|done].
    pose proof (is_satisfied_count (cnf s) K) as H. rewrite Hunsat in H.
    destruct (count_true (cnf s) K); [done|]. destruct H as [_ H].
    specialize (H ltac:(lia)). done. }
  assert (Htrue : is_true (cnf s') l = true).
  { rewrite Ec, (is_true_W5 P (cnf s) l l HI Hok) by apply Hok.
    rewrite decide_True by done. by rewrite Hfalse. }
  assert (Hsat : is_satisfied (cnf s') K = true).
  { apply is_satisfied_count. unfold count_true.
    apply (filter_pos_true _ _ l); [|done].
    by rewrite (same_formula_clause_lits _ _ _ Hsf'). }
  exists K, l. split; [done|]. split.
  { by rewrite <- (same_formula_clause_lits _ _ K Hsf). }
  split; [done|]. split; [done|]. split; [by rewrite Ec|].
  split; [done|]. split; [done|]. split; [done|].
  destruct Hsf' as (_ & _ & _ & En).
  rewrite (Inv_unsat_iff P (cnf s') K HI') by (by rewrite En).
  by rewrite Hsat.
Qed.

Lemma flip_satisfies_chosen_clause_witness :
  ∃ s s', (wf_cnf example_platform S4 ∧ fresh example_platform S4 ∧
    loop_head example_platform S4_draws 5 0
      (solve_init example_platform S4_draws S4) = Some s ∧
    W2_W5 example_platform S4_draws 5 s = Next s') ∧
    flipped s' = [3] ∧ f (cnf s) = [1] ∧ f (cnf s') = [2].
Proof.
  assert (Hw : wf_cnf example_platform S4)
    by (apply check_wf_sound; vm_compute; reflexivity).
  pose proof (Cnf_of_fresh example_platform 4 [1; 2; 3; -2; -3; 4]%Z [0; 2; 3]) as Hf.
  set (s := solve_init example_platform S4_draws S4).
  destruct (W2_W5 example_platform S4_draws 5 s) as [|s'| | |] eqn:E;
    try (vm_compute in E; discriminate).
  exists s, s'.
  assert (Hl : loop_head example_platform S4_draws 5 0
                 (solve_init example_platform S4_draws S4) = Some s) by reflexivity.
  split; [split; [exact Hw|split; [exact Hf|split; [exact Hl|exact E]]]|].
  destruct (flip_satisfies_chosen_clause _ _ _ _ _ _ _ Hw Hf Hl E)
    as (K & l & _).
  vm_compute in E. injection E as <-.
  split; [reflexivity|split; reflexivity].
Defined.

Lemma eligible_upto_subset P c all ls l :
  l ∈ eligible_upto P c all ls → l ∈ ls.
Proof.
  unfold eligible_upto. destruct (_ && _); [done|].
  rewrite !list_elem_of_In, filter_In. tauto.
Qed.

Lemma W2_W5_safe P draws fuel s :
  (0 < RAND_MAX P)%Z → (0 < lit_max P)%Z → draws_ok P draws →
  Inv P (cnf s) → cost_ok (cnf s) → loop_ready P (cnf s) →
  W2_W5 P draws fuel s ≠ Check_failure ∧
  W2_W5 P draws fuel s ≠ Division_by_zero.
Proof.
  intros HR HL Hd HI Hc [R1 R2 R3 R4 _].
  remember (W2_W5 P draws fuel s) as r eqn:Er. unfold W2_W5 in Er.
  case_decide as Hf; [by subst|].
  pose proof (stack_length _ _ (Inv_stack _ _ HI)) as Hlen.
  assert (Hpos : 1 ≤ length (f (cnf s))).
  { destruct (f (cnf s)); [done|simpl; lia]. }
  destruct (W3_divisor_pos P (length (f (cnf s))) Hpos ltac:(lia)) as (Hdiv & _).
  rewrite decide_False in Er by lia.
  destruct (W3_loop _ _ _ _ _) as [[q n]|] eqn:E3; [|by subst].
  assert (Hq : q < length (f (cnf s))) by (eapply W3_loop_bound; [|exact E3]; lia).
  pose proof (list_lookup_lookup_total_lt _ _ Hq) as HqK.
  assert (HK : f (cnf s) !!! q < nclauses (cnf s)).
  { by destruct (stack_f _ _ (Inv_stack _ _ HI) _ _ HqK). }
  unfold rand_flip at 1, rand_bind, rand, rand_ret in Er.
  set (all := flip P (PARAM_non_greedy_choice P) (draws n)) in *.
  set (K := f (cnf s) !!! q) in *.
  pose proof (W4_draws_eligible P draws (cnf s) all (clause_lits (cnf s) K)
                [] (W4_init P) (S n) HR Hd HL) as He.
  simpl in He. specialize (He (cost_ok_costs_ok P _ K (Inv_wf _ _ HI) Hc R2 HK)
                             eq_refl).
  assert (Ek : 1%Z = (Z.of_nat (length (eligible_upto P (cnf s) all [])) + 1)%Z).
  { unfold eligible_upto. by destruct (_ && _). }
  specialize (He Ek ltac:(done) (R3 K HK)).
  apply eligible_upto_subset in He. unfold W4 in Er.
  destruct (W4_draws _ _ _ _ _ _ _) as [st n3]. simpl in He.
  rewrite decide_False in Er by (by apply (R4 K)). by subst.
Qed.

Lemma solve_loop_safe P draws fuel : ∀ s,
  (0 < RAND_MAX P)%Z → (0 < lit_max P)%Z → draws_ok P draws →
  Inv P (cnf s) → cost_ok (cnf s) → loop_ready P (cnf s) →
  solve_loop P draws fuel s ≠ Aborted ∧ solve_loop P draws fuel s ≠ Undefined.
Proof.
  induction fuel as [|fuel IH]; intros s HR HL Hd HI Hc Hr; [done|]. simpl.
  destruct (W2_W5_safe P draws fuel s HR HL Hd HI Hc Hr) as [H1 H2].
  destruct (W2_W5 P draws fuel s) as [|s1| | |] eqn:E; try done.
  destruct (W2_W5_Next_Inv _ _ _ _ _ HI E) as (HI1 & Hsf & l & Hl & El & _).
  apply IH; try done.
  - rewrite El. apply W5_cost_ok; try done. apply Hr.
  - by eapply loop_ready_same_formula.
Qed.

(** X7.  On a formula the loop is ready for, [solve] never fails the CHECK of W4
    and never divides by zero in W3: it returns true with a model, or it is
    still running. *)
Theorem solve_never_aborts P draws fuel c :
  (0 < RAND_MAX P)%Z → (0 < lit_max P)%Z → draws_ok P draws →
  wf_cnf P c → fresh P c → loop_ready P c →
  solve P draws fuel c = OutOfFuel ∨
  ∃ s, solve P draws fuel c = Returned true s ∧
       ∀ k, k < nclauses c → is_satisfied (cnf s) k = true.
Proof.
  intros HR HL Hd Hwf Hfr Hr. unfold solve.
  destruct (solve_init_Inv P draws c Hwf Hfr) as (HI & Hc & Hsf).
  pose proof (loop_ready_same_formula _ _ _ Hsf Hr) as Hr'.
  destruct (solve_loop_safe P draws fuel _ HR HL Hd HI Hc Hr') as [H1 H2].
  destruct (solve_loop P draws fuel _) as [b s| | |] eqn:E; try done; [|by left].
  right. destruct (solve_loop_Returned _ _ _ _ _ _ HI E) as (-> & Hf & HI' & Hsf').
  exists s. split; [done|]. intros k Hk.
  apply (Inv_all_satisfied P); [done|done|].
  destruct Hsf as (_ & _ & _ & E1), Hsf' as (_ & _ & _ & E2). lia.
Qed.

Lemma check_ready_sound P c : check_ready P c = true → loop_ready P c.
Proof.
  unfold check_ready. rewrite !andb_true_iff, !Z.leb_le, forallb_forall.
  intros [[[H1 H2] H3] H4]. split; try done.
  - intros k Hk. specialize (H3 k ltac:(apply in_seq; lia)).
    apply andb_true_iff in H3 as [H3 _]. by apply bool_decide_eq_true in H3.
  - intros k l Hk Hl. specialize (H3 k ltac:(apply in_seq; lia)).
    apply andb_true_iff in H3 as [_ H3]. rewrite forallb_forall in H3.
    apply list_elem_of_In in Hl. specialize (H3 l Hl).
    by apply bool_decide_eq_true in H3.
  - by apply check_distinct_sound.
Qed.

Lemma S4_draws_ok : draws_ok example_platform S4_draws.
Proof.
  apply draws_of_ok; [done|]. repeat (apply list.Forall_cons; split; [done|]).
  apply Forall_nil_2.
Qed.

Lemma solve_never_aborts_witness :
  ((0 < RAND_MAX example_platform)%Z ∧ (0 < lit_max example_platform)%Z ∧
   draws_ok example_platform S4_draws ∧ wf_cnf example_platform S4 ∧
   fresh example_platform S4 ∧ loop_ready example_platform S4) ∧
  (solve example_platform S4_draws 1 S4 = OutOfFuel ∨
   ∃ s, solve example_platform S4_draws 1 S4 = Returned true s ∧
        ∀ k, k < nclauses S4 → is_satisfied (cnf s) k = true) ∧
  ∃ s, solve example_platform S4_draws 5 S4 = Returned true s ∧
       ∀ k, k < nclauses S4 → is_satisfied (cnf s) k = true.
Proof.
  assert (H : (0 < RAND_MAX example_platform)%Z ∧ (0 < lit_max example_platform)%Z ∧
   draws_ok example_platform S4_draws ∧ wf_cnf example_platform S4 ∧
   fresh example_platform S4 ∧ loop_ready example_platform S4).
  { split; [reflexivity|]. split; [reflexivity|]. split; [exact S4_draws_ok|].
    split; [apply check_wf_sound; vm_compute; reflexivity|].
    split; [apply Cnf_of_fresh|]. apply check_ready_sound. vm_compute. reflexivity. }
  split; [exact H|]. destruct H as (H1 & H2 & H3 & H4 & H5 & H6).
  split; [exact (solve_never_aborts _ _ 1 _ H1 H2 H3 H4 H5 H6)|].
  destruct (solve_never_aborts _ _ 5 _ H1 H2 H3 H4 H5 H6) as [E|G]; [|exact G].
  vm_compute in E. discriminate.
Defined.

Lemma is_satisfied_set_val c c' k :
  same_formula c c' → is_satisfied (set_val (val c') c) k = is_satisfied c' k.
Proof.
  intros Hsf. symmetry. apply is_satisfied_val; [|done].
  destruct Hsf as (E1 & E2 & E3 & E4). by repeat split.
Qed.


Lemma contradiction_unsatisfiable : unsatisfiable contradiction.
Proof.
  intros v. destruct (v !!! 1) eqn:E.
  - exists 1. split; [simpl; lia|].
    unfold is_satisfied, is_true. simpl. unfold var. simpl.
    change (Pos.to_nat 1) with 1. rewrite E. reflexivity.
  - exists 0. split; [simpl; lia|].
    unfold is_satisfied, is_true. simpl. unfold var. simpl.
    change (Pos.to_nat 1) with 1. rewrite E. reflexivity.
Qed.


Lemma Inv_satisfied_empty P c :
  Inv P c → (∀ k, k < nclauses c → is_satisfied c k = true) → f c = [].
Proof.
  intros HI Hall. destruct (f c) as [|k l] eqn:E; [done|].
  assert (Hk : k ∈ f c) by (rewrite E; left).
  pose proof (proj1 (unsat_members P c k HI) Hk) as [Hlt _].
  apply (Inv_unsat_iff P c k HI Hlt) in Hk. by rewrite Hall in Hk.
Qed.

(** X9.  When the assignment that W1 draws satisfies every clause, [solve]
    returns at the first test of W2, with that assignment and no flip. *)
Theorem solve_returns_initial_model P draws fuel c :
  wf_cnf P c → fresh P c →
  (∀ k, k < nclauses c → is_satisfied (cnf (solve_init P draws c)) k = true) →
  solve P draws (S fuel) c = Returned true (solve_init P draws c) ∧
  flipped (solve_init P draws c) = [] ∧
  drawn (solve_init P draws c) = nvars c.
Proof.
  intros Hwf Hfr Hall.
  destruct (solve_init_Inv P draws c Hwf Hfr) as (HI & _ & Hsf).
  assert (Hf : f (cnf (solve_init P draws c)) = []).
  { apply (Inv_satisfied_empty P); [done|]. intros k Hk. apply Hall.
    destruct Hsf as (_ & _ & _ & <-). done. }
  split; [|split].
  - unfold solve. simpl. unfold W2_W5. by rewrite decide_True.
  - unfold solve_init. by destruct (W1 P draws c 0).
  - unfold solve_init.
    pose proof (W1_establishes P draws c 0 Hwf Hfr) as (_ & _ & _ & E).
    destruct (W1 P draws c 0). simpl in *. lia.
Qed.

Lemma solve_returns_initial_model_witness :
  (wf_cnf example_platform two_true ∧ fresh example_platform two_true ∧
   ∀ k, k < nclauses two_true →
     is_satisfied (cnf (solve_init example_platform (draws_of []) two_true)) k = true) ∧
  solve example_platform (draws_of []) 1 two_true =
    Returned true (solve_init example_platform (draws_of []) two_true) ∧
  val (cnf (solve_init example_platform (draws_of []) two_true)) = [false; true; true].
Proof.
  assert (H : wf_cnf example_platform two_true ∧ fresh example_platform two_true ∧
   ∀ k, k < nclauses two_true →
     is_satisfied (cnf (solve_init example_platform (draws_of []) two_true)) k = true).
  { split; [apply check_wf_sound; vm_compute; reflexivity|].
    split; [apply Cnf_of_fresh|].
    intros k Hk. change (nclauses two_true) with 2 in Hk.
    destruct k as [|[|k]]; [vm_compute; reflexivity|vm_compute; reflexivity|lia]. }
  split; [exact H|]. destruct H as (H1 & H2 & H3).
  destruct (solve_returns_initial_model example_platform (draws_of []) 0 two_true
              H1 H2 H3) as (G & _).
  split; [exact G|]. vm_compute. reflexivity.
Defined.

(** X10.  W3 divides [rand()] by [(RAND_MAX + 1) / f.size()]: with more clauses on
    the stack than [RAND_MAX + 1], the divisor is 0 and the turn has no
    defined result. *)
Theorem W3_divides_by_zero P draws fuel c :
  (0 ≤ RAND_MAX P + 1 < Z.of_nat (length (f (cnf (solve_init P draws c)))))%Z →
  solve P draws (S fuel) c = Undefined.
Proof.
  intros H. unfold solve. simpl. unfold W2_W5.
  rewrite decide_False by (intros E; rewrite E in H; simpl in H; lia).
  unfold W3_divisor. rewrite Z.div_small by lia. by rewrite decide_True.
Qed.

Lemma W3_divides_by_zero_witness :
  (0 ≤ RAND_MAX coin_platform + 1 <
     Z.of_nat (length (f (cnf (solve_init coin_platform (draws_of [1; 1; 1]) three_units)))))%Z ∧
  solve coin_platform (draws_of [1; 1; 1]%Z) 1 three_units = Undefined.
Proof.
  assert (H : (0 ≤ RAND_MAX coin_platform + 1 <
     Z.of_nat (length (f (cnf (solve_init coin_platform (draws_of [1; 1; 1]) three_units)))))%Z).
  { vm_compute. split; [discriminate|reflexivity]. }
  split; [exact H|].
  exact (W3_divides_by_zero coin_platform (draws_of [1; 1; 1]%Z) 0 three_units H).
Defined.

Section flip_of_a_list.
Variables (p p' : Z → bool) (v : nat).

Lemma existsb_same (L : list Z) :
  (∀ y, y ∈ L → p' y = p y) → existsb p' L = existsb p L.
Proof.
  induction L as [|y L IH]; intros H; [done|]. simpl.
  rewrite (H y) by left. rewrite IH; [done|]. intros z Hz. apply H. by right.
Qed.

Lemma filter_vars_not (L : list Z) :
  (∀ y, y ∈ L → var y ≠ v) → var <$> List.filter p L ≠ [v].
Proof.
  destruct (List.filter p L) as [|x xs] eqn:E; [done|].
  intros H [= Hx _]. apply (H x); [|done].
  apply list_elem_of_In. apply (proj1 (filter_In p x L)). rewrite E. by left.
Qed.

Lemma existsb_filter_nil (L : list Z) :
  existsb p L = false ↔ List.filter p L = [].
Proof.
  induction L as [|y L IH]; simpl; [done|]. destruct (p y); simpl; [done|exact IH].
Qed.

Lemma broken_by_flip (L : list Z) :
  (∀ y, y ∈ L → p' y = if decide (var y = v) then negb (p y) else p y) →
  NoDup (var <$> L) →
  existsb p L && negb (existsb p' L) =
  bool_decide (var <$> List.filter p L = [v]).
Proof.
  induction L as [|y L IH]; intros H Hnd; [done|].
  rewrite fmap_cons in Hnd. apply list.NoDup_cons in Hnd as [Hy Hnd].
  pose proof (H y ltac:(left)) as Hpy.
  assert (H' : ∀ z, z ∈ L → p' z = if decide (var z = v) then negb (p z) else p z).
  { intros z Hz. apply H. by right. }
  specialize (IH H' Hnd). cbn [existsb List.filter].
  destruct (decide (var y = v)) as [Ev|Ev].
  - assert (Hno : ∀ z, z ∈ L → var z ≠ v).
    { intros z Hz E. apply Hy. rewrite Ev, <- E. by apply list_elem_of_fmap_2. }
    assert (Hsame : existsb p' L = existsb p L).
    { apply existsb_same. intros z Hz. rewrite (H' z Hz).
      by rewrite decide_False by (by apply Hno). }
    rewrite Hpy, Hsame. destruct (p y) eqn:Epy; cbn [negb orb andb].
    + rewrite fmap_cons, Ev. destruct (existsb p L) eqn:Eex.
      * cbn. symmetry. apply bool_decide_eq_false. intros [= E].
        apply fmap_nil_inv in E. apply existsb_filter_nil in E. congruence.
      * cbn. symmetry. apply bool_decide_eq_true.
        apply existsb_filter_nil in Eex. by rewrite Eex.
    + rewrite andb_false_r. symmetry. apply bool_decide_eq_false.
      by apply filter_vars_not.
  - rewrite Hpy. destruct (p y) eqn:Epy; cbn [negb orb andb].
    + symmetry. apply bool_decide_eq_false. rewrite fmap_cons. by intros [= E _].
    + exact IH.
Qed.

Lemma made_by_flip (L : list Z) :
  (∀ y, y ∈ L → p' y = if decide (var y = v) then negb (p y) else p y) →
  existsb p L = false →
  existsb p' L = existsb (λ x, bool_decide (var x = v)) L.
Proof.
  induction L as [|y L IH]; intros H Hex; [done|]. simpl in *.
  apply orb_false_iff in Hex as [Hy Hex].
  rewrite (H y) by left. rewrite Hy. rewrite IH; [|intros z Hz; apply H; by right|done].
  by destruct (decide (var y = v)) as [E|E];
    [rewrite bool_decide_true|rewrite bool_decide_false].
Qed.
End flip_of_a_list.

Lemma filter_balance {A} (p p' : A → bool) (l : list A) :
  length (List.filter p' l) + length (List.filter (λ k, p k && negb (p' k)) l) =
  length (List.filter p l) + length (List.filter (λ k, negb (p k) && p' k) l).
Proof.
  induction l as [|x l IH]; [done|]. simpl.
  destruct (p x), (p' x); simpl; lia.
Qed.

Lemma stack_counts_unsatisfied P c :
  Inv P c →
  length (f c) =
  length (List.filter (λ k, negb (is_satisfied c k)) (seq 0 (nclauses c))).
Proof.
  intros HI. rewrite (unsat_count P c HI). f_equal.
  apply filter_ext_in. intros k Hk%in_seq.
  rewrite (Inv_numtrue _ _ HI k) by lia.
  pose proof (is_satisfied_count c k) as H.
  destruct (is_satisfied c k); simpl.
  - apply bool_decide_eq_false. destruct H as [H _]. specialize (H eq_refl). lia.
  - apply bool_decide_eq_true. destruct (count_true c k); [done|].
    destruct H as [_ H]. specialize (H ltac:(lia)). done.
Qed.

Lemma flip_pointwise P c l k :
  Inv P c → lit_ok c l → k < nclauses c →
  ∀ y, y ∈ clause_lits c k →
    is_true (W5 P c l) y =
    if decide (var y = var l) then negb (is_true c y) else is_true c y.
Proof.
  intros HI Hl Hk y Hy. apply (is_true_W5 P); [done|done|].
  by destruct (wf_lits _ _ (Inv_wf _ _ HI) _ _ Hk Hy).
Qed.

Lemma critical_broken P c l k :
  Inv P c → distinct_vars c → lit_ok c l → k < nclauses c →
  is_satisfied c k && negb (is_satisfied (W5 P c l) k) = critical c (var l) k.
Proof.
  intros HI Hd Hl Hk.
  destruct (W5_Inv P c l HI Hl) as (_ & Hsf & _).
  unfold is_satisfied. rewrite (same_formula_clause_lits _ _ _ Hsf).
  rewrite (broken_by_flip (is_true c) (is_true (W5 P c l)) (var l));
    [|by apply flip_pointwise|by apply Hd].
  unfold critical. rewrite (Inv_numtrue _ _ HI k Hk). unfold count_true.
  destruct (bool_decide (var <$> _ = [var l])) eqn:E; [|by rewrite andb_false_r].
  apply bool_decide_eq_true in E.
  apply (f_equal length) in E. rewrite length_fmap in E. simpl in E.
  rewrite E. done.
Qed.

Lemma broken_length P c l :
  Inv P c → cost_ok c → distinct_vars c → lit_ok c l →
  Z.of_nat (length (broken P c l)) = cost c !!! var l.
Proof.
  intros HI Hc Hd Hl. rewrite (Hc (var l)) by apply Hl. f_equal.
  unfold broken, break_count. f_equal. apply filter_ext_in.
  intros k Hk%in_seq. apply (critical_broken P); [done|done|done|lia].
Qed.

Lemma made_after P c l k :
  Inv P c → lit_ok c l → k < nclauses c →
  is_satisfied c k = false →
  is_satisfied (W5 P c l) k =
  existsb (λ x, bool_decide (var x = var l)) (clause_lits c k).
Proof.
  intros HI Hl Hk Hun. destruct (W5_Inv P c l HI Hl) as (_ & Hsf & _).
  unfold is_satisfied. rewrite (same_formula_clause_lits _ _ _ Hsf).
  apply (made_by_flip (is_true c)); [by apply flip_pointwise|exact Hun].
Qed.

Lemma flip_balance P c l :
  Inv P c → lit_ok c l →
  length (f (W5 P c l)) + length (made c (var l)) =
  length (f c) + length (broken P c l).
Proof.
  intros HI Hl. destruct (W5_Inv P c l HI Hl) as (HI' & Hsf & _).
  rewrite (stack_counts_unsatisfied P c HI).
  rewrite (stack_counts_unsatisfied P _ HI').
  destruct Hsf as (_ & _ & _ & ->).
  pose proof (filter_balance (λ k, negb (is_satisfied c k))
                (λ k, negb (is_satisfied (W5 P c l) k)) (seq 0 (nclauses c))) as H.
  cbv beta in H.
  assert (Em : made c (var l) =
    List.filter (λ k, negb (is_satisfied c k) &&
                      negb (negb (is_satisfied (W5 P c l) k))) (seq 0 (nclauses c))).
  { unfold made. apply filter_ext_in. intros k Hk%in_seq.
    destruct (is_satisfied c k) eqn:E; [done|]. simpl.
    rewrite (made_after P c l k) by (done || lia).
    by rewrite negb_involutive. }
  assert (Eb : broken P c l =
    List.filter (λ k, negb (negb (is_satisfied c k)) &&
                      negb (is_satisfied (W5 P c l) k)) (seq 0 (nclauses c))).
  { unfold broken. apply filter_ext_in. intros k _. by rewrite negb_involutive. }
  rewrite Em, Eb. exact H.
Qed.

(** X11.  [cost[v]] is what a flip of [v] costs: the number of clauses that are
    satisfied before the flip and unsatisfied after it. *)
Theorem cost_counts_broken_clauses P draws fuel c i s l :
  wf_cnf P c → fresh P c → distinct_vars c →
  loop_head P draws fuel i (solve_init P draws c) = Some s →
  l ≠ 0%Z → var l ≤ nvars c →
  cost (cnf s) !!! var l = Z.of_nat (length (broken P (cnf s) l)) ∧
  ∀ k, k ∈ broken P (cnf s) l ↔
       k < nclauses c ∧ is_satisfied (cnf s) k = true ∧
       is_satisfied (W5 P (cnf s) l) k = false.
Proof.
  intros Hwf Hfr Hd Hl Hl0 Hlv.
  destruct (run_Inv _ _ _ _ _ _ Hwf Hfr Hl) as [HI Hsf].
  destruct (solve_init_Inv P draws c Hwf Hfr) as (HI0 & Hc0 & Hsf0).
  pose proof (distinct_vars_same_formula _ _ Hsf0 Hd) as Hd0.
  pose proof (loop_head_cost_ok _ _ _ _ _ _ HI0 Hc0 Hd0 Hl) as Hc.
  pose proof (distinct_vars_same_formula _ _ Hsf Hd) as Hds.
  pose proof Hsf as (_ & _ & Env & Enc).
  assert (Hok : lit_ok (cnf s) l) by (split; [done|lia]).
  split; [symmetry; by apply broken_length|].
  intros k. unfold broken.
  rewrite list_elem_of_In, filter_In, in_seq, andb_true_iff, negb_true_iff, Enc.
  split; [intros [? [? ?]]|intros (? & ? & ?)]; repeat split; (done || lia).
Qed.

(** X12.  The stack after a flip: it loses the unsatisfied clauses with a literal
    over the flipped variable and gains [cost] clauses; a flip of cost 0 of a
    literal of an unsatisfied clause leaves it shorter. *)
Theorem flip_changes_stack_by_cost P draws fuel c i s l :
  wf_cnf P c → fresh P c → distinct_vars c →
  loop_head P draws fuel i (solve_init P draws c) = Some s →
  l ≠ 0%Z → var l ≤ nvars c →
  (Z.of_nat (length (f (W5 P (cnf s) l))) =
   Z.of_nat (length (f (cnf s))) + cost (cnf s) !!! var l
   - Z.of_nat (length (made (cnf s) (var l))))%Z ∧
  (∀ K, K ∈ f (cnf s) → l ∈ clause_lits c K → 0 < length (made (cnf s) (var l))) ∧
  (∀ K, K ∈ f (cnf s) → l ∈ clause_lits c K → cost (cnf s) !!! var l = 0%Z →
     length (f (W5 P (cnf s) l)) < length (f (cnf s))).
Proof.
  intros Hwf Hfr Hd Hl Hl0 Hlv.
  destruct (run_Inv _ _ _ _ _ _ Hwf Hfr Hl) as [HI Hsf].
  destruct (solve_init_Inv P draws c Hwf Hfr) as (HI0 & Hc0 & Hsf0).
  pose proof (distinct_vars_same_formula _ _ Hsf0 Hd) as Hd0.
  pose proof (loop_head_cost_ok _ _ _ _ _ _ HI0 Hc0 Hd0 Hl) as Hc.
  pose proof (distinct_vars_same_formula _ _ Hsf Hd) as Hds.
  pose proof Hsf as (_ & _ & Env & Enc).
  assert (Hok : lit_ok (cnf s) l) by (split; [done|lia]).
  pose proof (flip_balance P (cnf s) l HI Hok) as Hb.
  pose proof (broken_length P (cnf s) l HI Hc Hds Hok) as Hbr.
  assert (Hmade : ∀ K, K ∈ f (cnf s) → l ∈ clause_lits c K →
                       0 < length (made (cnf s) (var l))).
  { intros K HK Hin.
    pose proof (proj1 (unsat_members P _ K HI) HK) as [HKlt _].
    apply (Inv_unsat_iff P _ K HI HKlt) in HK.
    apply (filter_pos_true _ _ K).
    - apply list_elem_of_In, in_seq. lia.
    - rewrite HK. simpl. apply existsb_exists. exists l. split.
      + apply list_elem_of_In. by rewrite (same_formula_clause_lits _ _ _ Hsf).
      + by apply bool_decide_eq_true. }
  split; [lia|]. split; [exact Hmade|].
  intros K HK Hin Hz. specialize (Hmade K HK Hin). lia.
Qed.

Lemma S4_wf : wf_cnf example_platform S4.
Proof. apply check_wf_sound. vm_compute. reflexivity. Qed.

Lemma S4_fresh : fresh example_platform S4.
Proof. apply Cnf_of_fresh. Qed.

Lemma S4_distinct : distinct_vars S4.
Proof. apply check_distinct_sound. vm_compute. reflexivity. Qed.

Lemma cost_counts_broken_clauses_witness :
  let s := solve_init example_platform S4_draws S4 in
  (wf_cnf example_platform S4 ∧ fresh example_platform S4 ∧ distinct_vars S4 ∧
   loop_head example_platform S4_draws 5 0
     (solve_init example_platform S4_draws S4) = Some s ∧
   3%Z ≠ 0%Z ∧ var 3 ≤ nvars S4) ∧
  cost (cnf s) !!! var 3 = Z.of_nat (length (broken example_platform (cnf s) 3)) ∧
  broken example_platform (cnf s) 3 = [2].
Proof.
  intros s.
  assert (H : wf_cnf example_platform S4 ∧ fresh example_platform S4 ∧
   distinct_vars S4 ∧
   loop_head example_platform S4_draws 5 0
     (solve_init example_platform S4_draws S4) = Some s ∧
   3%Z ≠ 0%Z ∧ var 3 ≤ nvars S4).
  { split; [exact S4_wf|]. split; [exact S4_fresh|]. split; [exact S4_distinct|].
    split; [reflexivity|]. split; [discriminate|]. vm_compute. lia. }
  split; [exact H|]. destruct H as (H1 & H2 & H3 & H4 & H5 & H6).
  destruct (cost_counts_broken_clauses _ _ _ _ _ _ _ H1 H2 H3 H4 H5 H6) as [G _].
  split; [exact G|]. vm_compute. reflexivity.
Defined.

Lemma flip_changes_stack_by_cost_witness :
  let s := solve_init example_platform S4_draws S4 in
  (wf_cnf example_platform S4 ∧ fresh example_platform S4 ∧ distinct_vars S4 ∧
   loop_head example_platform S4_draws 5 0
     (solve_init example_platform S4_draws S4) = Some s ∧
   3%Z ≠ 0%Z ∧ var 3 ≤ nvars S4) ∧
  (Z.of_nat (length (f (W5 example_platform (cnf s) 3))) =
   Z.of_nat (length (f (cnf s))) + cost (cnf s) !!! var 3
   - Z.of_nat (length (made (cnf s) (var 3))))%Z ∧
  f (cnf s) = [1] ∧ cost (cnf s) !!! var 3 = 1%Z ∧ made (cnf s) (var 3) = [1] ∧
  f (W5 example_platform (cnf s) 3) = [2].
Proof.
  intros s.
  assert (H : wf_cnf example_platform S4 ∧ fresh example_platform S4 ∧
   distinct_vars S4 ∧
   loop_head example_platform S4_draws 5 0
     (solve_init example_platform S4_draws S4) = Some s ∧
   3%Z ≠ 0%Z ∧ var 3 ≤ nvars S4).
  { split; [exact S4_wf|]. split; [exact S4_fresh|]. split; [exact S4_distinct|].
    split; [reflexivity|]. split; [discriminate|]. vm_compute. lia. }
  split; [exact H|]. destruct H as (H1 & H2 & H3 & H4 & H5 & H6).
  destruct (flip_changes_stack_by_cost _ _ _ _ _ _ _ H1 H2 H3 H4 H5 H6) as [G _].
  split; [exact G|]. vm_compute. repeat split; reflexivity.
Defined.

Lemma count_true_val c c' k :
  same_formula c c' → val c' = val c → count_true c' k = count_true c k.
Proof.
  intros Hsf Hv. unfold count_true. rewrite (same_formula_clause_lits _ _ _ Hsf).
  f_equal. apply filter_ext. intros x. by apply is_true_val.
Qed.

Lemma numtrue_determined P c c' :
  Inv P c → Inv P c' → same_formula c c' → val c' = val c →
  numtrue c' = numtrue c.
Proof.
  intros HI HI' Hsf Hv. pose proof Hsf as (_ & _ & _ & En).
  apply (list_eq_same_length _ _ (nclauses c)).
  - apply (wf_numtrue _ _ (Inv_wf _ _ HI)).
  - rewrite <- En. apply (wf_numtrue _ _ (Inv_wf _ _ HI')).
  - intros k x y Hk Hx Hy.
    apply list_lookup_total_correct in Hx, Hy. subst x y.
    rewrite (Inv_numtrue _ _ HI' k) by lia. rewrite (Inv_numtrue _ _ HI k) by lia.
    by rewrite (count_true_val _ _ _ Hsf Hv).
Qed.

Lemma stack_determined P c c' :
  Inv P c → Inv P c' → same_formula c c' → numtrue c' = numtrue c →
  f c' ≡ₚ f c.
Proof.
  intros HI HI' Hsf Hn. pose proof Hsf as (_ & _ & _ & En).
  apply NoDup_Permutation.
  - apply (stack_NoDup P), HI'.
  - apply (stack_NoDup P), HI.
  - intros k. rewrite (unsat_members P c' k HI'), (unsat_members P c k HI).
    by rewrite Hn, En.
Qed.

Lemma cost_determined c c' :
  cost_ok c → cost_ok c' → length (cost c) = nvars c + 1 →
  length (cost c') = nvars c + 1 →
  same_formula c c' → val c' = val c → numtrue c' = numtrue c →
  cost c' = cost c.
Proof.
  intros Hc Hc' Hl Hl' Hsf Hv Hn. pose proof Hsf as (_ & _ & Env & Enc).
  apply (list_eq_same_length _ _ (nvars c + 1)); [done|done|].
  intros u x y Hu Hx Hy. apply list_lookup_total_correct in Hx, Hy. subst x y.
  rewrite (Hc' u) by lia. rewrite (Hc u) by lia. f_equal.
  unfold break_count. rewrite Enc. f_equal. apply filter_ext. intros k.
  unfold critical. rewrite Hn, (same_formula_clause_lits _ _ _ Hsf).
  assert (E : List.filter (is_true c') (clause_lits c k) =
              List.filter (is_true c) (clause_lits c k)).
  { apply filter_ext. intros x. by apply is_true_val. }
  by rewrite E.
Qed.

Lemma flip_twice P c l :
  Inv P c → lit_ok c l →
  let c2 := W5 P (W5 P c l) l in
  Inv P c2 ∧ same_formula c c2 ∧ val c2 = val c.
Proof.
  intros HI Hl.
  destruct (W5_Inv P c l HI Hl) as (HI1 & Hsf1 & Ev1).
  assert (Hl1 : lit_ok (W5 P c l) l).
  { destruct Hl as [? ?], Hsf1 as (_ & _ & E & _). split; [done|]. by rewrite E. }
  destruct (W5_Inv P _ l HI1 Hl1) as (HI2 & Hsf2 & Ev2).
  split; [done|]. split; [by eapply same_formula_trans|].
  simpl. rewrite Ev2, Ev1.
  assert (Hv : var l < length (val c)).
  { rewrite (wf_val _ _ (Inv_wf _ _ HI)). destruct Hl. lia. }
  rewrite list_lookup_total_insert_eq by done.
  rewrite list_insert_insert_eq, negb_involutive.
  apply list_insert_id. by apply list_lookup_lookup_total_lt.
Qed.

(** X13.  Two flips of one variable, one after the other, give back the
    assignment, the counts of true literals, the costs, and the unsatisfied
    clauses (in some order on the stack). *)
Theorem flip_twice_restores P draws fuel c i s l :
  wf_cnf P c → fresh P c → distinct_vars c →
  loop_head P draws fuel i (solve_init P draws c) = Some s →
  l ≠ 0%Z → var l ≤ nvars c →
  let c2 := W5 P (W5 P (cnf s) l) l in
  val c2 = val (cnf s) ∧ numtrue c2 = numtrue (cnf s) ∧
  cost c2 = cost (cnf s) ∧ f c2 ≡ₚ f (cnf s).
Proof.
  intros Hwf Hfr Hd Hl Hl0 Hlv c2.
  destruct (run_Inv _ _ _ _ _ _ Hwf Hfr Hl) as [HI Hsf].
  destruct (solve_init_Inv P draws c Hwf Hfr) as (HI0 & Hc0 & Hsf0).
  pose proof (distinct_vars_same_formula _ _ Hsf0 Hd) as Hd0.
  pose proof (loop_head_cost_ok _ _ _ _ _ _ HI0 Hc0 Hd0 Hl) as Hc.
  pose proof (distinct_vars_same_formula _ _ Hsf Hd) as Hds.
  pose proof Hsf as (_ & _ & Env & Enc).
  assert (Hok : lit_ok (cnf s) l) by (split; [done|lia]).
  destruct (W5_Inv P _ l HI Hok) as (HI1 & Hsf1 & _).
  assert (Hok1 : lit_ok (W5 P (cnf s) l) l).
  { destruct Hsf1 as (_ & _ & E & _). split; [done|]. rewrite E. lia. }
  pose proof (W5_cost_ok P _ l HI Hc Hds Hok) as Hc1.
  pose proof (W5_cost_ok P _ l HI1 Hc1
                (distinct_vars_same_formula _ _ Hsf1 Hds) Hok1) as Hc2.
  destruct (flip_twice P (cnf s) l HI Hok) as (HI2 & Hsf2 & Ev).
  fold c2 in HI2, Hsf2, Ev, Hc2.
  pose proof (numtrue_determined P _ _ HI HI2 Hsf2 Ev) as En.
  split; [done|]. split; [done|]. split.
  - apply cost_determined; try done.
    + apply (wf_cost _ _ (Inv_wf _ _ HI)).
    + destruct Hsf2 as (_ & _ & E & _). rewrite <- E.
      apply (wf_cost _ _ (Inv_wf _ _ HI2)).
  - by apply (stack_determined P).
Qed.

Lemma flip_twice_restores_witness :
  let s := solve_init example_platform S4_draws S4 in
  (wf_cnf example_platform S4 ∧ fresh example_platform S4 ∧ distinct_vars S4 ∧
   loop_head example_platform S4_draws 5 0
     (solve_init example_platform S4_draws S4) = Some s ∧
   3%Z ≠ 0%Z ∧ var 3 ≤ nvars S4) ∧
  val (W5 example_platform (W5 example_platform (cnf s) 3) 3) = val (cnf s) ∧
  cost (W5 example_platform (W5 example_platform (cnf s) 3) 3) = cost (cnf s) ∧
  val (cnf s) = [false; true; true; false; false] ∧
  val (W5 example_platform (cnf s) 3) = [false; true; true; true; false].
Proof.
  intros s.
  assert (H : wf_cnf example_platform S4 ∧ fresh example_platform S4 ∧
   distinct_vars S4 ∧
   loop_head example_platform S4_draws 5 0
     (solve_init example_platform S4_draws S4) = Some s ∧
   3%Z ≠ 0%Z ∧ var 3 ≤ nvars S4).
  { split; [exact S4_wf|]. split; [exact S4_fresh|]. split; [exact S4_distinct|].
    split; [reflexivity|]. split; [discriminate|]. vm_compute. lia. }
  split; [exact H|]. destruct H as (H1 & H2 & H3 & H4 & H5 & H6).
  destruct (flip_twice_restores _ _ _ _ _ _ _ H1 H2 H3 H4 H5 H6) as (G1 & _ & G3 & _).
  split; [exact G1|]. split; [exact G3|]. split; vm_compute; reflexivity.
Defined.

(** X14.  A flip leaves alone every clause with no literal over the flipped
    variable: the same count of true literals, satisfied as before, on the
    stack as before. *)
Theorem flip_is_local P draws fuel c i s l k :
  wf_cnf P c → fresh P c →
  loop_head P draws fuel i (solve_init P draws c) = Some s →
  l ≠ 0%Z → var l ≤ nvars c → k < nclauses c →
  (∀ x, x ∈ clause_lits c k → var x ≠ var l) →
  numtrue (W5 P (cnf s) l) !!! k = numtrue (cnf s) !!! k ∧
  is_satisfied (W5 P (cnf s) l) k = is_satisfied (cnf s) k ∧
  (k ∈ f (W5 P (cnf s) l) ↔ k ∈ f (cnf s)).
Proof.
  intros Hwf Hfr Hl Hl0 Hlv Hk Hno.
  destruct (run_Inv _ _ _ _ _ _ Hwf Hfr Hl) as [HI Hsf].
  pose proof Hsf as (_ & _ & Env & Enc).
  assert (Hok : lit_ok (cnf s) l) by (split; [done|lia]).
  destruct (W5_Inv P _ l HI Hok) as (HI1 & Hsf1 & _).
  pose proof Hsf1 as (_ & _ & _ & Enc1).
  assert (Hks : k < nclauses (cnf s)) by lia.
  assert (Hsame : ∀ y, y ∈ clause_lits (cnf s) k →
            is_true (W5 P (cnf s) l) y = is_true (cnf s) y).
  { intros y Hy. rewrite (flip_pointwise P _ l k HI Hok Hks y Hy).
    rewrite decide_False; [done|]. apply Hno.
    by rewrite <- (same_formula_clause_lits _ _ _ Hsf). }
  assert (En : numtrue (W5 P (cnf s) l) !!! k = numtrue (cnf s) !!! k).
  { rewrite (Inv_numtrue _ _ HI1 k) by lia. rewrite (Inv_numtrue _ _ HI k) by lia.
    f_equal. unfold count_true. rewrite (same_formula_clause_lits _ _ _ Hsf1).
    f_equal. apply filter_ext_in. intros y Hy. apply Hsame.
    by apply list_elem_of_In. }
  split; [done|]. split.
  - unfold is_satisfied. rewrite (same_formula_clause_lits _ _ _ Hsf1).
    by apply existsb_same.
  - rewrite (unsat_members P _ k HI1), (unsat_members P _ k HI).
    by rewrite En, Enc1.
Qed.

Lemma flip_is_local_witness :
  let s := solve_init example_platform S4_draws S4 in
  (wf_cnf example_platform S4 ∧ fresh example_platform S4 ∧
   loop_head example_platform S4_draws 5 0
     (solve_init example_platform S4_draws S4) = Some s ∧
   3%Z ≠ 0%Z ∧ var 3 ≤ nvars S4 ∧ 0 < nclauses S4 ∧
   ∀ x, x ∈ clause_lits S4 0 → var x ≠ var 3) ∧
  numtrue (W5 example_platform (cnf s) 3) !!! 0 = 2%Z.
Proof.
  intros s.
  assert (H : wf_cnf example_platform S4 ∧ fresh example_platform S4 ∧
   loop_head example_platform S4_draws 5 0
     (solve_init example_platform S4_draws S4) = Some s ∧
   3%Z ≠ 0%Z ∧ var 3 ≤ nvars S4 ∧ 0 < nclauses S4 ∧
   ∀ x, x ∈ clause_lits S4 0 → var x ≠ var 3).
  { split; [exact S4_wf|]. split; [exact S4_fresh|]. split; [reflexivity|].
    split; [discriminate|]. split; [vm_compute; lia|]. split; [vm_compute; lia|].
    intros x Hx. apply list_elem_of_In in Hx. vm_compute in Hx.
    destruct Hx as [<-|[<-|[]]]; vm_compute; lia. }
  split; [exact H|]. destruct H as (H1 & H2 & H3 & H4 & H5 & H6 & H7).
  destruct (flip_is_local _ _ _ _ _ _ _ _ H1 H2 H3 H4 H5 H6 H7) as (G & _).
  rewrite G. vm_compute. reflexivity.
Defined.

(** X1.  The reader gives the clauses of the file back.  For a clause section
    whose clauses are not empty, with as many clauses as the problem line
    declares and a last clause that the end of the file may close instead of
    a 0: [parse] returns a structure as the constructor leaves it, whose
    [k]-th clause range holds the literals of the [k]-th clause, in order. *)
Theorem parse_reads_clauses P clause_max nv nc cls tl :
  (0 ≤ nv ≤ lit_max P)%Z → (0 ≤ nc ≤ clause_max)%Z →
  Forall clause_ok cls → Forall (λ l, l ≠ 0%Z) tl →
  let all := cls ++ (if decide (tl = []) then [] else [tl]) in
  length all = Z.to_nat nc →
  ∃ c, parse P clause_max nv nc (dimacs_tokens cls ++ tl) = ParseOk c ∧
       nvars c = Z.to_nat nv ∧ nclauses c = length all ∧
       clauses c = concat all ∧
       (∀ k cl, all !! k = Some cl → clause_lits c k = cl) ∧
       fresh P c.
Proof.
  intros Hnv Hnc Hcls Htl all Hlen.
  exists (Cnf_of_clauses P (Z.to_nat nv) all).
  rewrite (parse_dimacs P clause_max nv nc cls tl Hnv Hnc Hcls Htl). fold all.
  rewrite decide_True by done. split; [done|].
  destruct (Cnf_of_clauses_sizes P (Z.to_nat nv) all) as (E1 & E2 & E3 & _).
  split; [done|]. split; [done|]. split; [done|]. split.
  - intros k cl Hk. by apply clause_lits_of_clauses.
  - apply Cnf_of_fresh.
Qed.

Lemma parse_reads_clauses_witness :
  ((0 ≤ 4 ≤ lit_max example_platform)%Z ∧ (0 ≤ 3 ≤ 4294967295)%Z ∧
   Forall clause_ok [[1; 2]; [3]]%Z ∧ Forall (λ l, l ≠ 0%Z) [-2; -3; 4]%Z ∧
   length [[1; 2]; [3]; [-2; -3; 4]]%Z = Z.to_nat 3) ∧
  ∃ c, parse example_platform 4294967295 4 3 [1; 2; 0; 3; 0; -2; -3; 4]%Z = ParseOk c ∧
       clause_lits c 2 = [-2; -3; 4]%Z ∧ c = S4.
Proof.
  assert (H : (0 ≤ 4 ≤ lit_max example_platform)%Z ∧ (0 ≤ 3 ≤ 4294967295)%Z ∧
   Forall clause_ok [[1; 2]; [3]]%Z ∧ Forall (λ l, l ≠ 0%Z) [-2; -3; 4]%Z ∧
   length [[1; 2]; [3]; [-2; -3; 4]]%Z = Z.to_nat 3).
  { split; [split; discriminate|]. split; [split; discriminate|].
    split; [|split; [|reflexivity]].
    - repeat (apply list.Forall_cons; split;
              [split; [discriminate|repeat constructor; discriminate]|]).
      apply Forall_nil_2.
    - repeat (apply list.Forall_cons; split; [discriminate|]). apply Forall_nil_2. }
  split; [exact H|]. destruct H as (H1 & H2 & H3 & H4 & H5).
  destruct (parse_reads_clauses example_platform 4294967295 4 3
              [[1; 2]; [3]]%Z [-2; -3; 4]%Z H1 H2 H3 H4 H5)
    as (c & Hp & _ & _ & _ & Hc & _).
  exists c. split; [exact Hp|]. split; [exact (Hc 2 _ eq_refl)|].
  vm_compute in Hp. injection Hp as <-. reflexivity.
Defined.

(** X2.  The last CHECK of the reader: when the clause section holds no empty
    clause and the number of its clauses is not the declared one, [parse]
    fails the CHECK, and so does [main]. *)
Theorem parse_checks_clause_count P clause_max srand_rand FLAGS_seed now nv nc cls tl fuel :
  (0 ≤ nv ≤ lit_max P)%Z → (0 ≤ nc ≤ clause_max)%Z →
  Forall clause_ok cls → Forall (λ l, l ≠ 0%Z) tl →
  length (cls ++ (if decide (tl = []) then [] else [tl])) ≠ Z.to_nat nc →
  parse P clause_max nv nc (dimacs_tokens cls ++ tl) = CHECK_failed ∧
  main P clause_max srand_rand FLAGS_seed now nv nc (dimacs_tokens cls ++ tl) fuel
    = Exit_CHECK.
Proof.
  intros Hnv Hnc Hcls Htl Hlen.
  assert (E : parse P clause_max nv nc (dimacs_tokens cls ++ tl) = CHECK_failed).
  { rewrite (parse_dimacs P clause_max nv nc cls tl Hnv Hnc Hcls Htl).
    by rewrite decide_False. }
  split; [done|]. unfold main. by rewrite E.
Qed.

Lemma parse_checks_clause_count_witness :
  ((0 ≤ 4 ≤ lit_max example_platform)%Z ∧ (0 ≤ 2 ≤ 4294967295)%Z ∧
   Forall clause_ok [[1; 2]; [3]]%Z ∧ Forall (λ l, l ≠ 0%Z) [-2; -3; 4]%Z ∧
   length ([[1; 2]; [3]] ++ [[-2; -3; 4]])%Z ≠ Z.to_nat 2) ∧
  parse example_platform 4294967295 4 2 [1; 2; 0; 3; 0; -2; -3; 4]%Z = CHECK_failed.
Proof.
  assert (H : (0 ≤ 4 ≤ lit_max example_platform)%Z ∧ (0 ≤ 2 ≤ 4294967295)%Z ∧
   Forall clause_ok [[1; 2]; [3]]%Z ∧ Forall (λ l, l ≠ 0%Z) [-2; -3; 4]%Z ∧
   length ([[1; 2]; [3]] ++ [[-2; -3; 4]])%Z ≠ Z.to_nat 2).
  { split; [split; discriminate|]. split; [split; discriminate|].
    split; [|split; [|discriminate]].
    - repeat (apply list.Forall_cons; split;
              [split; [discriminate|repeat constructor; discriminate]|]).
      apply Forall_nil_2.
    - repeat (apply list.Forall_cons; split; [discriminate|]). apply Forall_nil_2. }
  split; [exact H|]. destruct H as (H1 & H2 & H3 & H4 & H5).
  exact (proj1 (parse_checks_clause_count example_platform 4294967295
                  example_generator 7 0 4 2 [[1; 2]; [3]]%Z [-2; -3; 4]%Z 10
                  H1 H2 H3 H4 H5)).
Defined.

Lemma S4_start_Inv : Inv example_platform (cnf (solve_init example_platform S4_draws S4)).
Proof. apply solve_init_Inv; [exact S4_wf|exact S4_fresh]. Qed.

(** X4.  [register_unsatisfied(k)] on a clause that is not on the stack puts it on
    top and records its position, leaving the positions of the others alone;
    on a clause that is on the stack it does nothing; in both cases the stack
    and the positions agree afterwards, [k] is on the stack, and a second
    call changes nothing. *)
Theorem register_unsatisfied_pushes P c k :
  wf_cnf P c → stack_ok P c → k < nclauses c →
  let c' := register_unsatisfied P k c in
  (w c !!! k = clause_nil P →
     f c' = f c ++ [k] ∧ w c' !!! k = Z.of_nat (length (f c)) ∧
     ∀ j, j ≠ k → w c' !!! j = w c !!! j) ∧
  (w c !!! k ≠ clause_nil P → c' = c) ∧
  stack_ok P c' ∧ k ∈ f c' ∧
  register_unsatisfied P k c' = c'.
Proof.
  intros Hwf Hst Hk c'.
  assert (Hsame : w c !!! k ≠ clause_nil P → c' = c).
  { intros Hn. unfold c', register_unsatisfied. by rewrite decide_False. }
  split; [|split; [done|]].
  - intros Hnil.
    destruct (register_unsatisfied_spec P c k Hwf Hst Hk Hnil) as (Ef & Ew & _ & _).
    fold c' in Ef, Ew. split; [done|]. rewrite Ew. split.
    + apply list_lookup_total_insert_eq. rewrite (wf_w _ _ Hwf). lia.
    + intros j Hj. by rewrite list_lookup_total_insert_ne.
  - destruct (decide (w c !!! k = clause_nil P)) as [Hnil|Hn].
    + destruct (register_unsatisfied_spec P c k Hwf Hst Hk Hnil) as (Ef & _ & _ & Hs).
      fold c' in Ef, Hs. split; [done|]. split.
      * rewrite Ef. apply elem_of_app. right. left.
      * apply push_twice; done.
    + rewrite (Hsame Hn). split; [done|]. split.
      * destruct (stack_w _ _ Hst k Hk Hn) as [_ H].
        by eapply list_elem_of_lookup_2.
      * unfold register_unsatisfied. by rewrite decide_False.
Qed.

Lemma register_unsatisfied_pushes_witness :
  let c := cnf (solve_init example_platform S4_draws S4) in
  (wf_cnf example_platform c ∧ stack_ok example_platform c ∧ 0 < nclauses c) ∧
  f c = [1] ∧ f (register_unsatisfied example_platform 0 c) = [1; 0] ∧
  w (register_unsatisfied example_platform 0 c) !!! 0 = 1%Z.
Proof.
  intros c.
  assert (H : wf_cnf example_platform c ∧ stack_ok example_platform c ∧
              0 < nclauses c).
  { split; [apply S4_start_Inv|]. split; [apply S4_start_Inv|]. vm_compute. lia. }
  split; [exact H|]. destruct H as (H1 & H2 & H3).
  destruct (register_unsatisfied_pushes example_platform c 0 H1 H2 H3) as (G & _).
  split; [vm_compute; reflexivity|].
  destruct (G ltac:(vm_compute; reflexivity)) as (G1 & G2 & _).
  split; [exact G1|exact G2].
Defined.

(** X5.  [register_satisfied(k)] undoes [register_unsatisfied(k)]: after the two
    calls on a clause that was not on the stack, the structure is what it
    was. *)
Theorem register_satisfied_undoes_push P c k :
  wf_cnf P c → stack_ok P c → k < nclauses c → w c !!! k = clause_nil P →
  register_satisfied P k (register_unsatisfied P k c) = c.
Proof.
  intros Hwf Hst Hk Hnil.
  destruct (register_unsatisfied_spec P c k Hwf Hst Hk Hnil) as (_ & _ & Hne & _).
  pose proof (wf_w _ _ Hwf) as Hlen.
  unfold register_satisfied. rewrite decide_False by done.
  unfold register_unsatisfied in *. rewrite decide_True in * by done.
  cbn [f w set_f set_w] in *.
  remember (length (f c)) as n eqn:En.
  assert (Eback : length (f c ++ [k]) - 1 = n) by (rewrite length_app; simpl; lia).
  rewrite Eback.
  assert (Etop : (f c ++ [k]) !!! n = k).
  { rewrite lookup_total_app_r by lia. replace (n - length (f c)) with 0 by lia. done. }
  rewrite Etop.
  assert (Ewk : <[k := Z.of_nat n]> (w c) !!! k = Z.of_nat n).
  { apply list_lookup_total_insert_eq. lia. }
  rewrite Ewk, list_insert_insert_eq, Ewk, Nat2Z.id, Etop.
  rewrite list_insert_insert_eq, list_insert_insert_eq.
  assert (E1 : <[n := k]> (f c ++ [k]) = f c ++ [k]).
  { apply list_insert_id. rewrite lookup_app_r by lia.
    replace (n - length (f c)) with 0 by lia. done. }
  assert (E2 : <[k := clause_nil P]> (w c) = w c).
  { apply list_insert_id. rewrite <- Hnil. apply list_lookup_lookup_total_lt. lia. }
  rewrite E1, E2, En, take_app_length.
  by destruct c.
Qed.

Lemma register_satisfied_undoes_push_witness :
  let c := cnf (solve_init example_platform S4_draws S4) in
  (wf_cnf example_platform c ∧ stack_ok example_platform c ∧ 0 < nclauses c ∧
   w c !!! 0 = clause_nil example_platform) ∧
  f (register_unsatisfied example_platform 0 c) = [1; 0] ∧
  register_satisfied example_platform 0 (register_unsatisfied example_platform 0 c) = c.
Proof.
  intros c.
  assert (H : wf_cnf example_platform c ∧ stack_ok example_platform c ∧
              0 < nclauses c ∧ w c !!! 0 = clause_nil example_platform).
  { split; [apply S4_start_Inv|]. split; [apply S4_start_Inv|].
    split; [vm_compute; lia|vm_compute; reflexivity]. }
  split; [exact H|]. destruct H as (H1 & H2 & H3 & H4).
  split; [vm_compute; reflexivity|].
  exact (register_satisfied_undoes_push example_platform c 0 H1 H2 H3 H4).
Defined.

(** X3.  What [main] reports is a model of what [parse] read.  For a clause
    section whose literals are over declared variables: when [main] takes
    SAT_EXIT, it is with the formula of the file, and every clause of the
    file has a literal that is true under the [val] it reports. *)
Theorem main_reports_model P clause_max srand_rand FLAGS_seed now nv nc cls tl fuel c :
  (0 ≤ nv ≤ lit_max P)%Z → (0 ≤ nc ≤ clause_max)%Z →
  (∀ i, (0 ≤ Z.of_nat i < nc)%Z → Z.of_nat i ≠ clause_nil P) →
  Forall clause_ok cls → Forall (λ l, l ≠ 0%Z) tl →
  let all := cls ++ (if decide (tl = []) then [] else [tl]) in
  Forall (Forall (λ l, var l ≤ Z.to_nat nv)) all →
  main P clause_max srand_rand FLAGS_seed now nv nc (dimacs_tokens cls ++ tl) fuel
    = SAT_EXIT c →
  length all = Z.to_nat nc ∧ nvars c = Z.to_nat nv ∧
  ∀ k cl, all !! k = Some cl →
    clause_lits c k = cl ∧ ∃ l, l ∈ cl ∧ is_true c l = true.
Proof.
  intros Hnv Hnc Hnil Hcls Htl all Hvars. unfold main.
  rewrite (parse_dimacs P clause_max nv nc cls tl Hnv Hnc Hcls Htl). fold all.
  destruct (decide (length all = Z.to_nat nc)) as [Hlen|Hlen]; [|done].
  set (c0 := Cnf_of_clauses P (Z.to_nat nv) all).
  assert (Hallok : Forall clause_ok all).
  { unfold all. apply Forall_app. split; [done|].
    case_decide; [constructor|]. by repeat constructor. }
  assert (Hwf : wf_cnf P c0).
  { apply Cnf_of_clauses_wf.
    - rewrite list.Forall_forall in Hallok, Hvars |- *. intros cl Hcl.
      destruct (Hallok cl Hcl) as [_ Hnz]. specialize (Hvars cl Hcl).
      rewrite list.Forall_forall in Hnz, Hvars |- *. intros l Hl.
      split; [by apply Hnz|by apply Hvars].
    - intros i Hi. apply Hnil. lia. }
  assert (Hfr : fresh P c0) by apply Cnf_of_fresh.
  assert (Hlits : ∀ c', same_formula c0 c' → ∀ k cl, all !! k = Some cl →
                        clause_lits c' k = cl).
  { intros c' Hsf k cl Hk. rewrite (same_formula_clause_lits _ _ _ Hsf).
    by apply clause_lits_of_clauses. }
  case_decide as Hempty.
  - intros [= <-]. split; [done|]. split; [done|]. intros k cl Hk.
    exfalso. simpl in Hempty.
    rewrite list.Forall_forall in Hallok.
    destruct (Hallok cl (list_elem_of_lookup_2 _ _ _ Hk)) as [Hne _].
    apply Hne. apply (f_equal length) in Hempty. simpl in Hempty.
    pose proof (take_drop_middle _ _ _ Hk) as E. rewrite <- E in Hempty.
    rewrite concat_app, length_app in Hempty. simpl in Hempty.
    rewrite length_app in Hempty. destruct cl; [done|simpl in Hempty; lia].
  - destruct (solve P _ fuel c0) as [b s| | |] eqn:Es; try done.
    destruct (solve_init_Inv P (seed_draws srand_rand FLAGS_seed now) c0 Hwf Hfr)
      as (HI & _ & Hsf).
    unfold solve in Es.
    destruct (solve_loop_Returned _ _ _ _ _ _ HI Es) as (-> & Hf & HI' & Hsf').
    intros [= <-]. pose proof (same_formula_trans _ _ _ Hsf Hsf') as Hsf2.
    split; [done|]. split; [by destruct Hsf2 as (_ & _ & -> & _)|].
    intros k cl Hk. pose proof (Hlits _ Hsf2 k cl Hk) as Ecl. split; [done|].
    assert (Hklt : k < nclauses (cnf s)).
    { destruct Hsf2 as (_ & _ & _ & ->). simpl. rewrite clause_starts_length.
      by eapply lookup_lt_Some. }
    pose proof (Inv_all_satisfied P _ HI' Hf k Hklt) as Hsat.
    unfold is_satisfied in Hsat. rewrite Ecl in Hsat.
    apply existsb_exists in Hsat as (l & Hl & Ht). exists l.
    split; [by apply list_elem_of_In|done].
Qed.

Lemma main_reports_model_witness :
  ((0 ≤ 4 ≤ lit_max example_platform)%Z ∧ (0 ≤ 3 ≤ 4294967295)%Z ∧
   (∀ i, (0 ≤ Z.of_nat i < 3)%Z → Z.of_nat i ≠ clause_nil example_platform) ∧
   Forall clause_ok [[1; 2]; [3]; [-2; -3; 4]]%Z ∧ Forall (λ l, l ≠ 0%Z) [] ∧
   Forall (Forall (λ l, var l ≤ Z.to_nat 4)) [[1; 2]; [3]; [-2; -3; 4]]%Z) ∧
  ∃ c, main example_platform 4294967295 example_generator 7 0 4 3
         [1; 2; 0; 3; 0; -2; -3; 4; 0]%Z 50 = SAT_EXIT c ∧
       ∃ l, l ∈ [-2; -3; 4]%Z ∧ is_true c l = true.
Proof.
  assert (H : (0 ≤ 4 ≤ lit_max example_platform)%Z ∧ (0 ≤ 3 ≤ 4294967295)%Z ∧
   (∀ i, (0 ≤ Z.of_nat i < 3)%Z → Z.of_nat i ≠ clause_nil example_platform) ∧
   Forall clause_ok [[1; 2]; [3]; [-2; -3; 4]]%Z ∧ Forall (λ l, l ≠ 0%Z) [] ∧
   Forall (Forall (λ l, var l ≤ Z.to_nat 4)) [[1; 2]; [3]; [-2; -3; 4]]%Z).
  { split; [split; discriminate|]. split; [split; discriminate|].
    split; [intros i Hi; simpl; lia|].
    split; [|split; [constructor|]].
    - repeat (apply list.Forall_cons; split;
              [split; [discriminate|repeat constructor; discriminate]|]).
      apply Forall_nil_2.
    - repeat (apply list.Forall_cons; split;
              [repeat (apply list.Forall_cons; split; [vm_compute; lia|]);
               apply Forall_nil_2|]).
      apply Forall_nil_2. }
  split; [exact H|]. destruct H as (H1 & H2 & H3 & H4 & H5 & H6).
  destruct (main example_platform 4294967295 example_generator 7 0 4 3
              [1; 2; 0; 3; 0; -2; -3; 4; 0]%Z 50) as [c| | | | |] eqn:E;
    try (vm_compute in E; discriminate).
  exists c. split; [reflexivity|].
  destruct (main_reports_model example_platform 4294967295 example_generator 7 0
              4 3 [[1; 2]; [3]; [-2; -3; 4]]%Z [] 50 c H1 H2 H3 H4 H5 H6 E)
    as (_ & _ & G).
  exact (proj2 (G 2 _ eq_refl)).
Defined.

Lemma stars_append s1 s2 : stars (append s1 s2) = stars s1 + stars s2.
Proof. induction s1 as [|a s1 IH]; simpl; [done|]. rewrite IH. lia. Qed.

Lemma stars_print_int i : stars (print_int i) = 0.
Proof.
  unfold print_int. generalize (Nat.to_uint i). intros u.
  induction u; simpl; done.
Qed.

Lemma stars_print_lit l : stars (print_lit l) = 0.
Proof.
  unfold print_lit. destruct (l <? 0)%Z; [|apply stars_print_int].
  rewrite stars_append, stars_print_int. done.
Qed.

Lemma stars_dump_lits c last its : ∀ out,
  stars (fold_left (dump_lit c last) its out) =
  stars out +
  length (List.filter (is_true c) ((λ itr, clauses c !!! itr) <$> its)).
Proof.
  induction its as [|itr its IH]; intros out; [simpl; lia|].
  cbn [fold_left]. rewrite IH. rewrite fmap_cons. cbn [List.filter].
  unfold dump_lit. destruct (is_true c (clauses c !!! itr)); case_decide;
    rewrite ?stars_append, ?stars_print_lit; simpl; lia.
Qed.

Lemma stars_dump_clause c k : stars (dump_clause c k) = count_true c k.
Proof.
  unfold dump_clause. cbv zeta. rewrite stars_append, stars_dump_lits.
  unfold count_true, clause_lits. simpl. lia.
Qed.

Lemma stars_dump_unsat c :
  stars (dump_unsat c) = sum_list_with (count_true c) (f c).
Proof.
  unfold dump_unsat.
  assert (H : ∀ l out,
    stars (fold_left
      (λ out fi, append out (append "["%string (append (print_int fi)
         (append "] "%string (append (dump_clause c fi) ", "%string))))) l out) =
    stars out + sum_list_with (count_true c) l).
  { induction l as [|k l IH]; intros out; [simpl; lia|].
    cbn [fold_left sum_list_with]. rewrite IH.
    rewrite !stars_append, stars_print_int, stars_dump_clause. simpl. lia. }
  rewrite H. done.
Qed.

(** X15.  The dump of a clause stars its true literals: at every arrival at W2,
    the number of stars in [dump_clause(k)] is [numtrue[k]]. *)
Theorem dump_clause_stars_numtrue P draws fuel c i s k :
  wf_cnf P c → fresh P c →
  loop_head P draws fuel i (solve_init P draws c) = Some s →
  k < nclauses c →
  stars (dump_clause (cnf s) k) = count_true (cnf s) k ∧
  Z.of_nat (stars (dump_clause (cnf s) k)) = numtrue (cnf s) !!! k.
Proof.
  intros Hwf Hfr Hl Hk.
  destruct (run_Inv _ _ _ _ _ _ Hwf Hfr Hl) as [HI (_ & _ & _ & En)].
  rewrite stars_dump_clause. split; [done|].
  symmetry. apply (Inv_numtrue _ _ HI). lia.
Qed.

Lemma dump_clause_stars_numtrue_witness :
  let s := solve_init example_platform S4_draws S4 in
  (wf_cnf example_platform S4 ∧ fresh example_platform S4 ∧
   loop_head example_platform S4_draws 5 0
     (solve_init example_platform S4_draws S4) = Some s ∧ 0 < nclauses S4) ∧
  dump_clause (cnf s) 0 = "(1* 2*)"%string ∧
  Z.of_nat (stars (dump_clause (cnf s) 0)) = numtrue (cnf s) !!! 0.
Proof.
  intros s.
  assert (H : wf_cnf example_platform S4 ∧ fresh example_platform S4 ∧
   loop_head example_platform S4_draws 5 0
     (solve_init example_platform S4_draws S4) = Some s ∧ 0 < nclauses S4).
  { split; [exact S4_wf|]. split; [exact S4_fresh|]. split; [reflexivity|].
    vm_compute. lia. }
  split; [exact H|]. destruct H as (H1 & H2 & H3 & H4).
  split; [vm_compute; reflexivity|].
  exact (proj2 (dump_clause_stars_numtrue _ _ _ _ _ _ _ H1 H2 H3 H4)).
Defined.

(** X16.  The dump of the stack shows no true literal: at every arrival at W2,
    [dump_unsat] has no star. *)
Theorem dump_unsat_has_no_star P draws fuel c i s :
  wf_cnf P c → fresh P c →
  loop_head P draws fuel i (solve_init P draws c) = Some s →
  stars (dump_unsat (cnf s)) = 0.
Proof.
  intros Hwf Hfr Hl.
  destruct (run_Inv _ _ _ _ _ _ Hwf Hfr Hl) as [HI _].
  rewrite stars_dump_unsat.
  assert (H : ∀ k, k ∈ f (cnf s) → count_true (cnf s) k = 0).
  { intros k Hk. apply (unsat_members P _ k HI) in Hk as [Hlt Hz].
    rewrite (Inv_numtrue _ _ HI k Hlt) in Hz. lia. }
  induction (f (cnf s)) as [|k l IH]; [done|]. cbn [sum_list_with].
  rewrite (H k) by left. apply IH. intros j Hj. apply H. by right.
Qed.

Lemma dump_unsat_has_no_star_witness :
  let s := solve_init example_platform S4_draws S4 in
  (wf_cnf example_platform S4 ∧ fresh example_platform S4 ∧
   loop_head example_platform S4_draws 5 0
     (solve_init example_platform S4_draws S4) = Some s) ∧
  dump_unsat (cnf s) = "[1] (3), "%string ∧
  stars (dump_unsat (cnf s)) = 0.
Proof.
  intros s.
  assert (H : wf_cnf example_platform S4 ∧ fresh example_platform S4 ∧
   loop_head example_platform S4_draws 5 0
     (solve_init example_platform S4_draws S4) = Some s).
  { split; [exact S4_wf|]. split; [exact S4_fresh|reflexivity]. }
  split; [exact H|]. destruct H as (H1 & H2 & H3).
  split; [vm_compute; reflexivity|].
  exact (dump_unsat_has_no_star _ _ _ _ _ _ H1 H2 H3).
Defined.

Lemma is_satisfied_member c k l :
  l ∈ clause_lits c k → is_true c l = true → is_satisfied c k = true.
Proof.
  intros Hl Ht. unfold is_satisfied. apply existsb_exists. exists l.
  split; [by apply list_elem_of_In|done].
Qed.

(** X17.  A clause with a literal and its complement is satisfied under every
    assignment, so at no arrival at W2 is it on the stack. *)
Theorem tautology_never_on_stack P draws fuel c i s k l :
  wf_cnf P c → fresh P c →
  loop_head P draws fuel i (solve_init P draws c) = Some s →
  k < nclauses c → l ∈ clause_lits c k → (- l)%Z ∈ clause_lits c k →
  (∀ v, is_satisfied (set_val v c) k = true) ∧
  is_satisfied (cnf s) k = true ∧ k ∉ f (cnf s).
Proof.
  intros Hwf Hfr Hl Hk Hin Hin'.
  destruct (run_Inv _ _ _ _ _ _ Hwf Hfr Hl) as [HI Hsf].
  destruct (wf_lits _ _ Hwf _ _ Hk Hin) as [Hl0 _].
  assert (Hany : ∀ c', clause_lits c' k = clause_lits c k → is_satisfied c' k = true).
  { intros c' E. destruct (is_true c' l) eqn:Et.
    - apply (is_satisfied_member _ _ l); [by rewrite E|done].
    - apply (is_satisfied_member _ _ (- l)%Z); [by rewrite E|].
      by rewrite is_true_opp, Et. }
  split; [intros v; by apply Hany|].
  pose proof (Hany (cnf s) (same_formula_clause_lits _ _ _ Hsf)) as Hsat.
  split; [done|]. intros Hf.
  apply (Inv_unsat_iff P _ k HI) in Hf; [congruence|].
  destruct Hsf as (_ & _ & _ & ->). done.
Qed.

Lemma tautology_never_on_stack_witness :
  ∃ s,
  (wf_cnf example_platform complementary_literals ∧
   fresh example_platform complementary_literals ∧
   loop_head example_platform (draws_of []) 5 1
     (solve_init example_platform (draws_of []) complementary_literals) = Some s ∧
   0 < nclauses complementary_literals ∧
   1%Z ∈ clause_lits complementary_literals 0 ∧
   (- 1)%Z ∈ clause_lits complementary_literals 0) ∧
  f (cnf s) = [] ∧ 0 ∉ f (cnf s).
Proof.
  destruct (loop_head example_platform (draws_of []) 5 1
              (solve_init example_platform (draws_of []) complementary_literals))
    as [s|] eqn:E; [|vm_compute in E; discriminate].
  exists s.
  assert (H : wf_cnf example_platform complementary_literals ∧
   fresh example_platform complementary_literals ∧
   Some s = Some s ∧
   0 < nclauses complementary_literals ∧
   1%Z ∈ clause_lits complementary_literals 0 ∧
   (- 1)%Z ∈ clause_lits complementary_literals 0).
  { split; [apply check_wf_sound; vm_compute; reflexivity|].
    split; [apply Cnf_of_fresh|]. split; [reflexivity|].
    split; [vm_compute; lia|].
    split; apply list_elem_of_In; vm_compute; tauto. }
  split; [exact H|]. destruct H as (H1 & H2 & _ & H4 & H5 & H6).
  destruct (tautology_never_on_stack _ _ _ _ _ _ _ _ H1 H2 E H4 H5 H6) as (_ & _ & G).
  split; [|exact G]. vm_compute in E. injection E as <-. reflexivity.
Defined.
